(** * broadcastify-cli: the transcript fusion loop, the date-range driver,
    the concatenator and the fetch pool of [broadcastify_cli.py], with the
    command that starts them, the login and the transcription of a directory

    Shallow embedding of [src/broadcastify_cli/broadcastify_cli.py].
    Python [str] is [string], [dict] is stdpp's [gmap], lists are lists.
    Segment times are Python floats; only their order and their truncation
    to whole seconds are used by the program, so they are embedded as
    rationals ([Q]): every finite float is a rational and the comparisons
    agree.  NaN and the infinities are outside the model. *)

From Stdlib Require Import ZArith QArith Qminmax Qround Lia Ascii.
From stdpp Require Import base option list gmap strings pretty sorting.

#[local] Set Warnings "-clear-no-such-hyp".

(** ** Text helpers: the pieces of Python's string formatting the program uses *)
Module Text.

Fixpoint zeros (n : nat) : string :=
  match n with
  | O => ""
  | S n' => String "0" (zeros n')
  end.

(** Zero padding on the left up to a width, the [02] of [f"{n:02d}"] and
    ["%02d"], applied to the decimal digits of a non-negative number. *)
Definition zfill (width : nat) (s : string) : string :=
  zeros (width - String.length s) +:+ s.

Definition fmt_02d (n : N) : string := zfill 2 (pretty n).

Definition fmt_04d (n : N) : string := zfill 4 (pretty n).

(** The two decimal digits of a number below 100, and the four of a number
    below 10000: what the paddings above produce on such numbers. *)
Definition digits2 (n : N) : string :=
  String (pretty_N_char (n `div` 10)) (String (pretty_N_char (n `mod` 10)) "").

Definition digits4 (n : N) : string :=
  digits2 (n `div` 100) +:+ digits2 (n `mod` 100).

(** The line feed written as a backslash-n in the Python source. *)
Definition newline : string := String (Ascii.ascii_of_nat 10) "".

Fixpoint has_space (s : string) : bool :=
  match s with
  | "" => false
  | String c s' => Ascii.eqb c " " || has_space s'
  end.

(** [s.startswith(p)] and [s.endswith(p)]. *)
Definition startswith (s p : string) : bool := String.prefix p s.

Definition endswith (s p : string) : bool :=
  String.prefix (String.rev p) (String.rev s).

End Text.

(** ** The transcript fusion loop of [transcribe_audio] *)
Module Fusion.

(** A segment yielded by the transcription model: the loop reads [start],
    [end], [text] and [seek]. *)
Record TranscriptionSegment := {
  t_start : Q;
  t_end : Q;
  t_text : string;
  t_seek : Z
}.

(** Modelled from the spec: the diarization collaborator's segment type is
    not part of this repository; the loop reads [start] and [end] of each
    element of [diarization_segments] and calls [get_label()] on the selected
    one.  Following the data model of the specification it is a record
    [{start, end, speaker_label}], [get_label] returns the label, and such an
    object is truthy in [if overlap:] (only [None] is not). *)
Record DiarizationSegment := {
  d_start : Q;
  d_end : Q;
  get_label : string
}.

(** One element of [output_json["segments"]]. *)
Record Entry := {
  e_text : string;
  e_start : Q;
  e_end : Q;
  e_seek : Z;
  e_speaker : string
}.

Definition Qltb (x y : Q) : bool := negb (Qle_bool y x).

(** The condition of the inner [if], lines 381-383. *)
Definition overlaps (segment : TranscriptionSegment) (dia_segment : DiarizationSegment) : bool :=
  (Qle_bool (d_start dia_segment) (t_start segment) && Qltb (t_start segment) (d_end dia_segment))
  || (Qltb (d_start dia_segment) (t_end segment) && Qle_bool (t_end segment) (d_end dia_segment))
  || (Qle_bool (t_start segment) (d_start dia_segment) && Qle_bool (d_end dia_segment) (t_end segment)).

(** The inner [for dia_segment in diarization_segments: ... break], with
    [overlap = None] when the loop ends without a [break]. *)
Fixpoint find_overlap (segment : TranscriptionSegment)
    (diarization_segments : list DiarizationSegment) : option DiarizationSegment :=
  match diarization_segments with
  | [] => None
  | dia_segment :: rest =>
      if overlaps segment dia_segment then Some dia_segment
      else find_overlap segment rest
  end.

Definition SPEAKER_UNK : string := "SPEAKER_UNK".

(** Lines 387-390. *)
Definition select_speaker (diarization_segments : list DiarizationSegment)
    (segment : TranscriptionSegment) : string :=
  match find_overlap segment diarization_segments with
  | Some overlap => get_label overlap
  | None => SPEAKER_UNK
  end.

(** [f"SPEAKER_{speaker_counter:02d}"]. *)
Definition speaker_name (speaker_counter : nat) : string :=
  "SPEAKER_" +:+ Text.fmt_02d (N.of_nat speaker_counter).

(** [int(x)] on a float: truncation toward zero. *)
Definition int_of (x : Q) : Z := Z.quot (Qnum x) (Zpos (Qden x)).

(** [str(datetime.timedelta(seconds=n))] for an integer [n]: the constructor
    normalises to [days] and [0 <= seconds < 86400] by floor division, and
    [__str__] prints [H:MM:SS], preceded by the day count when it is not 0.
    (The bound of 999999999 days on a timedelta is not modelled.) *)
Definition timedelta_str (n : Z) : string :=
  let days := (n / 86400)%Z in
  let seconds := (n mod 86400)%Z in
  let mm := (seconds / 60)%Z in
  let ss := (seconds mod 60)%Z in
  let hh := (mm / 60)%Z in
  let mm := (mm mod 60)%Z in
  let s := pretty hh +:+ ":" +:+ Text.fmt_02d (Z.to_N mm) +:+ ":" +:+ Text.fmt_02d (Z.to_N ss) in
  if decide (days = 0%Z) then s
  else pretty days +:+ " day" +:+ (if decide (Z.abs days = 1%Z) then "" else "s") +:+ ", " +:+ s.

(** The variables the outer loop updates. *)
Record state := {
  speaker_map : gmap string string;
  speaker_counter : nat;
  json_text : string;
  json_segments : list Entry;
  output_txt : string
}.

Definition init : state := {|
  speaker_map := ∅;
  speaker_counter := 0;
  json_text := "";
  json_segments := [];
  output_txt := ""
|}.

(** Lines 393-395: the dictionary and the counter after the [if]. *)
Definition assign (speaker : string) (m : gmap string string) (c : nat)
    : gmap string string * nat :=
  match m !! speaker with
  | None => (<[speaker := speaker_name c]> m, S c)
  | Some _ => (m, c)
  end.

(** The text line appended for a segment, line 416. *)
Definition txt_line (segment : TranscriptionSegment) : string :=
  "[" +:+ timedelta_str (int_of (t_start segment)) +:+ "]" +:+ " - " +:+ t_text segment +:+ Text.newline.

(** The header line [f"{speaker_id}\n"] of lines 414-415. *)
Definition header (speaker_id : string) : string := speaker_id +:+ Text.newline.

(** One iteration of [for segment in segments], lines 377-416.
    [speaker_map[speaker]] is a lookup that raises [KeyError] on a missing
    key; [assign_lookup] below shows the key is always there, so the
    total lookup is the value read. *)
Definition step (diarization_segments : list DiarizationSegment)
    (st : state) (segment : TranscriptionSegment) : state :=
  let speaker := select_speaker diarization_segments segment in
  let '(m, c) := assign speaker (speaker_map st) (speaker_counter st) in
  let speaker_id := m !!! speaker in
  {| speaker_map := m;
     speaker_counter := c;
     json_text := json_text st +:+ t_text segment +:+ " ";
     json_segments := json_segments st ++ [ {|
        e_text := t_text segment;
        e_start := t_start segment;
        e_end := t_end segment;
        e_seek := t_seek segment;
        e_speaker := speaker_id |} ];
     output_txt :=
       (if Text.endswith (output_txt st) (header speaker_id)
        then output_txt st
        else output_txt st +:+ header speaker_id) +:+ txt_line segment |}.

(** The whole loop, from the initial values of lines 364-375. *)
Definition run (segments : list TranscriptionSegment)
    (diarization_segments : list DiarizationSegment) : state :=
  foldl (step diarization_segments) init segments.

(** The fused sequence: [output_json["segments"]]. *)
Definition fuse (segments : list TranscriptionSegment)
    (diarization_segments : list DiarizationSegment) : list Entry :=
  json_segments (run segments diarization_segments).

(** *** Vocabulary of the statements about the loop *)

(** The example of the specification: transcription segments [0,2] "a" and
    [3,5] "b", one diarization segment [0,2.5] labelled "X". *)
Definition example_segments : list TranscriptionSegment :=
  [ {| t_start := 0; t_end := 2; t_text := "a"; t_seek := 0 |};
    {| t_start := 3; t_end := 5; t_text := "b"; t_seek := 0 |} ].

Definition example_diarization : list DiarizationSegment :=
  [ {| d_start := 0; d_end := 5 # 2; get_label := "X" |} ].

(** The three overlap conditions, as propositions on the times. *)
Definition overlap_cond (t : TranscriptionSegment) (d : DiarizationSegment) : Prop :=
  (d_start d <= t_start t /\ t_start t < d_end d)%Q
  \/ (d_start d < t_end t /\ t_end t <= d_end d)%Q
  \/ (t_start t <= d_start d /\ d_end d <= t_end t)%Q.

(** The length of the intersection of the two intervals: the quantity a
    maximal-overlap rule would compare, and which the loop never computes. *)
Definition overlap_duration (t : TranscriptionSegment) (d : DiarizationSegment) : Q :=
  Qmax 0 (Qmin (t_end t) (d_end d) - Qmax (t_start t) (d_start d)).

(** The label selected for each transcription segment, in input order. *)
Definition labels (segments : list TranscriptionSegment)
    (diarization_segments : list DiarizationSegment) : list string :=
  select_speaker diarization_segments <$> segments.

(** The distinct labels among the first [j] selected ones. *)
Definition seen_before (ls : list string) (j : nat) : gset string :=
  list_to_set (take j ls).

(** The fields an entry copies from its transcription segment. *)
Definition entry_fields (e : Entry) : string * Q * Q * Z :=
  (e_text e, e_start e, e_end e, e_seek e).

Definition segment_fields (t : TranscriptionSegment) : string * Q * Q * Z :=
  (t_text t, t_start t, t_end t, t_seek t).

(** [H:MM:SS] of a number of seconds: the hours without padding, minutes and
    seconds on two digits. *)
Definition hms (n : Z) : string :=
  pretty (n / 3600)%Z +:+ ":" +:+ Text.fmt_02d (Z.to_N ((n / 60) mod 60))
    +:+ ":" +:+ Text.fmt_02d (Z.to_N (n mod 60)).

(** The text line of an entry, from the entry's own fields. *)
Definition entry_line (e : Entry) : string :=
  "[" +:+ timedelta_str (int_of (e_start e)) +:+ "]" +:+ " - " +:+ e_text e +:+ Text.newline.

Definition concat_str (l : list string) : string := foldr String.append "" l.

(** The human-readable projection as the specification words it: a header
    when the speaker differs from the previous entry's, then [[H:MM:SS] - text]. *)
Fixpoint render_on_change (prev : option string) (es : list Entry) : string :=
  match es with
  | [] => ""
  | e :: es' =>
      (if decide (prev = Some (e_speaker e)) then "" else header (e_speaker e))
      +:+ "[" +:+ hms (int_of (e_start e)) +:+ "]" +:+ " - " +:+ e_text e +:+ Text.newline
      +:+ render_on_change (Some (e_speaker e)) es'
  end.

(** Two consecutive segments of one speaker. *)
Definition same_speaker_segments : list TranscriptionSegment :=
  [ {| t_start := 0; t_end := 2; t_text := "a"; t_seek := 0 |};
    {| t_start := 2; t_end := 4; t_text := "b"; t_seek := 0 |} ].

Definition same_speaker_diarization : list DiarizationSegment :=
  [ {| d_start := 0; d_end := 5; get_label := "X" |} ].

(** A segment that starts 25 hours into the recording. *)
Definition late_segments : list TranscriptionSegment :=
  [ {| t_start := 90000; t_end := 90001; t_text := "b"; t_seek := 0 |} ].

(** The invariant of the speaker mapping: the counter is the size of the
    dictionary, no two labels share an identifier, and the identifiers in use
    are exactly [SPEAKER_00 .. SPEAKER_(k-1)] for [k] the counter. *)
Definition well_formed (st : state) : Prop :=
  speaker_counter st = size (speaker_map st)
  /\ (forall l1 l2 v, speaker_map st !! l1 = Some v -> speaker_map st !! l2 = Some v -> l1 = l2)
  /\ (forall v, (exists l, speaker_map st !! l = Some v)
                <-> exists i, i < speaker_counter st /\ v = speaker_name i).

End Fusion.

(** ** Calendar dates: the part of Python's [datetime] the drivers use *)
Module Calendar.

(** A [datetime.datetime]: the calendar date and the time within the day
    (microseconds since midnight).  Adding or subtracting whole days leaves
    the time of day unchanged, and [strftime("%Y/%m/%d")] does not print it. *)
Record datetime := {
  year : Z;
  month : Z;
  day : Z;
  time_of_day : Z
}.

Definition MINYEAR : Z := 1.
Definition MAXYEAR : Z := 9999.

Definition is_leap (y : Z) : bool :=
  (y mod 4 =? 0)%Z && (negb (y mod 100 =? 0)%Z || (y mod 400 =? 0)%Z).

Definition days_in_month (y m : Z) : Z :=
  if (m =? 2)%Z then (if is_leap y then 29 else 28)%Z
  else if ((m =? 4) || (m =? 6) || (m =? 9) || (m =? 11))%Z then 30%Z
  else 31%Z.

(** The dates a [datetime] object can hold. *)
Definition valid (d : datetime) : bool :=
  (MINYEAR <=? year d)%Z && (year d <=? MAXYEAR)%Z
  && (1 <=? month d)%Z && (month d <=? 12)%Z
  && (1 <=? day d)%Z && (day d <=? days_in_month (year d) (month d))%Z.

(** [d + timedelta(days=1)]; [None] is Python's [OverflowError] past the
    last representable date. *)
Definition next_day (d : datetime) : option datetime :=
  if (day d <? days_in_month (year d) (month d))%Z then
    Some {| year := year d; month := month d; day := day d + 1;
            time_of_day := time_of_day d |}
  else if (month d <? 12)%Z then
    Some {| year := year d; month := month d + 1; day := 1;
            time_of_day := time_of_day d |}
  else if (year d <? MAXYEAR)%Z then
    Some {| year := year d + 1; month := 1; day := 1;
            time_of_day := time_of_day d |}
  else None.

(** [d - timedelta(days=1)]; [None] is [OverflowError] before the first
    representable date. *)
Definition prev_day (d : datetime) : option datetime :=
  if (1 <? day d)%Z then
    Some {| year := year d; month := month d; day := day d - 1;
            time_of_day := time_of_day d |}
  else if (1 <? month d)%Z then
    Some {| year := year d; month := month d - 1;
            day := days_in_month (year d) (month d - 1);
            time_of_day := time_of_day d |}
  else if (MINYEAR <? year d)%Z then
    Some {| year := year d - 1; month := 12; day := 31;
            time_of_day := time_of_day d |}
  else None.

Fixpoint iter_days (f : datetime -> option datetime) (n : nat) (d : datetime)
    : option datetime :=
  match n with
  | O => Some d
  | S n' => match f d with
            | Some d' => iter_days f n' d'
            | None => None
            end
  end.

(** [d - timedelta(days=k)] for an integer [k] of either sign. *)
Definition sub_days (d : datetime) (k : Z) : option datetime :=
  if (0 <=? k)%Z then iter_days prev_day (Z.to_nat k) d
  else iter_days next_day (Z.to_nat (- k)) d.

(** The order of [datetime] objects: by date, then by time of day. *)
Definition lex (c r : comparison) : comparison :=
  match c with
  | Eq => r
  | _ => c
  end.

Definition date_compare (a b : datetime) : comparison :=
  lex (year a ?= year b)%Z (lex (month a ?= month b)%Z (day a ?= day b)%Z).

Definition dt_compare (a b : datetime) : comparison :=
  lex (date_compare a b) (time_of_day a ?= time_of_day b)%Z.

(** [a <= b] on datetimes. *)
Definition dt_leb (a b : datetime) : bool :=
  match dt_compare a b with
  | Gt => false
  | _ => true
  end.

(** [d.strftime("%Y/%m/%d")]: the year on four digits, month and day on two.
    (Before year 1000 the C library of some platforms prints the year
    without padding; current dates are not concerned.) *)
Definition strftime (d : datetime) : string :=
  Text.fmt_04d (Z.to_N (year d)) +:+ "/" +:+ Text.fmt_02d (Z.to_N (month d))
    +:+ "/" +:+ Text.fmt_02d (Z.to_N (day d)).

(** The value of an ASCII decimal digit. *)
Definition digit_of (c : ascii) : option Z :=
  let n := Z.of_N (N_of_ascii c) in
  if ((48 <=? n) && (n <=? 57))%Z then Some (n - 48)%Z else None.

Definition digit_in (lo hi : Z) (c : ascii) : option Z :=
  match digit_of c with
  | Some v => if ((lo <=? v) && (v <=? hi))%Z then Some v else None
  | None => None
  end.

(** The field [%Y] of [strptime]: exactly four digits. *)
Definition parse_year (a b c d : ascii) : option Z :=
  match digit_of a, digit_of b, digit_of c, digit_of d with
  | Some x, Some y, Some z, Some w => Some (1000 * x + 100 * y + 10 * z + w)%Z
  | _, _, _, _ => None
  end.

(** The field [%m]: [1[0-2]|0[1-9]|[1-9]]. *)
Definition parse_month2 (a b : ascii) : option Z :=
  if Ascii.eqb a "1" then (fun v => 10 + v)%Z <$> digit_in 0 2 b
  else if Ascii.eqb a "0" then digit_in 1 9 b
  else None.

(** The field [%d]: [3[01]|[12]\d|0[1-9]|[1-9]| [1-9]]. *)
Definition parse_day2 (a b : ascii) : option Z :=
  if Ascii.eqb a "3" then (fun v => 30 + v)%Z <$> digit_in 0 1 b
  else if Ascii.eqb a "1" then (fun v => 10 + v)%Z <$> digit_of b
  else if Ascii.eqb a "2" then (fun v => 20 + v)%Z <$> digit_of b
  else if Ascii.eqb a "0" then digit_in 1 9 b
  else if Ascii.eqb a " " then digit_in 1 9 b
  else None.

(** The day field runs to the end of the string. *)
Definition parse_day (s : string) : option Z :=
  match s with
  | String a "" => digit_in 1 9 a
  | String a (String b "") => parse_day2 a b
  | _ => None
  end.

(** The month field and the rest after the separator that follows it. *)
Definition parse_month (s : string) : option (Z * string) :=
  match s with
  | String a (String b rest) =>
      if Ascii.eqb b "/" then (fun v => (v, rest)) <$> digit_in 1 9 a
      else match rest with
           | String c rest' =>
               if Ascii.eqb c "/" then (fun v => (v, rest')) <$> parse_month2 a b
               else None
           | "" => None
           end
  | _ => None
  end.

(** [datetime.strptime(s, "%Y/%m/%d")]: [None] is Python's [ValueError], for
    a string that does not match the format or names no date of the
    calendar.  The result is at midnight. *)
Definition strptime (s : string) : option datetime :=
  match s with
  | String a (String b (String c (String d (String sep rest)))) =>
      if Ascii.eqb sep "/" then
        match parse_year a b c d, parse_month rest with
        | Some y, Some (m, rest') =>
            match parse_day rest' with
            | Some dd =>
                let r := {| year := y; month := m; day := dd; time_of_day := 0 |} in
                if valid r then Some r else None
            | None => None
            end
        | _, _ => None
        end
      else None
  | _ => None
  end.

(** *** Vocabulary: the day number of a date *)

Definition days_before_year (y : Z) : Z :=
  ((y - 1) * 365 + (y - 1) / 4 - (y - 1) / 100 + (y - 1) / 400)%Z.

(** The number of days in the year before the first of month [m]. *)
Definition days_before_month (y m : Z) : Z :=
  (nth (Z.to_nat m) [0; 0; 31; 59; 90; 120; 151; 181; 212; 243; 273; 304; 334] 0
   + (if (2 <? m)%Z && is_leap y then 1 else 0))%Z.

(** The proleptic Gregorian ordinal, [date.toordinal()]: 0001-01-01 is day 1. *)
Definition toordinal (d : datetime) : Z :=
  (days_before_year (year d) + days_before_month (year d) (month d) + day d)%Z.

(** [a] is a date strictly before [b], and not after [b]. *)
Definition date_lt (a b : datetime) : Prop := date_compare a b = Lt.
Definition date_le (a b : datetime) : Prop := date_compare a b <> Gt.

#[global] Instance date_lt_dec (a b : datetime) : Decision (date_lt a b).
Proof. unfold date_lt. apply _. Defined.

#[global] Instance date_le_dec (a b : datetime) : Decision (date_le a b).
Proof. unfold date_le. apply _. Defined.

End Calendar.

(** ** The date-range drivers: [download_archives_by_range] and
    [download_past_n_days] *)
Module Driver.
Import Calendar.

Inductive error := ValueError | OverflowError.

(** How a driver ends: it returns, it calls [exit(code)], or an exception
    leaves it. *)
Inductive status :=
| Returned
| Exited (code : Z)
| Raised (e : error).

(** What a run of a driver did: the dates it handed to
    [download_archive_by_date], in call order, and how it ended.  Every
    network request of a driver is made inside those calls; what a call does
    with its date is the fetch pool's business and is not followed here. *)
Record outcome := {
  fetched : list string;
  ending : status
}.

(** Python's [s1 > s2] on strings: code point order. *)
Definition str_gt (s1 s2 : string) : bool := String.ltb s2 s1.

(** The loop of lines 106-108.  [fuel] bounds the number of iterations a run
    of the model may take; [None] means the bound was reached. *)
Fixpoint range_loop (fuel : nat) (start_date end_date : datetime) (dates : list string)
    : option (list string * status) :=
  match fuel with
  | O => None
  | S fuel' =>
      if dt_leb start_date end_date then
        let dates' := dates ++ [strftime start_date] in
        match next_day start_date with
        | Some start_date' => range_loop fuel' start_date' end_date dates'
        | None => Some (dates', Raised OverflowError)
        end
      else Some (dates, Returned)
  end.

(** [download_archives_by_range], lines 88-111; [now] is the value of
    [datetime.datetime.now()]. *)
Definition download_archives_by_range (fuel : nat) (now : datetime)
    (start_date end_date : string) : option outcome :=
  let today := strftime now in
  if str_gt start_date today || str_gt end_date today then
    Some {| fetched := []; ending := Exited 1 |}
  else if str_gt start_date end_date then
    Some {| fetched := []; ending := Exited 1 |}
  else
    match strptime start_date with
    | None => Some {| fetched := []; ending := Raised ValueError |}
    | Some start_dt =>
        match strptime end_date with
        | None => Some {| fetched := []; ending := Raised ValueError |}
        | Some end_dt =>
            match range_loop fuel start_dt end_dt [] with
            | None => None
            | Some (dates, Returned) => Some {| fetched := dates; ending := Returned |}
            | Some (_, st) => Some {| fetched := []; ending := st |}
            end
        end
    end.

(** The loop of lines 434-445: each iteration hands its date to
    [download_archive_by_date] before stepping a day back. *)
Fixpoint past_loop (fuel : nat) (current_date start_date : datetime) (done : list string)
    : option outcome :=
  match fuel with
  | O => None
  | S fuel' =>
      if dt_leb start_date current_date then
        let done' := done ++ [strftime current_date] in
        match prev_day current_date with
        | Some current_date' => past_loop fuel' current_date' start_date done'
        | None => Some {| fetched := done'; ending := Raised OverflowError |}
        end
      else Some {| fetched := done; ending := Returned |}
  end.

(** [download_past_n_days], lines 427-445, without the transcription that
    may follow the downloads. *)
Definition download_past_n_days (fuel : nat) (now : datetime) (past_days : Z)
    : option outcome :=
  let end_date := now in
  match sub_days end_date past_days with
  | None => Some {| fetched := []; ending := Raised OverflowError |}
  | Some start_date => past_loop fuel end_date start_date []
  end.

(** *** Vocabulary of the statements about the drivers *)

(** A date of the calendar, as the documented form [YYYY/MM/DD] names it:
    [strftime] of such a date is that form. *)
Definition well_formed_date (d : datetime) : Prop :=
  valid d = true /\ time_of_day d = 0%Z.

(** The last day a [datetime] can hold. *)
Definition max_date : datetime :=
  {| year := MAXYEAR; month := 12; day := 31; time_of_day := 0 |}.

(** [n] consecutive days forward from [d], and backward from [d]. *)
Fixpoint days_from (d : datetime) (n : nat) : list datetime :=
  match n with
  | O => []
  | S n' => d :: match next_day d with
                 | Some d' => days_from d' n'
                 | None => []
                 end
  end.

Fixpoint days_back (d : datetime) (n : nat) : list datetime :=
  match n with
  | O => []
  | S n' => d :: match prev_day d with
                 | Some d' => days_back d' n'
                 | None => []
                 end
  end.

(** The number of days from [a] to [b], both included. *)
Definition days_between (a b : datetime) : nat :=
  Z.to_nat (toordinal b + 1 - toordinal a).

End Driver.

(** ** The concatenator: [combine_mp3_files] *)
Module Concat.
Import Calendar.

(** *** Paths, as [os.path] and [glob] treat them on POSIX *)

Fixpoint has_slash (s : string) : bool :=
  match s with
  | "" => false
  | String c s' => Ascii.eqb c "/" || has_slash s'
  end.

(** [os.path.basename]: what follows the last slash. *)
Fixpoint basename (p : string) : string :=
  match p with
  | "" => ""
  | String c p' =>
      if has_slash p' then basename p'
      else if Ascii.eqb c "/" then p' else p
  end.

(** The part of a path up to and including its last slash. *)
Fixpoint dir_head (p : string) : string :=
  match p with
  | "" => ""
  | String c p' =>
      if has_slash p' then String c (dir_head p')
      else if Ascii.eqb c "/" then "/" else ""
  end.

Fixpoint lstrip_slash (s : string) : string :=
  match s with
  | String c s' => if Ascii.eqb c "/" then lstrip_slash s' else s
  | "" => ""
  end.

Definition rstrip_slash (s : string) : string :=
  String.rev (lstrip_slash (String.rev s)).

(** [os.path.dirname]: the head, without its trailing slashes unless it
    consists of slashes only. *)
Definition dirname (p : string) : string :=
  let head := dir_head p in
  let stripped := rstrip_slash head in
  if decide (stripped = "") then head else stripped.

(** [os.path.join(a, b)]. *)
Definition path_join (a b : string) : string :=
  if Text.startswith b "/" then b
  else if decide (a = "") then b
  else if Text.endswith a "/" then a +:+ b
  else a +:+ "/" +:+ b.

Fixpoint strip_prefix (p s : string) : option string :=
  match p, s with
  | "", _ => Some s
  | String a p', String b s' => if Ascii.eqb a b then strip_prefix p' s' else None
  | String _ _, "" => None
  end.

(** The name of [p] when [p] is an entry of [directory]. *)
Definition child_name (directory p : string) : option string :=
  match strip_prefix (directory +:+ "/") p with
  | Some name => if has_slash name || bool_decide (name = "") then None else Some name
  | None => None
  end.

(** A name matched by the pattern [*.mp3]: it ends in [.mp3], and does not
    start with a dot, which [*] does not match. *)
Definition matches_star_mp3 (name : string) : bool :=
  Text.endswith name ".mp3" && negb (Text.startswith name ".").

(** A path matched by the pattern [f"{directory}/*.mp3"], for a directory
    whose own name holds none of the pattern characters. *)
Definition glob_match (directory p : string) : bool :=
  match child_name directory p with
  | Some name => matches_star_mp3 name
  | None => false
  end.

(** *** The file system and the console *)

(** Files by path, with their contents, and what the function printed.
    Paths are told apart as they are written. *)
Record world := {
  files : gmap string string;
  console : list string
}.

Inductive exn :=
| ValueError
| FileNotFoundError
| FfmpegError (stderr : string).

(** A Python statement: it changes the world and completes, or raises. *)
Definition M (A : Type) : Type := world -> world * (exn + A).

Definition ret {A : Type} (a : A) : M A := fun w => (w, inr a).

Definition raise {A : Type} (e : exn) : M A := fun w => (w, inl e).

Definition bind {A B : Type} (m : M A) (k : A -> M B) : M B :=
  fun w => match m w with
           | (w', inr a) => k a w'
           | (w', inl e) => (w', inl e)
           end.

Notation "'let*' x ':=' m 'in' k" := (bind m (fun x => k))
  (at level 10, x name, m at level 100, k at level 200, only parsing).

(** [try: body  except ffmpeg.Error as e: handler(e)  finally: cleanup]. *)
Definition try_except_finally (body : M unit) (handler : string -> M unit)
    (cleanup : M unit) : M unit :=
  fun w =>
    let '(w1, r1) :=
      match body w with
      | (w', inl (FfmpegError stderr)) => handler stderr w'
      | other => other
      end in
    match cleanup w1 with
    | (w2, inr _) => (w2, r1)
    | (w2, inl e) => (w2, inl e)
    end.

Definition print (msg : string) : M unit :=
  fun w => ({| files := files w; console := console w ++ [msg] |}, inr tt).

Definition write_file (path content : string) : M unit :=
  fun w => ({| files := <[path := content]> (files w); console := console w |}, inr tt).

(** [os.remove] and [os.unlink]. *)
Definition os_remove (path : string) : M unit :=
  fun w => match files w !! path with
           | Some _ => ({| files := delete path (files w); console := console w |}, inr tt)
           | None => (w, inl FileNotFoundError)
           end.

(** [shutil.copy2(src, dst)] between two file paths. *)
Definition copy2 (src dst : string) : M unit :=
  fun w => match files w !! src with
           | Some content => write_file dst content w
           | None => (w, inl FileNotFoundError)
           end.

Fixpoint for_each {A : Type} (l : list A) (body : A -> M unit) : M unit :=
  match l with
  | [] => ret tt
  | x :: rest => let* _ := body x in for_each rest body
  end.

(** [glob.glob(f"{directory}/*.mp3")]: the matching entries of the directory,
    in the arbitrary order of the listing. *)
Definition listing (directory : string) (fs : gmap string string) : list string :=
  filter (fun p => glob_match directory p = true) (map_to_list fs).*1.

Definition glob_mp3 (directory : string) : M (list string) :=
  fun w => (w, inr (listing directory (files w))).

(** [date_obj.strftime("%Y%m%d")]. *)
Definition strftime_compact (d : datetime) : string :=
  Text.fmt_04d (Z.to_N (year d)) +:+ Text.fmt_02d (Z.to_N (month d))
    +:+ Text.fmt_02d (Z.to_N (day d)).

(** The lines written to the list file, lines 291-292. *)
Definition list_file_text (mp3_files : list string) : string :=
  Fusion.concat_str ((fun file => "file '" +:+ file +:+ "'" +:+ Text.newline) <$> mp3_files).

Section Combine.

(** [which("ffmpeg")]. *)
Variable ffmpeg_path : option string.

(** The external encoder, run on the list file: it reads the list and the
    files it names, and gives the merged audio, or fails with its diagnostic
    output.  On success the merged audio is written to the output path. *)
Variable ffmpeg_concat : gmap string string -> string -> string + string.

(** The name [tempfile.NamedTemporaryFile] picks. *)
Variable temp_file_name : string.

Definition ffmpeg_run (list_file output_file : string) : M unit :=
  fun w => match ffmpeg_concat (files w) list_file with
           | inl merged => write_file output_file merged w
           | inr stderr => (w, inl (FfmpegError stderr))
           end.

Definition combined_name (feed_id date_str : string) : string :=
  "combined_" +:+ feed_id +:+ "_" +:+ date_str +:+ ".mp3".

(** The list comprehension of line 280, sorted. *)
Definition select_inputs (found : list string) : list string :=
  merge_sort String.le
    (filter (fun f => Text.startswith (basename f) "combined_" = false) found).

(** The [try] block, lines 296-316. *)
Definition try_block (mp3_files : list string) (directory output_file name : string)
    : M unit :=
  let* _ := ffmpeg_run temp_file_name output_file in
  let* _ := print ("Combined MP3 saved to: " +:+ output_file) in
  let* _ := for_each mp3_files os_remove in
  let* _ := print "Removed individual MP3 files." in
  let feed_directory := dirname directory in
  let destination_file := path_join feed_directory name in
  let* _ := copy2 output_file destination_file in
  print ("Copied combined MP3 to: " +:+ destination_file).

(** [combine_mp3_files], lines 271-322. *)
Definition combine_mp3_files (directory feed_id date : string) : M unit :=
  match ffmpeg_path with
  | None =>
      print "[red]Error:[/red] FFmpeg not found. Please install FFmpeg and add it to your system PATH."
  | Some _ =>
      match strptime date with
      | None => raise ValueError
      | Some date_obj =>
          let date_str := strftime_compact date_obj in
          let* found := glob_mp3 directory in
          let mp3_files := select_inputs found in
          let* _ := print ("Found " +:+ pretty (length mp3_files) +:+ " MP3 files to combine.") in
          match mp3_files with
          | [] => print "[yellow]Warning:[/yellow] No MP3 files found to combine."
          | _ :: _ =>
              let output_file := directory +:+ "/" +:+ combined_name feed_id date_str in
              let* _ := write_file temp_file_name (list_file_text mp3_files) in
              try_except_finally
                (try_block mp3_files directory output_file (combined_name feed_id date_str))
                (fun stderr =>
                   print ("[red]Error:[/red] FFmpeg encountered an error: " +:+ stderr))
                (os_remove temp_file_name)
          end
      end
  end.

End Combine.

(** *** Vocabulary of the statements about the concatenator *)




Definition example_encoder (fs : gmap string string) (list_file : string)
    : string + string :=
  match fs !! list_file with
  | Some text => inl text
  | None => inr "no list"
  end.



End Concat.

(** ** The fetch pool: the executor block of [download_archive_by_date] and
    [download_mp3] *)
Module FetchPool.
Import Calendar.

(** What the loop reads of a [requests] response. *)
Record Response := {
  status_code : Z;
  url : string;
  content : string;
  text : string
}.

(** The outcome of [requests.get]: a response, or an exception of the
    transport. *)
Inductive fetch_result :=
| Responded (r : Response)
| ConnectionFailed.

Inductive exn :=
| ValueError
| RequestException.

(** Files by path, the console, and the requests sent so far. *)
Record world := {
  files : gmap string string;
  console : list string;
  requests : list string
}.

Definition base_download_url : string :=
  "https://www.broadcastify.com/archives/downloadv2".

Section Pool.

(** The archive server: what a GET of a URL gives. *)
Variable respond : string -> fetch_result.

(** The order in which the pool's workers take up and finish the submitted
    tasks.  The executor runs every submitted task exactly once; which
    interleavings can occur depends on the number of workers, and none is
    excluded here. *)
Variable completion_order : list string -> list string.

(** [download_mp3], lines 158-182: the world after the call, and the
    exception that ended it if one did. *)
Definition download_mp3 (request_url output_dir : string) (w : world)
    : world * option exn :=
  let w1 := {| files := files w; console := console w;
               requests := requests w ++ [request_url] |} in
  match respond request_url with
  | ConnectionFailed => (w1, Some RequestException)
  | Responded response =>
      let file_name := Concat.basename (url response) in
      let output_path := Concat.path_join output_dir file_name in
      if (status_code response =? 200)%Z then
        ({| files := <[output_path := content response]> (files w1);
            console := console w1; requests := requests w1 |}, None)
      else
        ({| files := files w1;
            console := console w1 ++ ["Failed to download mp3"; text response];
            requests := requests w1 |}, None)
  end.

(** The submitted tasks, run to completion one after the other in the order
    of completion.  An exception raised by a task is kept in its future,
    which the loop over [as_completed] never asks for its result: it ends
    that task only. *)
Fixpoint run_tasks (urls : list string) (output_dir : string) (w : world) : world :=
  match urls with
  | [] => w
  | u :: rest => run_tasks rest output_dir (download_mp3 u output_dir w).1
  end.

Definition archive_url (feed_id url_date id : string) : string :=
  base_download_url +:+ "/" +:+ feed_id +:+ "/" +:+ url_date +:+ "/" +:+ id.

(** The [with ThreadPoolExecutor(max_workers=jobs)] block, lines 139-148.
    The executor refuses a number of workers below one with [ValueError],
    before anything is submitted. *)
Definition fetch_pool (jobs : Z) (feed_id : string) (date_obj : datetime)
    (output_dir : string) (archive_ids : list string) (w : world)
    : world * option exn :=
  if (jobs <=? 0)%Z then (w, Some ValueError)
  else
    let url_date := Concat.strftime_compact date_obj in
    let current_output_dir := output_dir +:+ "/" +:+ feed_id +:+ "/" +:+ url_date in
    let urls := archive_url feed_id url_date <$> archive_ids in
    (run_tasks (completion_order urls) current_output_dir w, None).

End Pool.

(** *** Vocabulary of the statements about the pool *)

(** Where a fetch of [u] is stored when it succeeds. *)
Definition target (respond : string -> fetch_result) (output_dir u : string)
    : option (string * string) :=
  match respond u with
  | Responded r =>
      if (status_code r =? 200)%Z
      then Some (Concat.path_join output_dir (Concat.basename (url r)), content r)
      else None
  | ConnectionFailed => None
  end.

(** The lines a failed fetch of [u] prints. *)
Definition failure_log (respond : string -> fetch_result) (u : string) : list string :=
  match respond u with
  | Responded r =>
      if (status_code r =? 200)%Z then [] else ["Failed to download mp3"; text r]
  | ConnectionFailed => []
  end.

(** A server for the examples: it serves every URL but those that end in
    [bad], which it answers with status 404. *)
Definition example_server (u : string) : fetch_result :=
  if Text.endswith u "bad"
  then Responded {| status_code := 404; url := u; content := ""; text := "not found" |}
  else Responded {| status_code := 200; url := u +:+ ".mp3"; content := "audio"; text := "" |}.

Definition empty_world : world := {| files := ∅; console := []; requests := [] |}.

Definition example_date : datetime :=
  {| year := 2024; month := 3; day := 2; time_of_day := 0 |}.

End FetchPool.

(** ** More of Python's [str]: [split] and [replace] *)
Module Words.

(** [s.split(sep)] for a separator of one character: the pieces between the
    occurrences of the separator, empty pieces included; always at least one
    piece. *)
Fixpoint split_on (sep : ascii) (s : string) : list string :=
  match s with
  | "" => [""]
  | String c s' =>
      if Ascii.eqb c sep then "" :: split_on sep s'
      else match split_on sep s' with
           | piece :: rest => String c piece :: rest
           | [] => [String c ""]
           end
  end.

(** [s.replace(old, "")] for an [old] of one character: every occurrence is
    dropped. *)
Fixpoint remove_char (old : ascii) (s : string) : string :=
  match s with
  | "" => ""
  | String c s' =>
      if Ascii.eqb c old then remove_char old s' else String c (remove_char old s')
  end.

Fixpoint count_char (c : ascii) (s : string) : nat :=
  match s with
  | "" => 0
  | String a s' => (if Ascii.eqb a c then 1 else 0) + count_char c s'
  end.

End Words.

(** ** The command [download] and the drivers it starts, with what they
    print and the calls they make *)
Module Command.
Import Calendar.

(** What a run does that can be seen from outside, in order: a line handed
    to [print] or [console.print], a call of [download_archive_by_date] for a
    date, a call of [transcribe_audio] for a directory.  The other arguments
    of the two callees are the options of the command, the same in every
    call; [download_archive_by_date] does not read its [transcribe], [gpu]
    and [model_size] arguments (lines 153-155 are comments). *)
Inductive event :=
| Say (line : string)
| Archive (date : string)
| Transcribe (directory : string).

#[global] Instance event_eq_dec : EqDecision event.
Proof. solve_decision. Defined.

Inductive exn := ValueError | OverflowError | CallFailed.

(** How a run ends: it returns, it calls [exit(code)], or an exception
    leaves it. *)
Inductive ending :=
| Returns
| Exits (code : Z)
| Raises (e : exn).

Record run := {
  trace : list event;
  result : ending
}.

Definition of_status (st : Driver.status) : ending :=
  match st with
  | Driver.Returned => Returns
  | Driver.Exited code => Exits code
  | Driver.Raised Driver.ValueError => Raises ValueError
  | Driver.Raised Driver.OverflowError => Raises OverflowError
  end.

(** The options of the command, as [click] hands them over; an option that
    was not given is [None]. *)
Record options := {
  feed_id : string;
  date : option string;
  range : option string;
  past_days : option Z;
  combine : bool;
  transcribe : bool;
  gpu : bool;
  jobs : Z;
  model_size : string;
  output_dir : string
}.

(** The truth value of an optional string and of an optional integer in an
    [if]: [None], the empty string and zero are false. *)
Definition given_str (o : option string) : option string :=
  match o with
  | Some s => if decide (s = "") then None else Some s
  | None => None
  end.

Definition given_int (o : option Z) : option Z :=
  match o with
  | Some n => if decide (n = 0%Z) then None else Some n
  | None => None
  end.

Section Calls.

(** Whether the call that ends the log returns; it raises otherwise.  What
    the callees do is the matter of their own models. *)
Variable returns : list event -> bool.

(** [for date in dates: download_archive_by_date(...)], lines 110-111 and
    123-124. *)
Fixpoint for_dates (dates : list string) (log : list event) : run :=
  match dates with
  | [] => {| trace := log; result := Returns |}
  | date :: rest =>
      let log' := log ++ [Archive date] in
      if returns log' then for_dates rest log'
      else {| trace := log'; result := Raises CallFailed |}
  end.

(** [download_archives_by_range], lines 88-111, continuing the log. *)
Definition download_archives_by_range (fuel : nat) (now : datetime)
    (start_date end_date : string) (log : list event) : option run :=
  let today := strftime now in
  if Driver.str_gt start_date today || Driver.str_gt end_date today then
    Some {| trace := log ++ [Say "[red]Error:[/red] Invalid date range, start date and end date must be before today"];
            result := Exits 1 |}
  else if Driver.str_gt start_date end_date then
    Some {| trace := log ++ [Say "[red]Error:[/red] Invalid date range, start date must be before end date"];
            result := Exits 1 |}
  else
    match strptime start_date with
    | None => Some {| trace := log; result := Raises ValueError |}
    | Some start_dt =>
        match strptime end_date with
        | None => Some {| trace := log; result := Raises ValueError |}
        | Some end_dt =>
            match Driver.range_loop fuel start_dt end_dt [] with
            | None => None
            | Some (dates, Driver.Returned) => Some (for_dates dates log)
            | Some (_, st) => Some {| trace := log; result := of_status st |}
            end
        end
    end.

(** The loop of lines 119-121. *)
Fixpoint all_loop (fuel : nat) (current_date start_date : datetime) (dates : list string)
    : option (option (list string)) :=
  match fuel with
  | O => None
  | S fuel' =>
      if dt_leb start_date current_date then
        let dates' := dates ++ [strftime current_date] in
        match prev_day current_date with
        | Some current_date' => all_loop fuel' current_date' start_date dates'
        | None => Some None
        end
      else Some (Some dates)
  end.

(** [download_all_archives], lines 114-124; [days] has the default 365 in
    the only call. *)
Definition download_all_archives (fuel : nat) (now : datetime) (days : Z)
    (log : list event) : option run :=
  let current_date := now in
  match sub_days current_date days with
  | None => Some {| trace := log; result := Raises OverflowError |}
  | Some start_date =>
      match all_loop fuel current_date start_date [] with
      | None => None
      | Some None => Some {| trace := log; result := Raises OverflowError |}
      | Some (Some dates) => Some (for_dates dates log)
      end
  end.

(** The loop of lines 434-445. *)
Fixpoint past_loop (fuel : nat) (o : options) (current_date start_date : datetime)
    (directories_to_transcribe : list string) (log : list event)
    : option (list string * run) :=
  match fuel with
  | O => None
  | S fuel' =>
      if dt_leb start_date current_date then
        let date_str := strftime current_date in
        let date_dir_name := Concat.strftime_compact current_date in
        let log1 := log ++ [Say ("Downloading archives for " +:+ date_str)] in
        let current_output_dir :=
          output_dir o +:+ "/" +:+ feed_id o +:+ "/" +:+ date_dir_name in
        let log2 := log1 ++ [Archive date_str] in
        if returns log2 then
          let directories :=
            if transcribe o then directories_to_transcribe ++ [current_output_dir]
            else directories_to_transcribe in
          match prev_day current_date with
          | Some current_date' => past_loop fuel' o current_date' start_date directories log2
          | None => Some (directories, {| trace := log2; result := Raises OverflowError |})
          end
        else Some (directories_to_transcribe, {| trace := log2; result := Raises CallFailed |})
      else Some (directories_to_transcribe, {| trace := log; result := Returns |})
  end.

(** The loop of lines 450-452. *)
Fixpoint transcribe_all (directories : list string) (log : list event) : run :=
  match directories with
  | [] => {| trace := log; result := Returns |}
  | directory :: rest =>
      let log1 := log ++ [Say ("Transcribing audio in " +:+ directory)] in
      let log2 := log1 ++ [Transcribe directory] in
      if returns log2 then transcribe_all rest log2
      else {| trace := log2; result := Raises CallFailed |}
  end.

(** [download_past_n_days], lines 427-454. *)
Definition download_past_n_days (fuel : nat) (now : datetime) (o : options)
    (past_days : Z) (log : list event) : option run :=
  let end_date := now in
  match sub_days end_date past_days with
  | None => Some {| trace := log; result := Raises OverflowError |}
  | Some start_date =>
      match past_loop fuel o end_date start_date [] log with
      | None => None
      | Some (directories, r) =>
          match result r with
          | Returns =>
              let log1 := trace r ++
                [Say ("Download complete for the past " +:+ pretty past_days +:+ " days: "
                      +:+ output_dir o +:+ "/" +:+ feed_id o)] in
              let r2 := if transcribe o then transcribe_all directories log1
                        else {| trace := log1; result := Returns |} in
              match result r2 with
              | Returns => Some {| trace := trace r2 ++ [Say "All operations completed."];
                                   result := Returns |}
              | _ => Some r2
              end
          | _ => Some r
          end
      end
  end.

(** What follows a driver that returned: the lines printed after it. *)
Definition and_then (r : option run) (lines : list string) : option run :=
  match r with
  | Some r' =>
      match result r' with
      | Returns => Some {| trace := trace r' ++ (Say <$> lines); result := Returns |}
      | _ => Some r'
      end
  | None => None
  end.

(** The command [download], lines 52-77, from the value [get_login_cookie]
    returned; [now] is the clock. *)
Definition download (fuel : nat) (now : datetime) (login_cookie : option string)
    (o : options) : option run :=
  match login_cookie with
  | None => Some {| trace := [Say "Failed to get login cookie"]; result := Returns |}
  | Some _ =>
      let complete := "Download complete: " +:+ output_dir o +:+ "/" +:+ feed_id o in
      match given_str (date o), given_str (range o), given_int (past_days o) with
      | Some d, _, _ =>
          let log := [Say ("Downloading archives for feed id: " +:+ feed_id o +:+ " on " +:+ d);
                      Archive d] in
          if returns log then
            Some {| trace := log ++ [Say (complete +:+ "/" +:+ Words.remove_char "/" d);
                                     Say complete];
                    result := Returns |}
          else Some {| trace := log; result := Raises CallFailed |}
      | None, Some r, _ =>
          match Words.split_on "-" r with
          | [start_date; end_date] =>
              let log := [Say ("Downloading archives for feed id: " +:+ feed_id o +:+ " from "
                               +:+ start_date +:+ " to " +:+ end_date)] in
              and_then (download_archives_by_range fuel now start_date end_date log)
                [complete; complete]
          | _ => Some {| trace := []; result := Raises ValueError |}
          end
      | None, None, Some n =>
          let log := [Say ("Downloading archives for feed id: " +:+ feed_id o
                           +:+ " from the past " +:+ pretty n +:+ " days")] in
          and_then (download_past_n_days fuel now o n log) [complete]
      | None, None, None =>
          let log := [Say ("Downloading all archives for feed id: " +:+ feed_id o)] in
          and_then (download_all_archives fuel now 365 log) [complete]
      end
  end.

End Calls.

(** *** Vocabulary of the statements about the command *)

(** The per-date directory of a date, [f"{output_dir}/{feed_id}/{date_dir_name}"]. *)
Definition date_directory (o : options) (d : datetime) : string :=
  output_dir o +:+ "/" +:+ feed_id o +:+ "/" +:+ Concat.strftime_compact d.

(** What one iteration of the trailing-days loop shows, and what one
    iteration of the transcription loop shows. *)
Definition download_events (d : datetime) : list event :=
  [Say ("Downloading archives for " +:+ strftime d); Archive (strftime d)].

Definition transcribe_events (o : options) (d : datetime) : list event :=
  [Say ("Transcribing audio in " +:+ date_directory o d); Transcribe (date_directory o d)].

(** The dates of the calls of [download_archive_by_date] in a trace, and the
    directories of the calls of [transcribe_audio]. *)
Definition archived (tr : list event) : list string :=
  omap (fun e => match e with Archive d => Some d | _ => None end) tr.

Definition transcribed (tr : list event) : list string :=
  omap (fun e => match e with Transcribe d => Some d | _ => None end) tr.

(** The options with the [--transcribe] flag set or cleared. *)
Definition with_transcribe (b : bool) (o : options) : options :=
  {| feed_id := feed_id o; date := date o; range := range o; past_days := past_days o;
     combine := combine o; transcribe := b; gpu := gpu o; jobs := jobs o;
     model_size := model_size o; output_dir := output_dir o |}.

Definition with_date (d : string) (o : options) : options :=
  {| feed_id := feed_id o; date := Some d; range := range o; past_days := past_days o;
     combine := combine o; transcribe := transcribe o; gpu := gpu o; jobs := jobs o;
     model_size := model_size o; output_dir := output_dir o |}.

Definition with_range (r : string) (o : options) : options :=
  {| feed_id := feed_id o; date := date o; range := Some r; past_days := past_days o;
     combine := combine o; transcribe := transcribe o; gpu := gpu o; jobs := jobs o;
     model_size := model_size o; output_dir := output_dir o |}.

Definition with_past_days (n : Z) (o : options) : options :=
  {| feed_id := feed_id o; date := date o; range := range o; past_days := Some n;
     combine := combine o; transcribe := transcribe o; gpu := gpu o; jobs := jobs o;
     model_size := model_size o; output_dir := output_dir o |}.

(** Options for the examples: feed 7, written under [out]. *)
Definition example_options : options :=
  {| feed_id := "7"; date := None; range := None; past_days := None;
     combine := false; transcribe := true; gpu := false; jobs := 2;
     model_size := "tiny"; output_dir := "out" |}.

Definition example_now : datetime :=
  {| year := 2024; month := 3; day := 2; time_of_day := 52200000000 |}.

(** A downloader that raises on one date and returns on the others. *)
Definition fails_on (date : string) (log : list event) : bool :=
  negb (bool_decide (last log = Some (Archive date))).

(** Callees that always return. *)
Definition all_return (log : list event) : bool := true.

(** The date of a [datetime], at midnight. *)
Definition midnight (d : datetime) : datetime :=
  {| year := year d; month := month d; day := day d; time_of_day := 0 |}.

End Command.

(** ** One date: [get_archive_ids] and [download_archive_by_date] *)
Module Archive.
Import Calendar FetchPool.

Inductive exn :=
| ValueError
| ListingFailed
| RequestFailed
| CombineFailed (e : Concat.exn).

Definition of_pool_exn (e : FetchPool.exn) : exn :=
  match e with
  | FetchPool.ValueError => ValueError
  | FetchPool.RequestException => RequestFailed
  end.

Definition base_url : string := "https://www.broadcastify.com/archives/ajax.php".

(** [d.strftime("%m/%d/%Y")]. *)
Definition strftime_mdy (d : datetime) : string :=
  Text.fmt_02d (Z.to_N (month d)) +:+ "/" +:+ Text.fmt_02d (Z.to_N (day d))
    +:+ "/" +:+ Text.fmt_04d (Z.to_N (year d)).

(** [full_url] of lines 188-190. *)
Definition listing_url (feedId : string) (d : datetime) : string :=
  base_url +:+ "?" +:+ "feedId=" +:+ feedId +:+ "&date=" +:+ strftime_mdy d.

(** A statement of the concatenator run on the files and the console of
    this world; it sends no request. *)
Definition run_combine (m : Concat.M unit) (w : world) : world * option exn :=
  match m {| Concat.files := files w; Concat.console := console w |} with
  | (cw, r) =>
      ({| files := Concat.files cw; console := Concat.console cw; requests := requests w |},
       match r with
       | inl e => Some (CombineFailed e)
       | inr _ => None
       end)
  end.

Section Date.

(** What lines 194-196 obtain for the listing URL: the identifiers
    [i[0]] of the rows of the answer's [data], as texts, or [None] when the
    request, the decoding of the answer or the extraction raises. *)
Variable list_archives : string -> option (list string).

(** The archive server and the order of completion, as for the fetch pool;
    the encoder, as for the concatenator.  The user agent and the login
    cookie go into the headers of the requests and are part of what the
    server answers. *)
Variable respond : string -> fetch_result.
Variable completion_order : list string -> list string.
Variable ffmpeg_path : option string.
Variable ffmpeg_concat : gmap string string -> string -> string + string.
Variable temp_file_name : string.

(** [get_archive_ids], lines 185-198. *)
Definition get_archive_ids (feedId date : string) (w : world)
    : world * (exn + list string) :=
  match strptime date with
  | None => (w, inl ValueError)
  | Some d =>
      let full_url := listing_url feedId d in
      let w1 := {| files := files w; console := console w;
                   requests := requests w ++ [full_url] |} in
      match list_archives full_url with
      | Some file_names => (w1, inr file_names)
      | None => (w1, inl ListingFailed)
      end
  end.

(** [download_archive_by_date], lines 127-151.  The file system is the map
    of the regular files; the two [os.makedirs] change none of them and are
    taken to succeed.  The arguments [transcribe], [gpu] and [model_size]
    are not read. *)
Definition download_archive_by_date (feed_id date output_dir : string)
    (combine : bool) (jobs : Z) (w : world) : world * option exn :=
  match get_archive_ids feed_id date w with
  | (w1, inl e) => (w1, Some e)
  | (w1, inr archive_ids) =>
      match strptime date with
      | None => (w1, Some ValueError)
      | Some date_obj =>
          let date_dir_name := Concat.strftime_compact date_obj in
          match fetch_pool respond completion_order jobs feed_id date_obj output_dir
                  archive_ids w1 with
          | (w2, Some e) => (w2, Some (of_pool_exn e))
          | (w2, None) =>
              if combine then
                run_combine
                  (Concat.combine_mp3_files ffmpeg_path ffmpeg_concat temp_file_name
                     (output_dir +:+ "/" +:+ feed_id +:+ "/" +:+ date_dir_name) feed_id date)
                  w2
              else (w2, None)
          end
      end
  end.

End Date.

(** *** Vocabulary of the statements about one date *)

(** A path directly inside a directory. *)
Definition inside (directory p : string) : Prop :=
  exists name, p = directory +:+ "/" +:+ name /\ Concat.has_slash name = false.


(** The listing of the examples: three segments, the second of which the
    example server refuses. *)
Definition example_listing (u : string) : option (list string) :=
  Some ["1"; "2bad"; "3"].

End Archive.

(** ** Logging in: [get_login_cookie] *)
Module Login.

(** What [cookies.json] holds: the JSON object it encodes, with texts as
    values, as [json.dump] writes it and [json.load] reads it back; or
    something [json.load] or the subscript [cookies['bcfyuser1']] raises
    on. *)
Inductive cookie_file :=
| Object (cookies : gmap string string)
| Unreadable.

(** The file [cookies.json] if it exists, the console, and the login
    requests sent, each with the [USERNAME] and [PASSWORD] of the
    environment. *)
Record world := {
  cookies_json : option cookie_file;
  console : list string;
  posts : list (option string * option string)
}.

(** What the function reads of the answer to the login request. *)
Record Response := {
  status_code : Z;
  set_cookie : option string
}.

Inductive post_result :=
| Answered (r : Response)
| Failed.

Inductive exn := KeyError | BadCookieFile | RequestException.

Inductive outcome :=
| Returns (v : option string)
| Exits (code : Z)
| Raises (e : exn).

(** The longest run of characters other than [;] at the start of a text:
    what [[^;]+] takes, when it is not empty. *)
Fixpoint value_run (s : string) : string :=
  match s with
  | "" => ""
  | String c s' => if Ascii.eqb c ";" then "" else String c (value_run s')
  end.

(** The match of the pattern at the start of the text, if there is one. *)
Definition match_here (s : string) : option string :=
  match Concat.strip_prefix "bcfyuser1=" s with
  | Some rest => if decide (value_run rest = "") then None else Some (value_run rest)
  | None => None
  end.

(** [re.search(r"bcfyuser1=([^;]+)", s)], as [group(1)] of the match: the
    leftmost position where the pattern matches. *)
Fixpoint search_cookie (s : string) : option string :=
  match match_here s with
  | Some v => Some v
  | None => match s with
            | "" => None
            | String _ s' => search_cookie s'
            end
  end.

Section Login.

(** The environment and the login server. *)
Variable username password : option string.
Variable post_login : option string -> option string -> post_result.

(** [get_login_cookie], lines 215-268. *)
Definition get_login_cookie (w : world) : world * outcome :=
  match cookies_json w with
  | Some (Object cookies) =>
      match cookies !! "bcfyuser1" with
      | Some v => (w, Returns (Some ("bcfyuser1=" +:+ v)))
      | None => (w, Raises KeyError)
      end
  | Some Unreadable => (w, Raises BadCookieFile)
  | None =>
      let w1 := {| cookies_json := cookies_json w; console := console w;
                   posts := posts w ++ [(username, password)] |} in
      match post_login username password with
      | Failed => (w1, Raises RequestException)
      | Answered response =>
          if (status_code response =? 302)%Z then
            match Command.given_str (set_cookie response) with
            | Some cookies =>
                match search_cookie cookies with
                | Some bcfyuser1 =>
                    ({| cookies_json := Some (Object {[ "bcfyuser1" := bcfyuser1 ]});
                        console := console w1; posts := posts w1 |},
                     Returns (Some bcfyuser1))
                | None => (w1, Returns None)
                end
            | None =>
                ({| cookies_json := cookies_json w1;
                    console := console w1 ++ ["No cookies found"];
                    posts := posts w1 |}, Exits 1)
            end
          else (w1, Returns None)
      end
  end.

End Login.

(** *** Vocabulary of the statements about the login *)

Fixpoint has_semicolon (s : string) : bool :=
  match s with
  | "" => false
  | String c s' => Ascii.eqb c ";" || has_semicolon s'
  end.

Definition no_login : world := {| cookies_json := None; console := []; posts := [] |}.

(** A login server that accepts everybody and sets two cookies. *)
Definition example_login (username password : option string) : post_result :=
  Answered {| status_code := 302;
              set_cookie := Some "PHPSESSID=q1; path=/, bcfyuser1=ab%3D12; expires=Thu; path=/" |}.

End Login.

(** ** The whole of [transcribe_audio] *)
Module Transcription.
Import Fusion Concat.

(** [name.rfind('.')]: the place of the last dot, if there is one. *)
Fixpoint rfind_dot (name : string) : option nat :=
  match name with
  | "" => None
  | String c name' =>
      match rfind_dot name' with
      | Some i => Some (S i)
      | None => if Ascii.eqb c "." then Some 0 else None
      end
  end.

(** [Path(p).stem] from the final component of the path: the name up to its
    last dot, when that dot is neither the first nor the last character.  On
    the names [glob] returns for [*.mp3] every version of [pathlib] agrees
    with this. *)
Definition stem (name : string) : string :=
  match rfind_dot name with
  | Some i =>
      if (0 <? i) && (i <? String.length name - 1) then String.substring 0 i name
      else name
  | None => name
  end.

Section Models.

(** The two models and the serializer, which are not part of the
    repository: the diarization of an audio file as the list of its
    segments, the transcription of an audio file by a model of a given size
    on a given device, and [json.dump] of the transcript object with
    [indent=4].  The models are taken to be functions of the audio they are
    given and to answer; what they raise is not followed. *)
Variable diarization_pipeline : string -> list DiarizationSegment.
Variable whisper_transcribe : string -> string -> string -> string -> list TranscriptionSegment.
Variable json_dump : string -> list Entry -> string.

(** The body of the loop over the audio files, lines 344-424. *)
Definition transcribe_file (transcript_dir model_size device compute_type : string)
    (audio_file : string) : M unit :=
  fun w =>
    match files w !! audio_file with
    | None => (w, inl FileNotFoundError)
    | Some audio =>
        let diarization_segments := diarization_pipeline audio in
        let segments := whisper_transcribe model_size device compute_type audio in
        let transcript_json_path :=
          transcript_dir +:+ "/" +:+ stem (basename audio_file) +:+ ".json" in
        let transcript_txt_path :=
          transcript_dir +:+ "/" +:+ stem (basename audio_file) +:+ ".txt" in
        let st := run segments diarization_segments in
        (let* _ := write_file transcript_json_path
                     (json_dump (json_text st) (json_segments st)) in
         write_file transcript_txt_path (output_txt st)) w
    end.

(** [transcribe_audio], lines 325-424.  The directory of the transcripts is
    made by [os.makedirs], which changes no regular file and is taken to
    succeed. *)
Definition transcribe_audio (directory : string) (use_gpu : bool) (model_size : string)
    : M unit :=
  let transcript_dir := directory +:+ "/transcripts" in
  let* found := glob_mp3 directory in
  let mp3_files := merge_sort String.le found in
  let device := if use_gpu then "cuda" else "cpu" in
  let compute_type := if use_gpu then "float16" else "int8" in
  for_each mp3_files (transcribe_file transcript_dir model_size device compute_type).

(** *** Vocabulary of the statements about the transcription *)

(** The state of the fusion loop at its end, for an audio content. *)
Definition fused (use_gpu : bool) (model_size audio : string) : state :=
  run (whisper_transcribe model_size (if use_gpu then "cuda" else "cpu")
         (if use_gpu then "float16" else "int8") audio)
      (diarization_pipeline audio).

Definition json_of (use_gpu : bool) (model_size audio : string) : string :=
  json_dump (json_text (fused use_gpu model_size audio))
    (json_segments (fused use_gpu model_size audio)).

Definition txt_of (use_gpu : bool) (model_size audio : string) : string :=
  output_txt (fused use_gpu model_size audio).

End Models.

Fixpoint has_dot (s : string) : bool :=
  match s with
  | "" => false
  | String c s' => Ascii.eqb c "." || has_dot s'
  end.

(** The two transcripts of an audio file of a directory. *)
Definition json_path (directory audio_file : string) : string :=
  (directory +:+ "/transcripts") +:+ "/" +:+ stem (basename audio_file) +:+ ".json".

Definition txt_path (directory audio_file : string) : string :=
  (directory +:+ "/transcripts") +:+ "/" +:+ stem (basename audio_file) +:+ ".txt".

(** A path that is a transcript of some audio file of the directory. *)
Definition is_transcript (directory : string) (fs : gmap string string) (q : string) : Prop :=
  exists p, is_Some (fs !! p) /\ glob_match directory p = true
            /\ (q = json_path directory p \/ q = txt_path directory p).




End Transcription.


(** * Proofs *)

(** ** Decimal digits and padding *)
Module TextFacts.
Import Text.

Lemma string_app_cons (x : Ascii.ascii) (a b : string) :
  String x a +:+ b = String x (a +:+ b).
Proof. reflexivity. Qed.

Lemma string_app_nil_l (a : string) : "" +:+ a = a.
Proof. reflexivity. Qed.

Lemma string_app_assoc (a b c : string) : (a +:+ b) +:+ c = a +:+ (b +:+ c).
Proof.
  induction a as [|x a IH]; [done|].
  by rewrite !string_app_cons, IH.
Qed.

Lemma string_app_nil_r (a : string) : a +:+ "" = a.
Proof.
  induction a as [|x a IH]; [done|].
  by rewrite string_app_cons, IH.
Qed.

Lemma string_length_app (a b : string) :
  String.length (a +:+ b) = String.length a + String.length b.
Proof.
  induction a as [|x a IH]; [done|].
  rewrite string_app_cons. simpl. by rewrite IH.
Qed.

Lemma pretty_N_go_acc (x : N) (s : string) :
  pretty_N_go x s = pretty_N_go x "" +:+ s.
Proof.
  revert s. induction (N.lt_wf_0 x) as [x _ IH]; intros s.
  destruct (decide (x = 0%N)) as [->|Hx].
  - by rewrite !pretty_N_go_0.
  - rewrite !(pretty_N_go_step x) by lia.
    assert (Hlt : (x `div` 10 < x)%N) by (apply N.div_lt; lia).
    rewrite (IH _ Hlt (String _ s)), (IH _ Hlt (String _ "")).
    by rewrite string_app_assoc.
Qed.

Lemma pretty_N_digit (n : N) :
  (n < 10)%N -> pretty n = String (pretty_N_char n) "".
Proof.
  intros Hn. unfold pretty, pretty_N. case_decide as H0; [by subst|].
  rewrite pretty_N_go_step by lia.
  rewrite N.div_small, N.mod_small by done. by rewrite pretty_N_go_0.
Qed.

Lemma pretty_N_snoc (n : N) :
  (10 <= n)%N ->
  pretty n = pretty (n `div` 10)%N +:+ String (pretty_N_char (n `mod` 10)) "".
Proof.
  intros Hn. unfold pretty, pretty_N.
  assert (0 < n `div` 10)%N by (apply N.div_str_pos; lia).
  rewrite !decide_False by lia.
  rewrite pretty_N_go_step by lia. by rewrite pretty_N_go_acc.
Qed.

Lemma pretty_N_length_big (n : N) : (10 <= n)%N -> 2 <= String.length (pretty n).
Proof.
  intros Hn. rewrite pretty_N_snoc, string_length_app by done. simpl.
  destruct (decide (n `div` 10 < 10)%N) as [Hs|Hs].
  - rewrite pretty_N_digit by done. simpl. lia.
  - rewrite pretty_N_snoc, string_length_app by lia. simpl. lia.
Qed.

(** The leading digit of a positive number is not a zero. *)
Lemma pretty_N_head (n : N) :
  (0 < n)%N -> exists c s, pretty n = String c s /\ c <> "0"%char.
Proof.
  induction (N.lt_wf_0 n) as [n _ IH]; intros Hn.
  destruct (decide (n < 10)%N) as [Hs|Hs].
  - rewrite pretty_N_digit by done. eexists _, _; split; [done|].
    assert (n = 1 \/ n = 2 \/ n = 3 \/ n = 4 \/ n = 5 \/ n = 6
            \/ n = 7 \/ n = 8 \/ n = 9)%N as Hc by lia.
    repeat (destruct Hc as [->|Hc]; [done|]). by subst.
  - rewrite pretty_N_snoc by lia.
    destruct (IH (n `div` 10)%N) as (c & s & -> & Hc).
    + apply N.div_lt; lia.
    + apply N.div_str_pos; lia.
    + eexists _, _; split; [done|done].
Qed.

Lemma zfill_id (w : nat) (s : string) : w <= String.length s -> zfill w s = s.
Proof. intros H. unfold zfill. by replace (w - String.length s) with 0 by lia. Qed.

Lemma fmt_02d_small (n : N) : (n < 10)%N -> fmt_02d n = String "0" (pretty n).
Proof. intros Hn. unfold fmt_02d, zfill. by rewrite pretty_N_digit. Qed.

Lemma fmt_02d_big (n : N) : (10 <= n)%N -> fmt_02d n = pretty n.
Proof. intros Hn. apply zfill_id. by apply pretty_N_length_big. Qed.

Lemma fmt_02d_inj (n m : N) : fmt_02d n = fmt_02d m -> n = m.
Proof.
  destruct (decide (n < 10)%N) as [Hn|Hn], (decide (m < 10)%N) as [Hm|Hm];
    rewrite ?(fmt_02d_small n), ?(fmt_02d_small m),
            ?(fmt_02d_big n), ?(fmt_02d_big m) by lia; intros Heq.
  - injection Heq as Heq. by apply (inj pretty).
  - destruct (pretty_N_head m) as (c & s & Hp & Hc); [lia|].
    rewrite Hp in Heq. by injection Heq as <- _.
  - destruct (pretty_N_head n) as (c & s & Hp & Hc); [lia|].
    rewrite Hp in Heq. by injection Heq as -> _.
  - by apply (inj pretty).
Qed.

Lemma rev_app_spec (a b : string) : String.rev_app a b = String.rev a +:+ b.
Proof.
  revert b. induction a as [|x a IH]; intros b; [done|].
  unfold String.rev. simpl. rewrite (IH (String x b)), (IH (String x "")).
  by rewrite string_app_assoc.
Qed.

Lemma rev_cons (x : ascii) (a : string) : String.rev (String x a) = String.rev a +:+ String x "".
Proof. unfold String.rev at 1. simpl. by rewrite rev_app_spec. Qed.

Lemma rev_app_distr (a b : string) : String.rev (a +:+ b) = String.rev b +:+ String.rev a.
Proof.
  induction a as [|x a IH].
  - by rewrite string_app_nil_l, string_app_nil_r.
  - by rewrite string_app_cons, !rev_cons, IH, string_app_assoc.
Qed.

Lemma rev_involutive (a : string) : String.rev (String.rev a) = a.
Proof.
  induction a as [|x a IH]; [done|].
  by rewrite rev_cons, rev_app_distr, IH.
Qed.

Lemma prefix_spec (p s : string) : String.prefix p s = true <-> exists b, s = p +:+ b.
Proof.
  revert s. induction p as [|x p IH]; intros s.
  - destruct s; simpl; split; eauto.
  - destruct s as [|y s]; simpl.
    + split; [done|]. by intros [b Hb].
    + destruct (ascii_dec x y) as [->|Hne].
      * rewrite IH. split; intros [b Hb]; exists b.
        -- by rewrite string_app_cons, Hb.
        -- rewrite string_app_cons in Hb. by injection Hb.
      * split; [done|]. intros [b Hb]. rewrite string_app_cons in Hb. by injection Hb.
Qed.

Lemma endswith_spec (s p : string) : endswith s p = true <-> exists a, s = a +:+ p.
Proof.
  unfold endswith. rewrite prefix_spec. split.
  - intros [b Hb]. exists (String.rev b).
    by rewrite <-(rev_involutive s), Hb, rev_app_distr, rev_involutive.
  - intros [a ->]. exists (String.rev a). by rewrite rev_app_distr.
Qed.

Lemma startswith_spec (s p : string) : startswith s p = true <-> exists b, s = p +:+ b.
Proof. apply prefix_spec. Qed.

End TextFacts.

(** ** The fusion loop *)
Module FusionFacts.
Import Text Fusion TextFacts.

Lemma Qltb_iff (x y : Q) : Qltb x y = true <-> (x < y)%Q.
Proof.
  unfold Qltb. rewrite negb_true_iff. split.
  - intros H. apply Qnot_le_lt. intros Hle%Qle_bool_iff. congruence.
  - intros H. destruct (Qle_bool y x) eqn:E; [|done].
    apply Qle_bool_iff in E. by apply Qlt_not_le in H.
Qed.

Lemma overlaps_iff (t : TranscriptionSegment) (d : DiarizationSegment) :
  overlaps t d = true <-> overlap_cond t d.
Proof.
  unfold overlaps, overlap_cond.
  rewrite !orb_true_iff, !andb_true_iff, !Qle_bool_iff, !Qltb_iff. tauto.
Qed.

Lemma overlaps_false_iff (t : TranscriptionSegment) (d : DiarizationSegment) :
  overlaps t d = false <-> ~ overlap_cond t d.
Proof. rewrite <-overlaps_iff. by destruct (overlaps t d). Qed.

Lemma find_overlap_Some (t : TranscriptionSegment) (ds : list DiarizationSegment)
    (d : DiarizationSegment) :
  find_overlap t ds = Some d <->
  exists pre post, ds = pre ++ d :: post /\ overlap_cond t d
                   /\ Forall (fun d' => ~ overlap_cond t d') pre.
Proof.
  induction ds as [|d0 ds IH]; simpl.
  - split; [done|]. intros (pre & post & Heq & _). by destruct pre.
  - destruct (overlaps t d0) eqn:E.
    + split.
      * intros [= <-]. exists [], ds. by rewrite <-overlaps_iff.
      * intros (pre & post & Heq & Hd & Hpre). destruct pre as [|d1 pre].
        -- by injection Heq as -> _.
        -- injection Heq as -> _. apply Forall_cons_1 in Hpre as [Hn _].
           by apply overlaps_false_iff in Hn; rewrite Hn in E.
    + rewrite IH. split.
      * intros (pre & post & -> & Hd & Hpre). exists (d0 :: pre), post.
        split_and!; [done|done|]. constructor; [|done].
        by apply overlaps_false_iff.
      * intros (pre & post & Heq & Hd & Hpre). destruct pre as [|d1 pre].
        -- injection Heq as -> _. apply overlaps_iff in Hd. congruence.
        -- injection Heq as -> ->. apply Forall_cons_1 in Hpre as [_ Hpre].
           by exists pre, post.
Qed.

Lemma find_overlap_None (t : TranscriptionSegment) (ds : list DiarizationSegment) :
  find_overlap t ds = None <-> Forall (fun d' => ~ overlap_cond t d') ds.
Proof.
  induction ds as [|d0 ds IH]; simpl; [done|].
  rewrite Forall_cons, <-overlaps_false_iff, <-IH.
  destruct (overlaps t d0).
  - split; [done|]. by intros [? _].
  - split; [done|]. by intros [_ ?].
Qed.

(** C1. For every transcription segment and every sequence of diarization
    segments, the inner loop selects the first diarization segment, in input
    order, that meets one of the three overlap conditions, and selects none
    exactly when no segment meets one; the label used is that segment's label,
    or the sentinel.  The choice is by position and not by overlap duration:
    on a segment [0,10] with candidates [0,1] then [0,10] the first one is
    taken although the second overlaps longer. *)
Theorem first_overlap_wins :
  (forall (t : TranscriptionSegment) (ds : list DiarizationSegment),
     (forall d, find_overlap t ds = Some d <->
        exists pre post, ds = pre ++ d :: post /\ overlap_cond t d
                         /\ Forall (fun d' => ~ overlap_cond t d') pre)
     /\ (find_overlap t ds = None <-> Forall (fun d' => ~ overlap_cond t d') ds)
     /\ select_speaker ds t = from_option get_label SPEAKER_UNK (find_overlap t ds))
  /\ (exists t d1 d2,
        find_overlap t [d1; d2] = Some d1
        /\ overlap_cond t d2
        /\ (overlap_duration t d1 < overlap_duration t d2)%Q).
Proof.
  split.
  - intros t ds. split_and!.
    + intros d. apply find_overlap_Some.
    + apply find_overlap_None.
    + unfold select_speaker. by destruct (find_overlap t ds).
  - exists {| t_start := 0; t_end := 10; t_text := "x"; t_seek := 0 |},
           {| d_start := 0; d_end := 1; get_label := "A" |},
           {| d_start := 0; d_end := 10; get_label := "B" |}.
    split_and!; [done| |done].
    apply overlaps_iff. done.
Qed.

Lemma run_snoc (ts : list TranscriptionSegment) (t : TranscriptionSegment)
    (ds : list DiarizationSegment) :
  run (ts ++ [t]) ds = step ds (run ts ds) t.
Proof. unfold run. by rewrite foldl_snoc. Qed.

Lemma speaker_name_inj (i j : nat) : speaker_name i = speaker_name j -> i = j.
Proof.
  unfold speaker_name. intros H%(inj (String.append _)).
  apply fmt_02d_inj in H. lia.
Qed.

(** The key read on line 397 is always in the dictionary. *)
Lemma assign_lookup (speaker : string) (m : gmap string string) (c : nat) :
  (assign speaker m c).1 !! speaker = Some ((assign speaker m c).1 !!! speaker).
Proof.
  unfold assign. destruct (m !! speaker) as [v|] eqn:E; simpl.
  - by rewrite lookup_total_alt, E.
  - by rewrite lookup_total_insert_eq, lookup_insert_eq.
Qed.

Lemma step_fields (ds : list DiarizationSegment) (st : state) (t : TranscriptionSegment) :
  let speaker := select_speaker ds t in
  let mc := assign speaker (speaker_map st) (speaker_counter st) in
  speaker_map (step ds st t) = mc.1
  /\ speaker_counter (step ds st t) = mc.2
  /\ json_segments (step ds st t) = json_segments st ++
       [ {| e_text := t_text t; e_start := t_start t; e_end := t_end t;
            e_seek := t_seek t; e_speaker := mc.1 !!! speaker |} ].
Proof. unfold step. simpl. by destruct (assign _ _ _). Qed.

Lemma fuse_snoc (ts : list TranscriptionSegment) (t : TranscriptionSegment)
    (ds : list DiarizationSegment) :
  exists e, fuse (ts ++ [t]) ds = fuse ts ds ++ [e]
            /\ entry_fields e = segment_fields t
            /\ speaker_map (run (ts ++ [t]) ds) !! select_speaker ds t = Some (e_speaker e).
Proof.
  unfold fuse. rewrite run_snoc.
  destruct (step_fields ds (run ts ds) t) as (Hm & _ & ->).
  eexists; split_and!; [done|done|].
  rewrite Hm. simpl. apply assign_lookup.
Qed.

Lemma fuse_fields (ts : list TranscriptionSegment) (ds : list DiarizationSegment) :
  entry_fields <$> fuse ts ds = segment_fields <$> ts.
Proof.
  induction ts as [|t ts IH] using rev_ind; [done|].
  destruct (fuse_snoc ts t ds) as (e & -> & He & _).
  by rewrite !fmap_app, IH; simpl; rewrite He.
Qed.

Lemma fuse_length (ts : list TranscriptionSegment) (ds : list DiarizationSegment) :
  length (fuse ts ds) = length ts.
Proof. by rewrite <-(length_fmap entry_fields), fuse_fields, length_fmap. Qed.

(** With no diarization segment every segment selects the sentinel, which
    takes the first identifier and keeps it. *)
Lemma run_no_diarization (ts : list TranscriptionSegment) :
  let st := run ts [] in
  (ts = [] /\ speaker_map st = ∅ /\ speaker_counter st = 0 /\ json_segments st = [])
  \/ (speaker_map st = {[ SPEAKER_UNK := "SPEAKER_00" ]} /\ speaker_counter st = 1
      /\ Forall (fun e => e_speaker e = "SPEAKER_00") (json_segments st)).
Proof.
  induction ts as [|t ts IH] using rev_ind; [by left|].
  right. rewrite run_snoc.
  destruct (step_fields [] (run ts []) t) as (Hm & Hc & Hs).
  rewrite Hm, Hc, Hs. clear Hm Hc Hs. simpl in *.
  change (select_speaker [] t) with SPEAKER_UNK.
  destruct IH as [(_ & -> & -> & ->)|(-> & -> & Hall)]; simpl.
  - unfold assign. rewrite lookup_empty. simpl.
    rewrite lookup_total_insert_eq. split_and!; [done|done|].
    by repeat constructor.
  - unfold assign. rewrite lookup_singleton_eq. simpl.
    rewrite lookup_total_singleton_eq. split_and!; [done|done|].
    apply Forall_app; split; [done|]. by repeat constructor.
Qed.

(** C3. Fusion emits exactly one entry per transcription segment, in input
    order and with the segment's own text, times and seek, dropping none; an
    empty transcription input gives an empty output; and with an empty
    diarization input every entry carries the identifier the sentinel
    [SPEAKER_UNK] is mapped to, [SPEAKER_00]. *)
Theorem fuse_one_entry_per_segment (ts : list TranscriptionSegment)
    (ds : list DiarizationSegment) :
  length (fuse ts ds) = length ts
  /\ entry_fields <$> fuse ts ds = segment_fields <$> ts
  /\ fuse [] ds = []
  /\ Forall (fun e => e_speaker e = "SPEAKER_00") (fuse ts [])
  /\ Forall (fun t => select_speaker [] t = SPEAKER_UNK) ts.
Proof.
  split_and!.
  - apply fuse_length.
  - apply fuse_fields.
  - done.
  - unfold fuse. destruct (run_no_diarization ts) as [(_ & _ & _ & ->)|(_ & _ & H)]; done.
  - by apply Forall_forall.
Qed.

Lemma well_formed_init : well_formed init.
Proof.
  split_and!; simpl.
  - by rewrite map_size_empty.
  - intros l1 l2 v H. by rewrite lookup_empty in H.
  - intros v. split.
    + intros [l H]. by rewrite lookup_empty in H.
    + intros (i & Hi & _). lia.
Qed.

Lemma well_formed_step (ds : list DiarizationSegment) (st : state) (t : TranscriptionSegment) :
  well_formed st -> well_formed (step ds st t).
Proof.
  intros (Hc & Hinj & Hval). unfold well_formed.
  destruct (step_fields ds st t) as (-> & -> & _).
  unfold assign. destruct (speaker_map st !! select_speaker ds t) as [v0|] eqn:E; simpl; [done|].
  set (sp := select_speaker ds t) in *.
  assert (Hfresh : forall l, speaker_map st !! l <> Some (speaker_name (speaker_counter st))).
  { intros l Hl. destruct (Hval (speaker_name (speaker_counter st))) as [H1 _].
    destruct H1 as (i & Hi & Hn); [by exists l|].
    apply speaker_name_inj in Hn. lia. }
  split_and!.
  - rewrite map_size_insert_None by done. by rewrite Hc.
  - intros l1 l2 v [[-> <-]|[Hn1 H1]]%lookup_insert_Some [[-> Hv]|[Hn2 H2]]%lookup_insert_Some.
    + done.
    + by destruct (Hfresh l2).
    + subst v. by destruct (Hfresh l1).
    + by eapply Hinj.
  - intros v. split.
    + intros [l [[-> <-]|[Hn Hl]]%lookup_insert_Some].
      * exists (speaker_counter st). split; [lia|done].
      * destruct (Hval v) as [H1 _]. destruct H1 as (i & Hi & ->); [by exists l|].
        exists i. split; [lia|done].
    + intros (i & Hi & ->). destruct (decide (i = speaker_counter st)) as [->|Hne].
      * exists sp. by rewrite lookup_insert_eq.
      * destruct (Hval (speaker_name i)) as [_ H2].
        destruct H2 as [l Hl]; [exists i; split; [lia|done]|].
        exists l. rewrite lookup_insert_ne; [done|]. intros <-. congruence.
Qed.

Lemma run_well_formed (ts : list TranscriptionSegment) (ds : list DiarizationSegment) :
  well_formed (run ts ds).
Proof.
  induction ts as [|t ts IH] using rev_ind; [apply well_formed_init|].
  rewrite run_snoc. by apply well_formed_step.
Qed.

Lemma seen_before_all (ls : list string) : seen_before ls (length ls) = list_to_set ls.
Proof. unfold seen_before. by rewrite firstn_all. Qed.

Lemma labels_snoc ts t ds : labels (ts ++ [t]) ds = labels ts ds ++ [select_speaker ds t].
Proof. unfold labels. by rewrite fmap_app. Qed.

Lemma run_first_seen (ts : list TranscriptionSegment) (ds : list DiarizationSegment) :
  let ls := labels ts ds in
  let st := run ts ds in
  (forall l, is_Some (speaker_map st !! l) <-> l ∈ ls)
  /\ speaker_counter st = size (seen_before ls (length ls))
  /\ (forall l v j, speaker_map st !! l = Some v -> ls !! j = Some l -> l ∉ take j ls ->
        v = speaker_name (size (seen_before ls j)))
  /\ e_speaker <$> fuse ts ds = (fun l => speaker_map st !!! l) <$> ls.
Proof.
  induction ts as [|t ts IH] using rev_ind; simpl.
  - split_and!; [|done|by intros l v j; rewrite lookup_empty|done].
    intros l. unfold run; simpl. rewrite lookup_empty. split; [by intros [??]|].
    by intros ?%elem_of_nil.
  - destruct IH as (Hdom & Hcnt & Hfirst & Hent). simpl in *.
    rewrite seen_before_all in *.
    rewrite labels_snoc. unfold fuse in *. rewrite run_snoc.
    destruct (step_fields ds (run ts ds) t) as (-> & -> & ->).
    set (sp := select_speaker ds t) in *. set (ls := labels ts ds) in *.
    set (st := run ts ds) in *.
    rewrite list_to_set_app_L, !fmap_app. simpl.
    unfold assign. destruct (speaker_map st !! sp) as [v0|] eqn:E; simpl.
    + assert (Hin : sp ∈ ls) by (apply Hdom; by rewrite E).
      split_and!.
      * intros l. rewrite Hdom. set_solver.
      * rewrite Hcnt. f_equal. set_solver.
      * intros l v j Hl Hj Hnot.
        destruct (decide (j < length ls)) as [Hlt|Hge].
        -- rewrite lookup_app_l in Hj by done.
           unfold seen_before in *. rewrite take_app_le in * by lia.
           by eapply Hfirst.
        -- apply lookup_lt_Some in Hj as Hj'. rewrite length_app in Hj'. simpl in Hj'.
           assert (j = length ls) as -> by lia.
           rewrite list_lookup_middle in Hj by done. injection Hj as <-.
           rewrite take_app_length in Hnot. done.
      * by rewrite Hent.
    + assert (Hnin : sp ∉ ls) by (rewrite <-Hdom, E; by intros [??]).
      split_and!.
      * intros l. rewrite elem_of_app, <-Hdom, list_elem_of_singleton.
        rewrite lookup_insert_is_Some. destruct (decide (sp = l)); naive_solver.
      * rewrite Hcnt, size_union by set_solver.
        rewrite ?list_to_set_singleton, ?(right_id_L (∅ : gset string) (∪)).
        rewrite size_singleton. lia.
      * intros l v j Hl Hj Hnot.
        destruct (decide (j < length ls)) as [Hlt|Hge].
        -- rewrite lookup_app_l in Hj by done.
           unfold seen_before in *. rewrite take_app_le in * by lia.
           apply lookup_insert_Some in Hl as [[-> _]|[_ Hl]].
           ++ destruct Hnin. by eapply list_elem_of_lookup_2.
           ++ by eapply Hfirst.
        -- apply lookup_lt_Some in Hj as Hj'. rewrite length_app in Hj'. simpl in Hj'.
           assert (j = length ls) as -> by lia.
           rewrite list_lookup_middle in Hj by done. injection Hj as <-.
           rewrite lookup_insert_eq in Hl. injection Hl as <-.
           unfold seen_before. rewrite take_app_length. by rewrite Hcnt.
      * rewrite Hent, lookup_total_insert_eq. f_equal.
        apply list_fmap_ext. intros i l Hl.
        rewrite lookup_total_insert_ne; [done|].
        intros <-. destruct Hnin. by eapply list_elem_of_lookup_2.
Qed.

Lemma fuse_speaker_lookup (ts : list TranscriptionSegment) (ds : list DiarizationSegment)
    (i : nat) (e : Entry) (l : string) :
  fuse ts ds !! i = Some e -> labels ts ds !! i = Some l ->
  speaker_map (run ts ds) !! l = Some (e_speaker e).
Proof.
  intros He Hl. destruct (run_first_seen ts ds) as (Hdom & _ & _ & Hent).
  assert (Hs : (e_speaker <$> fuse ts ds) !! i = Some (e_speaker e))
    by (by rewrite list_lookup_fmap, He).
  rewrite Hent, list_lookup_fmap, Hl in Hs. injection Hs as <-.
  destruct (proj2 (Hdom l)) as [v Hv]; [by eapply list_elem_of_lookup_2|].
  by rewrite lookup_total_alt, Hv.
Qed.

(** C2. Within one run every selected label, the sentinel included, gets the
    identifier numbered by how many distinct labels were selected before its
    first occurrence: identifiers are handed out in first-seen order from
    [SPEAKER_00], and a label that occurs again reuses its identifier.  On the
    example of the specification the first entry gets [SPEAKER_00] and the
    second, unmatched, entry gets the sentinel's identifier [SPEAKER_01]. *)
Theorem speaker_ids_first_seen_order :
  (forall (ts : list TranscriptionSegment) (ds : list DiarizationSegment)
          (i : nat) (e : Entry) (l : string),
     fuse ts ds !! i = Some e -> labels ts ds !! i = Some l ->
     exists j, j <= i /\ labels ts ds !! j = Some l /\ (l ∉ take j (labels ts ds))
               /\ e_speaker e = speaker_name (size (seen_before (labels ts ds) j)))
  /\ (forall (ts : list TranscriptionSegment) (ds : list DiarizationSegment)
             (i i' : nat) (e e' : Entry) (l : string),
        fuse ts ds !! i = Some e -> fuse ts ds !! i' = Some e' ->
        labels ts ds !! i = Some l -> labels ts ds !! i' = Some l ->
        e_speaker e = e_speaker e')
  /\ speaker_name 0 = "SPEAKER_00" /\ speaker_name 1 = "SPEAKER_01"
  /\ labels example_segments example_diarization = ["X"; SPEAKER_UNK]
  /\ e_speaker <$> fuse example_segments example_diarization = ["SPEAKER_00"; "SPEAKER_01"].
Proof.
  split_and!; [| |done|done|done|by vm_compute].
  - intros ts ds i e l He Hl.
    destruct (list_find_elem_of (eq l) (labels ts ds) l) as [[j l'] Hj];
      [by eapply list_elem_of_lookup_2|done|].
    apply list_find_Some in Hj as (Hj & <- & Hfirst).
    exists j. split_and!; [| done | |].
    + destruct (decide (j <= i)) as [|Hgt]; [done|].
      destruct (Hfirst i l); [done|lia|done].
    + intros [k Hk]%list_elem_of_lookup_1.
      apply lookup_take_Some in Hk as [Hk Hlt]. by destruct (Hfirst k l).
    + destruct (run_first_seen ts ds) as (_ & _ & Hf & _).
      eapply Hf; [by eapply fuse_speaker_lookup|done|].
      intros [k Hk]%list_elem_of_lookup_1.
      apply lookup_take_Some in Hk as [Hk Hlt]. by destruct (Hfirst k l).
  - intros ts ds i i' e e' l He He' Hl Hl'.
    pose proof (fuse_speaker_lookup _ _ _ _ _ He Hl).
    pose proof (fuse_speaker_lookup _ _ _ _ _ He' Hl'). congruence.
Qed.

(** C2 at the example of the specification: the second entry, whose label
    [SPEAKER_UNK] first occurs at position 1 after one distinct label. *)
Lemma speaker_ids_first_seen_order_witness :
  exists e, fuse example_segments example_diarization !! 1 = Some e
            /\ e_speaker e = "SPEAKER_01".
Proof.
  destruct (fuse example_segments example_diarization !! 1) as [e|] eqn:He; [|done].
  exists e. split; [done|].
  destruct (proj1 speaker_ids_first_seen_order example_segments example_diarization
              1 e SPEAKER_UNK He eq_refl) as (j & Hj & Hl & _ & ->).
  destruct j as [|[|j]]; [done|done|lia].
Defined.

(** C10. The speaker mapping of a run is well formed at the start and after
    every iteration: the counter equals the size of the dictionary, distinct
    labels have distinct identifiers, and the identifiers in use are exactly
    [SPEAKER_00 .. SPEAKER_(k-1)] for [k] the number of distinct labels
    selected so far; hence every emitted identifier is one of them. *)
Theorem speaker_map_invariant (ds : list DiarizationSegment) :
  well_formed init
  /\ (forall st t, well_formed st -> well_formed (step ds st t))
  /\ (forall st t, well_formed st ->
        exists e i, json_segments (step ds st t) = json_segments st ++ [e]
                    /\ i < speaker_counter (step ds st t) /\ e_speaker e = speaker_name i)
  /\ (forall ts,
        well_formed (run ts ds)
        /\ speaker_counter (run ts ds) = size (seen_before (labels ts ds) (length ts))
        /\ (forall l, is_Some (speaker_map (run ts ds) !! l) <-> l ∈ labels ts ds)
        /\ Forall (fun e => exists i, i < speaker_counter (run ts ds)
                                      /\ e_speaker e = speaker_name i) (fuse ts ds)).
Proof.
  split_and!.
  - apply well_formed_init.
  - apply well_formed_step.
  - intros st t Hwf. pose proof (well_formed_step ds st t Hwf) as (_ & _ & Hval).
    destruct (step_fields ds st t) as (Hm & Hc & Hs).
    pose proof (assign_lookup (select_speaker ds t) (speaker_map st) (speaker_counter st)) as Hl.
    rewrite <-Hm in Hl.
    destruct (proj1 (Hval _) (ex_intro _ _ Hl)) as (i & Hi & Hn).
    eexists _, i. split_and!; [exact Hs|done|]. simpl. by rewrite <-Hm.
  - intros ts. destruct (run_first_seen ts ds) as (Hdom & Hcnt & _ & _).
    split_and!; [apply run_well_formed| |done|].
    + rewrite Hcnt. unfold labels. by rewrite length_fmap.
    + apply Forall_lookup. intros i e He.
      destruct (labels ts ds !! i) as [l|] eqn:Hl.
      * pose proof (fuse_speaker_lookup _ _ _ _ _ He Hl) as Hlk.
        destruct (run_well_formed ts ds) as (_ & _ & Hval). apply Hval. by exists l.
      * apply lookup_ge_None in Hl. apply lookup_lt_Some in He.
        unfold labels in Hl. rewrite length_fmap in Hl.
        pose proof (fuse_length ts ds). lia.
Qed.

(** C10 at a concrete state: from the initial, well-formed state one step on
    the first example segment gives a well-formed state again. *)
Lemma speaker_map_invariant_witness :
  well_formed (step example_diarization init
                 {| t_start := 0; t_end := 2; t_text := "a"; t_seek := 0 |}).
Proof.
  destruct (speaker_map_invariant example_diarization) as (Hinit & Hstep & _).
  apply Hstep, Hinit.
Defined.

Lemma concat_str_app (a b : list string) :
  concat_str (a ++ b) = concat_str a +:+ concat_str b.
Proof.
  induction a as [|x a IH]; [done|].
  unfold concat_str in *. simpl. by rewrite IH, string_app_assoc.
Qed.

Lemma timedelta_str_hms (n : Z) : (0 <= n < 86400)%Z -> timedelta_str n = hms n.
Proof.
  intros Hn. unfold timedelta_str, hms.
  rewrite Z.div_small, Z.mod_small by done.
  rewrite decide_True by done.
  by rewrite Z.div_div by lia.
Qed.

Lemma timedelta_str_days (n : Z) :
  ~ (0 <= n < 86400)%Z ->
  timedelta_str n =
    pretty (n / 86400)%Z +:+ " day" +:+ (if decide (Z.abs (n / 86400) = 1%Z) then "" else "s")
      +:+ ", " +:+ hms (n mod 86400).
Proof.
  intros Hn. unfold timedelta_str, hms.
  rewrite decide_False.
  - by rewrite Z.div_div by lia.
  - intros H0. apply Hn. apply Z.div_small_iff in H0; lia.
Qed.

Lemma int_of_floor (x : Q) : (0 <= x)%Q -> int_of x = Qfloor x.
Proof.
  destruct x as [a b]. unfold Qle, int_of, Qfloor. simpl. intros H.
  apply Z.quot_div_nonneg; lia.
Qed.

Lemma step_output (ds : list DiarizationSegment) (st : state) (t : TranscriptionSegment) :
  exists e, json_segments (step ds st t) = json_segments st ++ [e]
    /\ output_txt (step ds st t) =
         (if endswith (output_txt st) (header (e_speaker e)) then output_txt st
          else output_txt st +:+ header (e_speaker e)) +:+ entry_line e.
Proof. unfold step. destruct (assign _ _ _). by eexists. Qed.

Lemma header_not_suffix_of_empty (sid : string) : endswith "" (header sid) = false.
Proof.
  destruct (endswith "" (header sid)) eqn:E; [|done].
  apply endswith_spec in E as [a Ha].
  apply (f_equal String.length) in Ha. unfold header in Ha.
  rewrite !string_length_app in Ha. simpl in Ha. lia.
Qed.

Lemma output_txt_lines (ts : list TranscriptionSegment) (ds : list DiarizationSegment) :
  exists hs : list bool,
    length hs = length ts
    /\ output_txt (run ts ds) =
         concat_str (zip_with (fun (h : bool) e =>
           (if h then header (e_speaker e) else "") +:+ entry_line e) hs (fuse ts ds))
    /\ (ts <> [] -> hs !! 0 = Some true).
Proof.
  induction ts as [|t ts IH] using rev_ind; [by exists []|].
  destruct IH as (hs & Hlen & Hout & Hfirst).
  unfold fuse in *. rewrite run_snoc.
  destruct (step_output ds (run ts ds) t) as (e & -> & ->).
  exists (hs ++ [negb (endswith (output_txt (run ts ds)) (header (e_speaker e)))]).
  split_and!.
  - rewrite !length_app. simpl. lia.
  - rewrite zip_with_app, concat_str_app.
    2:{ rewrite Hlen. symmetry. apply fuse_length. }
    rewrite <-Hout. simpl. unfold concat_str. simpl. rewrite string_app_nil_r.
    destruct (endswith _ _); simpl; [done|]. by rewrite string_app_assoc.
  - intros _. destruct ts as [|t0 ts].
    + destruct hs; [|done]. simpl. unfold run. simpl.
      by rewrite header_not_suffix_of_empty.
    + rewrite lookup_app_l by (rewrite Hlen; simpl; lia). by apply Hfirst.
Qed.

Lemma int_of_ceiling (x : Q) : (x <= 0)%Q -> int_of x = Qceiling x.
Proof.
  destruct x as [a b]. unfold Qle, int_of, Qceiling, Qfloor, Qopp. simpl. intros H.
  rewrite <-(Z.opp_involutive a) at 1. rewrite Z.quot_opp_l by lia.
  f_equal. apply Z.quot_div_nonneg; lia.
Qed.

(** C4, as amended. The human-readable projection is, entry by entry in input
    order, an optional header line holding the entry's speaker identifier
    followed by the line [[T] - text]; the first entry always has its header.
    [T] renders the entry's start truncated toward zero to whole seconds: as
    [H:MM:SS] when that number is below 24 hours, and with the count of whole
    days in front of [H:MM:SS] otherwise. *)
Theorem txt_projection_lines (ts : list TranscriptionSegment) (ds : list DiarizationSegment) :
  (exists hs : list bool,
     length hs = length ts
     /\ output_txt (run ts ds) =
          concat_str (zip_with (fun (h : bool) e =>
            (if h then header (e_speaker e) else "") +:+ entry_line e) hs (fuse ts ds))
     /\ (ts <> [] -> hs !! 0 = Some true))
  /\ (forall e, e ∈ fuse ts ds ->
        let n := int_of (e_start e) in
        ((0 <= e_start e)%Q -> (inject_Z n <= e_start e < inject_Z (n + 1))%Q)
        /\ ((e_start e <= 0)%Q -> (inject_Z (n - 1) < e_start e <= inject_Z n)%Q)
        /\ ((0 <= n < 86400)%Z -> timedelta_str n = hms n)
        /\ (~ (0 <= n < 86400)%Z ->
             timedelta_str n =
               pretty (n / 86400)%Z +:+ " day"
                 +:+ (if decide (Z.abs (n / 86400) = 1%Z) then "" else "s")
                 +:+ ", " +:+ hms (n mod 86400))).
Proof.
  split; [apply output_txt_lines|].
  intros e _ n. subst n. split_and!.
  - intros H. rewrite int_of_floor by done. split; [apply Qfloor_le|apply Qlt_floor].
  - intros H. rewrite int_of_ceiling by done. split; [apply Qceiling_lt|apply Qle_ceiling].
  - apply timedelta_str_hms.
  - apply timedelta_str_days.
Qed.

(** C4 as stated fails on the code.  Two consecutive entries of one speaker
    get two header lines, where printing a header only on a change of speaker
    gives one; and a segment starting 25 hours into the recording is stamped
    [1 day, 1:00:00], not [25:00:00]. *)
Lemma txt_projection_counterexample :
  (e_speaker <$> fuse same_speaker_segments same_speaker_diarization
     = ["SPEAKER_00"; "SPEAKER_00"]
   /\ output_txt (run same_speaker_segments same_speaker_diarization)
      = "SPEAKER_00" +:+ newline +:+ "[0:00:00] - a" +:+ newline
        +:+ "SPEAKER_00" +:+ newline +:+ "[0:00:02] - b" +:+ newline
   /\ render_on_change None (fuse same_speaker_segments same_speaker_diarization)
      = "SPEAKER_00" +:+ newline +:+ "[0:00:00] - a" +:+ newline
        +:+ "[0:00:02] - b" +:+ newline
   /\ output_txt (run same_speaker_segments same_speaker_diarization)
      <> render_on_change None (fuse same_speaker_segments same_speaker_diarization))
  /\ (output_txt (run late_segments [])
        = "SPEAKER_00" +:+ newline +:+ "[1 day, 1:00:00] - b" +:+ newline
      /\ render_on_change None (fuse late_segments [])
        = "SPEAKER_00" +:+ newline +:+ "[25:00:00] - b" +:+ newline
      /\ output_txt (run late_segments []) <> render_on_change None (fuse late_segments [])).
Proof. split; split_and!; by vm_compute. Qed.

Lemma has_space_app (a b : string) : has_space (a +:+ b) = has_space a || has_space b.
Proof.
  induction a as [|c a IH]; [done|].
  rewrite string_app_cons. simpl. by rewrite IH, orb_assoc.
Qed.

Lemma has_space_rev (s : string) : has_space (String.rev s) = has_space s.
Proof.
  induction s as [|c s IH]; [done|].
  rewrite rev_cons, has_space_app, IH. simpl. by rewrite orb_false_r, orb_comm.
Qed.

Lemma has_space_pretty (n : N) : has_space (pretty n) = false.
Proof.
  induction (N.lt_wf_0 n) as [n _ IH].
  assert (Hc : forall a, Ascii.eqb (pretty_N_char a) " " = false)
    by (intros a; unfold pretty_N_char; by repeat case_match).
  destruct (decide (n < 10)%N) as [Hs|Hs].
  - rewrite pretty_N_digit by done. simpl. by rewrite Hc.
  - rewrite pretty_N_snoc, has_space_app by lia. rewrite IH; [|apply N.div_lt; lia].
    simpl. by rewrite Hc.
Qed.

Lemma has_space_zeros (k : nat) : has_space (zeros k) = false.
Proof. induction k as [|k IH]; [done|]. simpl. by rewrite IH. Qed.

Lemma has_space_speaker_name (k : nat) : has_space (speaker_name k) = false.
Proof.
  unfold speaker_name, fmt_02d, zfill.
  by rewrite !has_space_app, has_space_zeros, has_space_pretty.
Qed.

Lemma prefix_before_space (p t y : string) :
  has_space p = false -> String.prefix p (t +:+ String " " y) = true ->
  String.prefix p t = true.
Proof.
  revert t. induction p as [|c p IH]; intros t Hp; [by destruct t|].
  simpl in Hp. apply orb_false_iff in Hp as [Hc Hp].
  destruct t as [|d t].
  - rewrite string_app_nil_l. simpl.
    destruct (ascii_dec c " ") as [->|Hne]; [done|done].
  - rewrite string_app_cons. simpl.
    destruct (ascii_dec c d); [by apply IH|done].
Qed.

Lemma prefix_app_same (c a b : string) :
  String.prefix (c +:+ a) (c +:+ b) = String.prefix a b.
Proof.
  induction c as [|x c IH]; [done|].
  rewrite !string_app_cons. simpl. by destruct (ascii_dec x x).
Qed.

(** A header is a suffix of a text that ends in an entry line only when the
    segment's own text ends with the identifier. *)
Lemma header_after_line (out : string) (t : TranscriptionSegment) (k : nat) :
  endswith (out +:+ txt_line t) (header (speaker_name k)) = true ->
  endswith (t_text t) (speaker_name k) = true.
Proof.
  unfold endswith, header, txt_line.
  rewrite <-!string_app_assoc.
  rewrite !(rev_app_distr _ newline), prefix_app_same.
  rewrite !string_app_assoc, !rev_app_distr.
  change (String.rev " - ") with (String " " "- ").
  rewrite !string_app_assoc.
  apply prefix_before_space. by rewrite has_space_rev, has_space_speaker_name.
Qed.

Lemma step_txt_suffix (ds : list DiarizationSegment) (st : state) (t : TranscriptionSegment) :
  exists out, output_txt (step ds st t) = out +:+ txt_line t.
Proof. unfold step. destruct (assign _ _ _). by eexists. Qed.

(** The header test of line 414 against the text written so far: after the
    first entry it looks at the end of the previous entry's text line.  When
    no segment text ends with a speaker identifier the test never holds, and
    every entry gets a header line, also when the speaker is the one of the
    entry before. *)
Theorem header_before_every_entry (ts : list TranscriptionSegment)
    (ds : list DiarizationSegment) :
  (forall t k, t ∈ ts -> endswith (t_text t) (speaker_name k) = false) ->
  output_txt (run ts ds) =
    concat_str ((fun e => header (e_speaker e) +:+ entry_line e) <$> fuse ts ds).
Proof.
  induction ts as [|t ts IH] using rev_ind; intros Htext; [done|].
  assert (Hprev : forall t' k, t' ∈ ts -> endswith (t_text t') (speaker_name k) = false)
    by (intros t' k Hin; apply Htext, elem_of_app; by left).
  specialize (IH Hprev).
  destruct (fuse_snoc ts t ds) as (e & Hfuse & _ & Hlk). rewrite Hfuse.
  rewrite fmap_app, concat_str_app, <-IH. clear IH.
  destruct (run_well_formed (ts ++ [t]) ds) as (_ & _ & Hval).
  destruct (proj1 (Hval (e_speaker e)) (ex_intro _ _ Hlk)) as (k & _ & Hk).
  rewrite run_snoc in *.
  destruct (step_output ds (run ts ds) t) as (e' & Hseg & ->).
  assert (e' = e) as ->.
  { unfold fuse in Hfuse. rewrite run_snoc, Hseg in Hfuse.
    by apply app_inj_tail in Hfuse as [_ ?]. }
  assert (endswith (output_txt (run ts ds)) (header (e_speaker e)) = false) as ->.
  { rewrite Hk. destruct ts as [|t0 ts0 _] using rev_ind.
    - apply header_not_suffix_of_empty.
    - rewrite run_snoc.
      destruct (step_txt_suffix ds (run ts0 ds) t0) as [out ->].
      destruct (endswith _ _) eqn:E; [|done].
      apply header_after_line in E. rewrite Hprev in E; [done|].
      apply elem_of_app. right. by left. }
  unfold concat_str. simpl. by rewrite string_app_nil_r, string_app_assoc.
Qed.

(** On the two consecutive segments of one speaker: texts "a" and "b" end
    with no identifier, and both entries get the header. *)
Lemma header_before_every_entry_witness :
  output_txt (run same_speaker_segments same_speaker_diarization) =
    concat_str ((fun e => header (e_speaker e) +:+ entry_line e)
                  <$> fuse same_speaker_segments same_speaker_diarization).
Proof.
  apply header_before_every_entry. intros t k Hin.
  destruct (endswith (t_text t) (speaker_name k)) eqn:E; [|done].
  apply endswith_spec in E as [x Hx]. apply (f_equal String.length) in Hx.
  unfold speaker_name in Hx. rewrite !string_length_app in Hx.
  unfold same_speaker_segments in Hin.
  apply elem_of_cons in Hin as [->|Hin];
    [|apply list_elem_of_singleton in Hin as ->]; simpl in Hx; lia.
Defined.

End FusionFacts.

(** ** Dates: printing, parsing, order and day numbers *)
Module CalendarFacts.
Import Text Calendar TextFacts.

Ltac digit_cases a H :=
  let Hc := fresh "Hc" in
  assert (a = 0 \/ a = 1 \/ a = 2 \/ a = 3 \/ a = 4 \/ a = 5 \/ a = 6
          \/ a = 7 \/ a = 8 \/ a = 9)%N as Hc by lia;
  clear H; repeat (destruct Hc as [->|Hc]); [..|subst a].

Lemma pretty_N_10 (q r : N) :
  (0 < q)%N -> (r < 10)%N ->
  pretty (10 * q + r)%N = pretty q +:+ String (pretty_N_char r) "".
Proof.
  intros Hq Hr. rewrite pretty_N_snoc by lia.
  replace ((10 * q + r) `div` 10)%N with q
    by (apply (N.div_unique _ 10 q r); lia).
  replace ((10 * q + r) `mod` 10)%N with r
    by (apply (N.mod_unique _ 10 q r); lia).
  done.
Qed.

Lemma fmt_02d_digits (n : N) : (n < 100)%N -> fmt_02d n = digits2 n.
Proof.
  intros Hn. unfold digits2.
  set (q := (n `div` 10)%N). set (r := (n `mod` 10)%N).
  assert (n = 10 * q + r)%N as Hdm by (by apply N.div_mod).
  assert (r < 10)%N by (by apply N.mod_lt).
  assert (q < 10)%N by (apply N.Div0.div_lt_upper_bound; lia).
  clearbody q r. subst n.
  destruct (decide (q = 0%N)) as [->|Hne].
  - rewrite fmt_02d_small, pretty_N_digit by lia. done.
  - rewrite fmt_02d_big, pretty_N_10, pretty_N_digit by lia. done.
Qed.

Lemma fmt_04d_digits (n : N) : (n < 10000)%N -> fmt_04d n = digits4 n.
Proof.
  intros Hn. unfold digits4, digits2, fmt_04d.
  set (a := ((n `div` 100) `div` 10)%N). set (b := ((n `div` 100) `mod` 10)%N).
  set (c := ((n `mod` 100) `div` 10)%N). set (d := ((n `mod` 100) `mod` 10)%N).
  assert (n = 10 * (10 * (10 * a + b) + c) + d)%N as Hd.
  { subst a b c d.
    pose proof (N.div_mod n 100 ltac:(done)).
    pose proof (N.div_mod (n `div` 100) 10 ltac:(done)).
    pose proof (N.div_mod (n `mod` 100) 10 ltac:(done)). lia. }
  assert (a < 10 /\ b < 10 /\ c < 10 /\ d < 10)%N as (Ha & Hb & Hc & Hdd).
  { subst a b c d. split_and!; try (apply N.mod_lt; done).
    - apply N.Div0.div_lt_upper_bound. apply N.Div0.div_lt_upper_bound. lia.
    - apply N.Div0.div_lt_upper_bound. pose proof (N.mod_lt n 100 ltac:(done)). lia. }
  rewrite Hd. clearbody a b c d. clear Hd Hn.
  destruct (decide (a = 0%N)) as [->|Ha0];
    [destruct (decide (b = 0%N)) as [->|Hb0];
       [destruct (decide (c = 0%N)) as [->|Hc0]|]|];
    cbn [N.mul N.add];
    rewrite ?pretty_N_10 by lia; rewrite pretty_N_digit by lia; done.
Qed.

Lemma ascii_compare_digit (a b : N) :
  (a < 10)%N -> (b < 10)%N ->
  Ascii.compare (pretty_N_char a) (pretty_N_char b) = (a ?= b)%N.
Proof. intros Ha Hb. digit_cases a Ha; digit_cases b Hb; reflexivity. Qed.

Lemma digit_of_char (a : N) : (a < 10)%N -> digit_of (pretty_N_char a) = Some (Z.of_N a).
Proof. intros Ha. digit_cases a Ha; reflexivity. Qed.

Lemma string_compare_cons (x y : ascii) (s t : string) :
  String.compare (String x s) (String y t) = lex (Ascii.compare x y) (String.compare s t).
Proof. simpl. by destruct (Ascii.compare x y). Qed.

Lemma lex_merge (k a b x y : N) (r : comparison) :
  (x < k)%N -> (y < k)%N ->
  lex (a ?= b)%N (lex (x ?= y)%N r) = lex (a * k + x ?= b * k + y)%N r.
Proof.
  intros Hx Hy.
  destruct (N.compare_spec a b) as [->|Hab|Hab]; simpl.
  - destruct (N.compare_spec x y) as [->|Hxy|Hxy]; simpl.
    + by rewrite N.compare_refl.
    + by rewrite (proj2 (N.compare_lt_iff _ _)) by lia.
    + by rewrite (proj2 (N.compare_gt_iff _ _)) by lia.
  - by rewrite (proj2 (N.compare_lt_iff _ _)) by nia.
  - by rewrite (proj2 (N.compare_gt_iff _ _)) by nia.
Qed.

Lemma compare_digits2 (x y : N) (s t : string) :
  (x < 100)%N -> (y < 100)%N ->
  String.compare (digits2 x +:+ s) (digits2 y +:+ t) = lex (x ?= y)%N (String.compare s t).
Proof.
  intros Hx Hy. unfold digits2. rewrite !string_app_cons, !string_app_nil_l.
  rewrite !string_compare_cons.
  assert (x `div` 10 < 10 /\ y `div` 10 < 10)%N as [??]
    by (split; apply N.Div0.div_lt_upper_bound; lia).
  pose proof (N.mod_lt x 10 ltac:(done)). pose proof (N.mod_lt y 10 ltac:(done)).
  rewrite !ascii_compare_digit by done.
  rewrite (lex_merge 10) by done.
  by rewrite (N.mul_comm _ 10), (N.mul_comm _ 10), <-!N.div_mod by done.
Qed.

Lemma compare_digits4 (x y : N) (s t : string) :
  (x < 10000)%N -> (y < 10000)%N ->
  String.compare (digits4 x +:+ s) (digits4 y +:+ t) = lex (x ?= y)%N (String.compare s t).
Proof.
  intros Hx Hy. unfold digits4. rewrite !string_app_assoc.
  assert (x `div` 100 < 100 /\ y `div` 100 < 100)%N as [??]
    by (split; apply N.Div0.div_lt_upper_bound; lia).
  pose proof (N.mod_lt x 100 ltac:(done)). pose proof (N.mod_lt y 100 ltac:(done)).
  rewrite !compare_digits2 by done.
  rewrite (lex_merge 100) by done.
  by rewrite (N.mul_comm _ 100), (N.mul_comm _ 100), <-!N.div_mod by done.
Qed.

Lemma lex_Eq_r (c : comparison) : lex c Eq = c.
Proof. by destruct c. Qed.

(** Case analysis on an integer known to lie in a short range. *)
Ltac enum_Z x lo k :=
  lazymatch k with
  | O => exfalso; lia
  | S ?k' =>
      let lo' := eval vm_compute in (lo + 1)%Z in
      destruct (decide (x = lo)) as [->|?]; [|enum_Z x lo' k']
  end.

Lemma days_in_month_bounds (y m : Z) : (28 <= days_in_month y m <= 31)%Z.
Proof. unfold days_in_month. repeat case_match; lia. Qed.

Lemma valid_bounds (d : datetime) :
  valid d = true ->
  (1 <= year d <= 9999 /\ 1 <= month d <= 12
   /\ 1 <= day d <= days_in_month (year d) (month d))%Z.
Proof. unfold valid, MINYEAR, MAXYEAR. rewrite !andb_true_iff, !Z.leb_le. lia. Qed.

Lemma strftime_digits (d : datetime) :
  valid d = true ->
  strftime d = digits4 (Z.to_N (year d)) +:+ String "/" (digits2 (Z.to_N (month d))
                 +:+ String "/" (digits2 (Z.to_N (day d)) +:+ "")).
Proof.
  intros Hv. apply valid_bounds in Hv as (Hy & Hm & Hd).
  pose proof (days_in_month_bounds (year d) (month d)).
  unfold strftime. rewrite fmt_04d_digits, !fmt_02d_digits by lia.
  by rewrite string_app_nil_r.
Qed.

Lemma strftime_compare (a b : datetime) :
  valid a = true -> valid b = true ->
  String.compare (strftime a) (strftime b) = date_compare a b.
Proof.
  intros Ha Hb. rewrite !strftime_digits by done.
  apply valid_bounds in Ha as (Hy & Hm & Hd).
  apply valid_bounds in Hb as (Hy' & Hm' & Hd').
  pose proof (days_in_month_bounds (year a) (month a)).
  pose proof (days_in_month_bounds (year b) (month b)).
  rewrite compare_digits4, string_compare_cons by lia.
  rewrite compare_digits2, string_compare_cons by lia.
  rewrite compare_digits2 by lia. simpl String.compare.
  change (Ascii.compare "/" "/") with Eq. cbn [lex]. rewrite lex_Eq_r.
  unfold date_compare. by rewrite !Z2N.inj_compare by lia.
Qed.

Lemma parse_year_digits (n : N) :
  (n < 10000)%N ->
  exists a b c d, digits4 n = String a (String b (String c (String d "")))
                  /\ parse_year a b c d = Some (Z.of_N n).
Proof.
  intros Hn. unfold digits4, digits2. eexists _, _, _, _. split; [done|].
  set (q := (n `div` 100)%N). set (r := (n `mod` 100)%N).
  assert (n = 100 * q + r)%N as Hdm by (by apply N.div_mod).
  assert (r < 100)%N by (by apply N.mod_lt).
  assert (q < 100)%N by (apply N.Div0.div_lt_upper_bound; lia).
  clearbody q r. subst n.
  set (a := (q `div` 10)%N). set (b := (q `mod` 10)%N).
  set (c := (r `div` 10)%N). set (e := (r `mod` 10)%N).
  assert (q = 10 * a + b)%N by (by apply N.div_mod).
  assert (r = 10 * c + e)%N by (by apply N.div_mod).
  assert (b < 10 /\ e < 10)%N as [??] by (split; by apply N.mod_lt).
  assert (a < 10 /\ c < 10)%N as [??]
    by (split; apply N.Div0.div_lt_upper_bound; lia).
  clearbody a b c e. subst q r.
  unfold parse_year. rewrite !digit_of_char by done. f_equal. lia.
Qed.

Lemma parse_month_digits (m : Z) (rest : string) :
  (1 <= m <= 12)%Z ->
  parse_month (digits2 (Z.to_N m) +:+ String "/" rest) = Some (m, rest).
Proof. intros Hm. enum_Z m 1%Z 12; reflexivity. Qed.

Lemma parse_day_digits (dd : Z) :
  (1 <= dd <= 31)%Z -> parse_day (digits2 (Z.to_N dd) +:+ "") = Some dd.
Proof. intros Hd. enum_Z dd 1%Z 31; reflexivity. Qed.

(** Parsing a date printed by [strftime] gives the date back, at midnight. *)
Lemma strptime_strftime (d : datetime) :
  valid d = true ->
  strptime (strftime d) =
    Some {| year := year d; month := month d; day := day d; time_of_day := 0 |}.
Proof.
  intros Hv. rewrite strftime_digits by done.
  pose proof Hv as (Hy & Hm & Hd)%valid_bounds.
  pose proof (days_in_month_bounds (year d) (month d)).
  destruct (parse_year_digits (Z.to_N (year d))) as (a & b & c & e & -> & Hpy); [lia|].
  rewrite !string_app_cons, string_app_nil_l. unfold strptime.
  change (Ascii.eqb "/" "/") with true. cbn match.
  rewrite Hpy, parse_month_digits, parse_day_digits by lia.
  rewrite Z2N.id by lia.
  unfold valid in *. simpl. by rewrite Hv.
Qed.

Lemma is_leap_cases (y : Z) :
  (is_leap y = true /\ (y mod 4 = 0 /\ (y mod 100 <> 0 \/ y mod 400 = 0)))%Z
  \/ (is_leap y = false /\ ~ (y mod 4 = 0 /\ (y mod 100 <> 0 \/ y mod 400 = 0)))%Z.
Proof.
  unfold is_leap.
  destruct (Z.eqb_spec (y mod 4) 0), (Z.eqb_spec (y mod 100) 0),
    (Z.eqb_spec (y mod 400) 0); simpl; lia.
Qed.

Lemma days_before_year_succ (y : Z) :
  days_before_year (y + 1) = (days_before_year y + 365 + (if is_leap y then 1 else 0))%Z.
Proof.
  unfold days_before_year.
  destruct (is_leap_cases y) as [[-> H]|[-> H]];
    replace (y + 1 - 1)%Z with y by lia;
    Z.div_mod_to_equations; lia.
Qed.

Lemma days_before_year_mono (y1 y2 : Z) :
  (y1 <= y2)%Z -> (days_before_year y1 <= days_before_year y2)%Z.
Proof. unfold days_before_year. intros H. Z.div_mod_to_equations. lia. Qed.

Lemma days_before_month_succ (y m : Z) :
  (1 <= m <= 11)%Z ->
  days_before_month y (m + 1) = (days_before_month y m + days_in_month y m)%Z.
Proof.
  intros Hm. unfold days_before_month, days_in_month.
  enum_Z m 1%Z 11; destruct (is_leap y); reflexivity.
Qed.

Lemma days_before_month_mono (y m1 m2 : Z) :
  (1 <= m1)%Z -> (m1 < m2)%Z -> (m2 <= 12)%Z ->
  (days_before_month y m1 + days_in_month y m1 <= days_before_month y m2)%Z.
Proof.
  intros H1 H2 H3. unfold days_before_month, days_in_month.
  enum_Z m1 1%Z 11; enum_Z m2 1%Z 12; try lia; destruct (is_leap y); vm_compute; done.
Qed.

Lemma days_before_month_end (y : Z) :
  (days_before_month y 12 + 31 = 365 + (if is_leap y then 1 else 0))%Z.
Proof. unfold days_before_month. by destruct (is_leap y). Qed.

Lemma valid_intro (d : datetime) :
  (1 <= year d <= 9999)%Z -> (1 <= month d <= 12)%Z ->
  (1 <= day d <= days_in_month (year d) (month d))%Z -> valid d = true.
Proof. unfold valid, MINYEAR, MAXYEAR. rewrite !andb_true_iff, !Z.leb_le. lia. Qed.

Lemma next_day_spec (d d' : datetime) :
  valid d = true -> next_day d = Some d' ->
  valid d' = true /\ toordinal d' = (toordinal d + 1)%Z /\ time_of_day d' = time_of_day d.
Proof.
  intros (Hy & Hm & Hd)%valid_bounds. unfold next_day, toordinal, MAXYEAR.
  pose proof (days_in_month_bounds (year d) (month d)).
  destruct (Z.ltb_spec (day d) (days_in_month (year d) (month d))).
  { intros [= <-]. simpl. split_and!; [apply valid_intro; simpl; lia|lia|done]. }
  destruct (Z.ltb_spec (month d) 12).
  { intros [= <-]. simpl. split_and!; [| |done].
    - apply valid_intro; simpl; [lia..|].
      pose proof (days_in_month_bounds (year d) (month d + 1)). lia.
    - rewrite days_before_month_succ by lia. lia. }
  destruct (Z.ltb_spec (year d) 9999); [|done].
  intros [= <-]. simpl. split_and!; [by apply valid_intro; simpl; try lia| |done].
  rewrite days_before_year_succ.
  assert (month d = 12%Z) as Em by lia. rewrite Em in *.
  pose proof (days_before_month_end (year d)).
  assert (days_in_month (year d) 12 = 31%Z) as Hdim by done.
  change (days_before_month (year d + 1) 1) with 0%Z. lia.
Qed.

Lemma next_day_is_Some (d : datetime) :
  (year d < MAXYEAR)%Z -> is_Some (next_day d).
Proof.
  intros Hy. unfold next_day. repeat case_match; try done.
  apply Z.ltb_ge in H1. lia.
Qed.

Lemma prev_day_spec (d d' : datetime) :
  valid d = true -> prev_day d = Some d' ->
  valid d' = true /\ toordinal d' = (toordinal d - 1)%Z /\ time_of_day d' = time_of_day d.
Proof.
  intros (Hy & Hm & Hd)%valid_bounds. unfold prev_day, toordinal, MINYEAR.
  pose proof (days_in_month_bounds (year d) (month d)).
  destruct (Z.ltb_spec 1 (day d)).
  { intros [= <-]. simpl. split_and!; [apply valid_intro; simpl; lia|lia|done]. }
  destruct (Z.ltb_spec 1 (month d)).
  { intros [= <-]. simpl.
    pose proof (days_in_month_bounds (year d) (month d - 1)).
    split_and!; [apply valid_intro; simpl; lia| |done].
    pose proof (days_before_month_succ (year d) (month d - 1) ltac:(lia)) as Hs.
    replace (month d - 1 + 1)%Z with (month d) in Hs by lia. lia. }
  destruct (Z.ltb_spec 1 (year d)); [|done].
  intros [= <-]. simpl. split_and!; [by apply valid_intro; simpl; try lia| |done].
  pose proof (days_before_year_succ (year d - 1)) as Hs.
  replace (year d - 1 + 1)%Z with (year d) in Hs by lia.
  assert (month d = 1%Z) as Em by lia. rewrite Em in *.
  pose proof (days_before_month_end (year d - 1)).
  change (days_before_month (year d) 1) with 0%Z. lia.
Qed.

Lemma toordinal_pos (d : datetime) : valid d = true -> (1 <= toordinal d)%Z.
Proof.
  intros (Hy & Hm & Hd)%valid_bounds. unfold toordinal.
  pose proof (days_before_year_mono 1 (year d) ltac:(lia)).
  change (days_before_year 1) with 0%Z in *.
  assert (0 <= days_before_month (year d) (month d))%Z; [|lia].
  unfold days_before_month. enum_Z (month d) 1%Z 12; destruct (is_leap (year d)); done.
Qed.

Lemma prev_day_is_Some (d : datetime) :
  valid d = true -> (1 < toordinal d)%Z -> is_Some (prev_day d).
Proof.
  intros Hv Ho. pose proof Hv as (Hy & Hm & Hd)%valid_bounds.
  unfold prev_day, MINYEAR. repeat case_match; try done.
  apply Z.ltb_ge in H, H0, H1.
  assert (year d = 1 /\ month d = 1 /\ day d = 1)%Z as (Ey & Em & Ed) by lia.
  unfold toordinal in Ho. rewrite Ey, Em, Ed in Ho. by vm_compute in Ho.
Qed.

Lemma date_compare_ordinal (a b : datetime) :
  valid a = true -> valid b = true ->
  date_compare a b = (toordinal a ?= toordinal b)%Z.
Proof.
  intros (Hy & Hm & Hd)%valid_bounds (Hy' & Hm' & Hd')%valid_bounds.
  unfold date_compare, toordinal.
  assert (Hin : forall y m, (1 <= m <= 12)%Z ->
            (0 <= days_before_month y m
             /\ days_before_month y m + days_in_month y m
                <= 365 + (if is_leap y then 1 else 0))%Z).
  { intros y m Hmm. unfold days_before_month, days_in_month.
    enum_Z m 1%Z 12; destruct (is_leap y); vm_compute; split; discriminate. }
  pose proof (Hin (year a) (month a) Hm). pose proof (Hin (year b) (month b) Hm').
  symmetry.
  destruct (Z.compare_spec (year a) (year b)) as [Ey|Hlt|Hgt]; simpl.
  - rewrite Ey in *.
    destruct (Z.compare_spec (month a) (month b)) as [Em|Hmlt|Hmgt]; simpl.
    + rewrite Em. destruct (Z.compare_spec (day a) (day b)).
      * apply Z.compare_eq_iff. lia.
      * apply Z.compare_lt_iff. lia.
      * apply Z.compare_gt_iff. lia.
    + apply Z.compare_lt_iff.
      pose proof (days_before_month_mono (year b) (month a) (month b)). lia.
    + apply Z.compare_gt_iff.
      pose proof (days_before_month_mono (year b) (month b) (month a)). lia.
  - apply Z.compare_lt_iff.
    pose proof (days_before_year_succ (year a)).
    pose proof (days_before_year_mono (year a + 1) (year b)). lia.
  - apply Z.compare_gt_iff.
    pose proof (days_before_year_succ (year b)).
    pose proof (days_before_year_mono (year b + 1) (year a)). lia.
Qed.

End CalendarFacts.

(** ** The date-range drivers *)
Module DriverFacts.
Import Text Calendar Driver TextFacts CalendarFacts.

Lemma toordinal_max_date : toordinal max_date = 3652059%Z.
Proof. reflexivity. Qed.

Lemma next_day_before_max (d : datetime) :
  valid d = true -> (toordinal d < toordinal max_date)%Z -> is_Some (next_day d).
Proof.
  intros Hv Ho. pose proof Hv as (Hy & Hm & Hd)%valid_bounds.
  pose proof (days_in_month_bounds (year d) (month d)).
  unfold next_day, MAXYEAR. repeat case_match; try done.
  apply Z.ltb_ge in H0, H1, H2.
  assert (year d = 9999 /\ month d = 12)%Z as (Ey & Em) by lia.
  rewrite Ey, Em in *. change (days_in_month 9999 12) with 31%Z in *.
  assert (day d = 31%Z) as Ed by lia.
  unfold toordinal in Ho. rewrite Ey, Em, Ed in Ho. by vm_compute in Ho.
Qed.

Lemma dt_leb_ordinal (a b : datetime) :
  valid a = true -> valid b = true -> time_of_day a = time_of_day b ->
  dt_leb a b = (toordinal a <=? toordinal b)%Z.
Proof.
  intros Ha Hb Ht. unfold dt_leb, dt_compare.
  rewrite Ht, Z.compare_refl, lex_Eq_r, date_compare_ordinal by done.
  done.
Qed.

Lemma days_from_S (n : nat) (d d' : datetime) :
  next_day d = Some d' -> days_from d (S n) = d :: days_from d' n.
Proof. intros H. simpl. by rewrite H. Qed.

Lemma days_from_1 (d : datetime) : days_from d 1 = [d].
Proof. simpl. by destruct (next_day d). Qed.

Lemma days_back_S (n : nat) (d d' : datetime) :
  prev_day d = Some d' -> days_back d (S n) = d :: days_back d' n.
Proof. intros H. simpl. by rewrite H. Qed.

Lemma days_back_1 (d : datetime) : days_back d 1 = [d].
Proof. simpl. by destruct (prev_day d). Qed.

Lemma days_from_spec (n : nat) (d : datetime) :
  valid d = true -> (toordinal d + Z.of_nat n - 1 <= toordinal max_date)%Z ->
  toordinal <$> days_from d n = seqZ (toordinal d) (Z.of_nat n)
  /\ Forall (fun x => valid x = true /\ time_of_day x = time_of_day d) (days_from d n).
Proof.
  revert d. induction n as [|n IH]; intros d Hv Hmax; [done|].
  rewrite Nat2Z.inj_succ, seqZ_cons by lia.
  replace (Z.pred (Z.succ (Z.of_nat n))) with (Z.of_nat n) by lia.
  destruct n as [|n'].
  { rewrite days_from_1. split; [done|]. by repeat constructor. }
  destruct (next_day_before_max d) as [d' Hd']; [done|lia|].
  rewrite (days_from_S _ _ _ Hd').
  destruct (next_day_spec d d' Hv Hd') as (Hv' & Ho' & Ht').
  destruct (IH d' Hv') as [IH1 IH2]; [lia|].
  split.
  - rewrite fmap_cons, IH1, Ho'. done.
  - constructor; [done|]. eapply Forall_impl; [exact IH2|].
    intros x [??]. split; [done|congruence].
Qed.

Lemma days_from_length (n : nat) (d : datetime) :
  valid d = true -> (toordinal d + Z.of_nat n - 1 <= toordinal max_date)%Z ->
  length (days_from d n) = n.
Proof.
  intros Hv Hmax. destruct (days_from_spec n d Hv Hmax) as [H _].
  apply (f_equal length) in H. rewrite length_fmap, length_seqZ in H. lia.
Qed.

Lemma days_back_spec (n : nat) (d : datetime) :
  valid d = true -> (Z.of_nat n <= toordinal d)%Z ->
  toordinal <$> days_back d n = (fun i => toordinal d - i)%Z <$> seqZ 0 (Z.of_nat n)
  /\ Forall (fun x => valid x = true /\ time_of_day x = time_of_day d) (days_back d n).
Proof.
  revert d. induction n as [|n IH]; intros d Hv Hmin; [done|].
  rewrite Nat2Z.inj_succ, seqZ_cons by lia.
  replace (Z.pred (Z.succ (Z.of_nat n))) with (Z.of_nat n) by lia.
  rewrite fmap_cons, Z.sub_0_r.
  destruct n as [|n'].
  { rewrite days_back_1. split; [done|]. by repeat constructor. }
  destruct (prev_day_is_Some d) as [d' Hd']; [done|lia|].
  rewrite (days_back_S _ _ _ Hd').
  destruct (prev_day_spec d d' Hv Hd') as (Hv' & Ho' & Ht').
  destruct (IH d' Hv') as [IH1 IH2]; [lia|].
  split.
  - rewrite fmap_cons, IH1, Ho'. f_equal.
    change (Z.succ 0) with (1 + 0)%Z.
    rewrite <-(fmap_add_seqZ 1 0), <-list_fmap_compose.
    apply list_fmap_ext. intros i x _. simpl. lia.
  - constructor; [done|]. eapply Forall_impl; [exact IH2|].
    intros x [??]. split; [done|congruence].
Qed.

Lemma range_loop_spec (n fuel : nat) (s e : datetime) (acc : list string) :
  valid s = true -> valid e = true -> time_of_day s = time_of_day e ->
  (toordinal e < toordinal max_date)%Z ->
  Z.of_nat n = (toordinal e + 1 - toordinal s)%Z -> n < fuel ->
  range_loop fuel s e acc = Some (acc ++ (strftime <$> days_from s n), Returned).
Proof.
  revert fuel s acc. induction n as [|n IH]; intros fuel s acc Hs He Ht Hmax Hn Hf;
    (destruct fuel as [|fuel]; [lia|]); simpl.
  - rewrite dt_leb_ordinal by done.
    destruct (Z.leb_spec (toordinal s) (toordinal e)); [lia|].
    by rewrite app_nil_r.
  - rewrite dt_leb_ordinal by done.
    destruct (Z.leb_spec (toordinal s) (toordinal e)); [|lia].
    destruct (next_day_before_max s) as [s' Hs']; [done|lia|].
    rewrite Hs'. destruct (next_day_spec s s' Hs Hs') as (Hv' & Ho' & Ht').
    rewrite (IH fuel s') by (done || lia || congruence).
    by rewrite <-app_assoc.
Qed.

Lemma past_loop_spec (n fuel : nat) (cur start : datetime) (acc : list string) :
  valid cur = true -> valid start = true -> time_of_day cur = time_of_day start ->
  (1 < toordinal start)%Z ->
  Z.of_nat n = (toordinal cur + 1 - toordinal start)%Z -> n < fuel ->
  past_loop fuel cur start acc =
    Some {| fetched := acc ++ (strftime <$> days_back cur n); ending := Returned |}.
Proof.
  revert fuel cur acc. induction n as [|n IH]; intros fuel cur acc Hc Hs Ht Hmin Hn Hf;
    (destruct fuel as [|fuel]; [lia|]); simpl.
  - rewrite dt_leb_ordinal by done.
    destruct (Z.leb_spec (toordinal start) (toordinal cur)); [lia|].
    by rewrite app_nil_r.
  - rewrite dt_leb_ordinal by done.
    destruct (Z.leb_spec (toordinal start) (toordinal cur)); [|lia].
    destruct (prev_day_is_Some cur) as [c' Hc']; [done|lia|].
    rewrite Hc'. destruct (prev_day_spec cur c' Hc Hc') as (Hv' & Ho' & Ht').
    rewrite (IH fuel c') by (done || lia || congruence).
    by rewrite <-app_assoc.
Qed.

Lemma iter_prev_day_spec (n : nat) (d : datetime) :
  valid d = true -> (Z.of_nat n < toordinal d)%Z ->
  exists d', iter_days prev_day n d = Some d' /\ valid d' = true
             /\ toordinal d' = (toordinal d - Z.of_nat n)%Z
             /\ time_of_day d' = time_of_day d.
Proof.
  revert d. induction n as [|n IH]; intros d Hv Hn; simpl.
  - exists d. split_and!; [done|done|lia|done].
  - destruct (prev_day_is_Some d) as [c Hc]; [done|lia|].
    rewrite Hc. destruct (prev_day_spec d c Hv Hc) as (Hv' & Ho' & Ht').
    destruct (IH c Hv') as (d' & Hi & Hvd & Hod & Htd); [lia|].
    exists d'. split_and!; [done|done|lia|congruence].
Qed.

Lemma range_loop_status (fuel : nat) (s e : datetime) (acc dates : list string)
    (st : status) :
  range_loop fuel s e acc = Some (dates, st) ->
  st = Returned \/ st = Raised OverflowError.
Proof.
  revert s acc. induction fuel as [|fuel IH]; intros s acc; simpl; [done|].
  destruct (dt_leb s e); [|intros [= _ <-]; by left].
  destruct (next_day s) as [s'|]; [apply IH|].
  intros [= _ <-]. by right.
Qed.

Lemma str_gt_strftime (a b : datetime) :
  valid a = true -> valid b = true ->
  str_gt (strftime a) (strftime b) = bool_decide (date_lt b a).
Proof.
  intros Ha Hb. unfold str_gt, String.ltb.
  rewrite strftime_compare by done.
  case_bool_decide as H; unfold date_lt in H; by destruct (date_compare b a).
Qed.

Lemma date_compare_Eq (a b : datetime) :
  date_compare a b = Eq -> time_of_day a = time_of_day b -> a = b.
Proof.
  unfold date_compare. destruct a, b; simpl.
  destruct (Z.compare_spec year0 year1); try done.
  destruct (Z.compare_spec month0 month1); try done.
  destruct (Z.compare_spec day0 day1); try done.
  intros _ ->. by subst.
Qed.

Lemma toordinal_inj (a b : datetime) :
  valid a = true -> valid b = true -> time_of_day a = time_of_day b ->
  toordinal a = toordinal b -> a = b.
Proof.
  intros Ha Hb Ht Ho. apply date_compare_Eq; [|done].
  rewrite date_compare_ordinal, Ho by done. apply Z.compare_refl.
Qed.

Lemma date_lt_ordinal (a b : datetime) :
  valid a = true -> valid b = true -> date_lt a b <-> (toordinal a < toordinal b)%Z.
Proof. intros Ha Hb. unfold date_lt. by rewrite date_compare_ordinal. Qed.

Lemma date_le_ordinal (a b : datetime) :
  valid a = true -> valid b = true -> date_le a b <-> (toordinal a <= toordinal b)%Z.
Proof. intros Ha Hb. unfold date_le. by rewrite date_compare_ordinal. Qed.

Lemma strptime_well_formed (d : datetime) :
  well_formed_date d -> strptime (strftime d) = Some d.
Proof.
  intros [Hv Ht]. rewrite strptime_strftime by done.
  destruct d; simpl in *. by subst.
Qed.

(** A request whose dates pass the two checks runs the loop over the days
    from [s] to [e]. *)
Lemma range_run (fuel : nat) (now s e : datetime) :
  valid now = true -> well_formed_date s -> well_formed_date e ->
  date_le s e -> date_le e now -> date_lt now max_date ->
  days_between s e < fuel ->
  download_archives_by_range fuel now (strftime s) (strftime e) =
    Some {| fetched := strftime <$> days_from s (days_between s e); ending := Returned |}.
Proof.
  intros Hn [Hs Hts] [He Hte] Hse Hen Hmax Hf.
  apply date_le_ordinal in Hse, Hen; try done.
  apply date_lt_ordinal in Hmax; try done.
  unfold download_archives_by_range.
  rewrite !str_gt_strftime by done.
  rewrite !bool_decide_eq_false_2; cycle 1.
  { rewrite date_lt_ordinal by done. lia. }
  { rewrite date_lt_ordinal by done. lia. }
  { rewrite date_lt_ordinal by done. lia. }
  simpl. rewrite !strptime_well_formed by done.
  rewrite (range_loop_spec (days_between s e)); [done|done|done|congruence|lia| |done].
  unfold days_between. lia.
Qed.

(** C5, as amended. For a request whose start and end are calendar dates
    written zero-padded in the documented form [YYYY/MM/DD],
    [download_archives_by_range] ends with [exit(1)] (the invalid-range
    failure) if and only if the start is after the end or one of
    the two is after today; it then has handed no date to the downloader, so
    the failure precedes every network request of the driver; and when the
    range is valid it does not fail: it returns, after the downloads. *)
Theorem invalid_range_iff (fuel : nat) (now s e : datetime) :
  valid now = true -> well_formed_date s -> well_formed_date e ->
  let r := download_archives_by_range fuel now (strftime s) (strftime e) in
  let invalid := date_lt e s \/ date_lt now s \/ date_lt now e in
  ((exists o, r = Some o /\ ending o = Exited 1) <-> invalid)
  /\ (invalid -> r = Some {| fetched := []; ending := Exited 1 |})
  /\ (~ invalid -> date_lt now max_date -> days_between s e < fuel ->
      exists dates, r = Some {| fetched := dates; ending := Returned |}).
Proof.
  intros Hn Hs He r invalid.
  assert (Hbad : invalid -> r = Some {| fetched := []; ending := Exited 1 |}).
  { intros Hi. subst r. unfold download_archives_by_range.
    destruct Hs as [Hs _], He as [He _].
    rewrite !str_gt_strftime by done.
    destruct (decide (date_lt now s)); [by rewrite bool_decide_eq_true_2|].
    destruct (decide (date_lt now e));
      [by rewrite (bool_decide_eq_true_2 (date_lt now e)), orb_true_r|].
    destruct Hi as [Hi|[Hi|Hi]]; [|done..].
    rewrite !bool_decide_eq_false_2 by done. simpl.
    by rewrite bool_decide_eq_true_2. }
  assert (Hgood : ~ invalid -> date_le s e /\ date_le e now).
  { intros Hi. pose proof Hs as [Hvs _]. pose proof He as [Hve _].
    unfold invalid in Hi. rewrite !date_lt_ordinal in Hi by done.
    rewrite !date_le_ordinal by done. lia. }
  split_and!; [split|done|].
  - intros (o & Hr & Ho). destruct (decide invalid) as [|Hi]; [done|].
    exfalso. destruct (Hgood Hi) as [Hse Hen]. subst r.
    unfold download_archives_by_range in Hr.
    destruct Hs as [Hvs Hts], He as [Hve Hte].
    rewrite !str_gt_strftime in Hr by done.
    apply date_le_ordinal in Hse, Hen; try done.
    rewrite !bool_decide_eq_false_2 in Hr; cycle 1.
    { rewrite date_lt_ordinal by done. lia. }
    { rewrite date_lt_ordinal by done. lia. }
    { rewrite date_lt_ordinal by done. lia. }
    simpl in Hr. rewrite !strptime_well_formed in Hr by done.
    destruct (range_loop fuel s e []) as [[dates st]|] eqn:Hl; [|done].
    apply range_loop_status in Hl as [-> | ->]; by simplify_eq/=.
  - intros Hi. eexists. split; [by apply Hbad|done].
  - intros Hi Hmax Hf. destruct (Hgood Hi) as [Hse Hen].
    eexists. subst r. by apply range_run.
Qed.

(** C5 as stated fails on the code.  With dates that are not zero-padded,
    which [strptime] accepts, the two checks still compare text: the valid
    range from 1 September to 1 October 2023 is turned away, and the range
    from 1 October back to 1 September, whose start is after its end, is not:
    the driver returns, having downloaded nothing. *)
Lemma invalid_range_counterexample :
  let now := {| year := 2024; month := 3; day := 2; time_of_day := 0 |} in
  let sep1 := {| year := 2023; month := 9; day := 1; time_of_day := 0 |} in
  let oct1 := {| year := 2023; month := 10; day := 1; time_of_day := 0 |} in
  strptime "2023/9/1" = Some sep1 /\ strptime "2023/10/01" = Some oct1
  /\ date_lt sep1 oct1 /\ date_lt oct1 now
  /\ download_archives_by_range 100 now "2023/9/1" "2023/10/01"
       = Some {| fetched := []; ending := Exited 1 |}
  /\ download_archives_by_range 100 now "2023/10/01" "2023/9/1"
       = Some {| fetched := []; ending := Returned |}.
Proof. by vm_compute. Qed.

Lemma days_from_elem (n : nat) (s d : datetime) :
  valid s = true -> (toordinal s + Z.of_nat n - 1 <= toordinal max_date)%Z ->
  valid d = true -> time_of_day d = time_of_day s ->
  (toordinal s <= toordinal d < toordinal s + Z.of_nat n)%Z ->
  exists i, days_from s n !! i = Some d /\ Z.of_nat i = (toordinal d - toordinal s)%Z.
Proof.
  intros Hs Hmax Hd Ht Ho.
  destruct (days_from_spec n s Hs Hmax) as [Hord Hall].
  set (i := Z.to_nat (toordinal d - toordinal s)).
  assert (Hi : (toordinal <$> days_from s n) !! i = Some (toordinal d)).
  { rewrite Hord. replace (toordinal d) with (toordinal s + Z.of_nat i)%Z by lia.
    apply lookup_seqZ. split; [done|lia]. }
  rewrite list_lookup_fmap in Hi.
  destruct (days_from s n !! i) as [x|] eqn:Hx; [|done].
  injection Hi as Hi. exists i. split; [|lia].
  rewrite Forall_lookup in Hall. destruct (Hall i x Hx) as [Hvx Htx].
  rewrite Hx. f_equal. apply toordinal_inj; [done|done|congruence|done].
Qed.

(** C6. For a valid request the dates handed to the downloader are those of
    the requested mode.  An explicit pair [s <= e <= today] expands to the days
    from [s] to [e]: their day numbers are consecutive and ascending, the first
    is [s], the last is [e], and every calendar date between the two is among
    them.  A trailing request for [N] days expands to [N+1] days, today first,
    each the day before its predecessor.  (The last day of year 9999 as today,
    and a window reaching back to the first day of year 1, are outside what
    [datetime] can step over.) *)
Theorem date_sequences :
  (forall (fuel : nat) (now s e : datetime),
     valid now = true -> well_formed_date s -> well_formed_date e ->
     date_le s e -> date_le e now -> date_lt now max_date ->
     days_between s e < fuel ->
     let dates := days_from s (days_between s e) in
     download_archives_by_range fuel now (strftime s) (strftime e)
       = Some {| fetched := strftime <$> dates; ending := Returned |}
     /\ toordinal <$> dates = seqZ (toordinal s) (toordinal e - toordinal s + 1)
     /\ head dates = Some s /\ last dates = Some e
     /\ Forall well_formed_date dates
     /\ (forall d, well_formed_date d -> date_le s d -> date_le d e -> d ∈ dates))
  /\ (forall (fuel : nat) (now : datetime) (N : nat),
        valid now = true -> (Z.of_nat N + 1 < toordinal now)%Z -> N + 1 < fuel ->
        let dates := days_back now (N + 1) in
        download_past_n_days fuel now (Z.of_nat N)
          = Some {| fetched := strftime <$> dates; ending := Returned |}
        /\ length dates = N + 1
        /\ toordinal <$> dates = (fun i => toordinal now - i)%Z <$> seqZ 0 (Z.of_nat (N + 1))
        /\ head dates = Some now
        /\ Forall (fun d => valid d = true) dates).
Proof.
  split.
  - intros fuel now s e Hn Hs He Hse Hen Hmax Hf dates.
    pose proof Hs as [Hvs Hts]. pose proof He as [Hve Hte].
    pose proof Hse as Hse'. pose proof Hen as Hen'. pose proof Hmax as Hmax'.
    apply date_le_ordinal in Hse', Hen'; try done.
    apply date_lt_ordinal in Hmax'; try done.
    assert (Hn' : Z.of_nat (days_between s e) = (toordinal e - toordinal s + 1)%Z)
      by (unfold days_between; lia).
    destruct (days_from_spec (days_between s e) s Hvs) as [Hord Hall]; [lia|].
    fold dates in Hord, Hall. rewrite Hn' in Hord.
    split_and!.
    + by apply range_run.
    + done.
    + destruct (days_from_elem (days_between s e) s s) as (i & Hi & Hz);
        [done|lia|done|done|lia|].
      assert (i = 0) as -> by lia. fold dates in Hi. by destruct dates.
    + destruct (days_from_elem (days_between s e) s e) as (i & Hi & Hz);
        [done|lia|done|congruence|lia|].
      fold dates in Hi. rewrite last_lookup.
      replace (Init.Nat.pred (length dates)) with i; [done|].
      unfold dates. rewrite days_from_length by (done || lia). lia.
    + eapply Forall_impl; [exact Hall|]. intros x [Hx Hxt]. split; [done|congruence].
    + intros d [Hvd Htd] Hsd Hde.
      apply date_le_ordinal in Hsd, Hde; try done.
      destruct (days_from_elem (days_between s e) s d) as (i & Hi & _);
        [done|lia|done|congruence|lia|].
      by eapply list_elem_of_lookup_2.
  - intros fuel now N Hn Hmin Hf dates.
    destruct (iter_prev_day_spec N now Hn) as (start & Hst & Hvs & Hos & Hts); [lia|].
    destruct (days_back_spec (N + 1) now Hn) as [Hord Hall]; [lia|].
    fold dates in Hord, Hall.
    split_and!.
    + unfold download_past_n_days, sub_days.
      rewrite (proj2 (Z.leb_le 0 (Z.of_nat N))) by lia.
      rewrite Nat2Z.id, Hst.
      rewrite (past_loop_spec (N + 1)); [done|done|done|congruence|lia|lia|done].
    + apply (f_equal length) in Hord. rewrite !length_fmap, length_seqZ in Hord. lia.
    + done.
    + unfold dates. by replace (N + 1) with (S N) by lia.
    + eapply Forall_impl; [exact Hall|]. by intros x [Hx _].
Qed.

(** C5 at a concrete request: on 2024-03-02, the range 2024-02-27 to
    2024-03-01. *)
Lemma invalid_range_iff_witness :
  let now := {| year := 2024; month := 3; day := 2; time_of_day := 0 |} in
  let s := {| year := 2024; month := 2; day := 27; time_of_day := 0 |} in
  let e := {| year := 2024; month := 3; day := 1; time_of_day := 0 |} in
  (exists o, download_archives_by_range 10 now (strftime s) (strftime e) = Some o
             /\ ending o = Exited 1)
  <-> (date_lt e s \/ date_lt now s \/ date_lt now e).
Proof.
  intros now s e.
  exact (proj1 (invalid_range_iff 10 now s e eq_refl (conj eq_refl eq_refl)
                  (conj eq_refl eq_refl))).
Defined.

(** C6 at the same request: the four days of the range, leap day included. *)
Lemma date_sequences_witness :
  let now := {| year := 2024; month := 3; day := 2; time_of_day := 0 |} in
  download_archives_by_range 10 now "2024/02/27" "2024/03/01"
    = Some {| fetched := ["2024/02/27"; "2024/02/28"; "2024/02/29"; "2024/03/01"];
              ending := Returned |}.
Proof.
  intros now.
  pose (s := {| year := 2024; month := 2; day := 27; time_of_day := 0 |}).
  pose (e := {| year := 2024; month := 3; day := 1; time_of_day := 0 |}).
  refine (proj1 (proj1 date_sequences 10 now s e eq_refl (conj eq_refl eq_refl)
                   (conj eq_refl eq_refl) _ _ _ _)); try done.
  vm_compute. lia.
Defined.

End DriverFacts.

(** ** The concatenator *)
Module ConcatFacts.
Import Text Calendar Concat TextFacts CalendarFacts.

Lemma has_slash_app (a b : string) : has_slash (a +:+ b) = has_slash a || has_slash b.
Proof.
  induction a as [|c a IH]; [done|].
  rewrite string_app_cons. simpl. by rewrite IH, orb_assoc.
Qed.


Lemma basename_child (d name : string) :
  has_slash name = false -> basename (d +:+ "/" +:+ name) = name.
Proof.
  intros Hn. induction d as [|c d IH].
  - rewrite string_app_nil_l. change ("/" +:+ name) with (String "/" name).
    simpl. by rewrite Hn.
  - rewrite string_app_cons. simpl.
    rewrite has_slash_app. change ("/" +:+ name) with (String "/" name). simpl.
    by rewrite orb_true_r.
Qed.

Lemma strip_prefix_spec (p s r : string) : strip_prefix p s = Some r <-> s = p +:+ r.
Proof.
  revert s. induction p as [|a p IH]; intros s.
  - simpl. rewrite string_app_nil_l. split; congruence.
  - rewrite string_app_cons. destruct s as [|b s]; simpl; [done|].
    destruct (Ascii.eqb_spec a b) as [->|Hne].
    + rewrite IH. split; congruence.
    + split; [done|]. congruence.
Qed.

Lemma glob_match_spec (directory p : string) :
  glob_match directory p = true <->
  exists name, p = directory +:+ "/" +:+ name /\ has_slash name = false /\ name <> ""
               /\ matches_star_mp3 name = true.
Proof.
  unfold glob_match, child_name. split.
  - destruct (strip_prefix _ p) as [name|] eqn:E; [|done].
    apply strip_prefix_spec in E. rewrite string_app_assoc in E.
    destruct (has_slash name) eqn:Hs; [done|]. simpl.
    case_bool_decide; [done|]. intros Hm. by exists name.
  - intros (name & -> & Hs & Hne & Hm).
    rewrite (proj2 (strip_prefix_spec (directory +:+ "/") _ name))
      by (by rewrite string_app_assoc).
    by rewrite Hs, bool_decide_eq_false_2.
Qed.






Lemma strptime_valid (s : string) (d : datetime) : strptime s = Some d -> valid d = true.
Proof.
  unfold strptime. repeat case_match; try done. by intros [= <-].
Qed.

Lemma digit_char_not_slash (a : N) : Ascii.eqb (pretty_N_char a) "/" = false.
Proof. unfold pretty_N_char. by repeat case_match. Qed.


























End ConcatFacts.

(** ** The fetch pool *)
Module FetchPoolFacts.
Import Calendar FetchPool.

Section PoolFacts.

Variable respond : string -> fetch_result.

Lemma download_mp3_effect (u dir : string) (w : world) :
  let w' := (download_mp3 respond u dir w).1 in
  requests w' = requests w ++ [u]
  /\ console w' = console w ++ failure_log respond u
  /\ files w' = match target respond dir u with
                | Some (p, c) => <[p := c]> (files w)
                | None => files w
                end.
Proof.
  unfold download_mp3, failure_log, target.
  destruct (respond u) as [r|]; simpl; [|by rewrite app_nil_r].
  destruct (status_code r =? 200)%Z; simpl; [by rewrite app_nil_r|done].
Qed.

Lemma run_tasks_log (l : list string) (dir : string) (w : world) :
  requests (run_tasks respond l dir w) = requests w ++ l
  /\ console (run_tasks respond l dir w) = console w ++ concat (failure_log respond <$> l).
Proof.
  revert w. induction l as [|u l IH]; intros w; simpl.
  - by rewrite !app_nil_r.
  - destruct (IH (download_mp3 respond u dir w).1) as [-> ->].
    destruct (download_mp3_effect u dir w) as (-> & -> & _).
    by rewrite <-!app_assoc.
Qed.

(** A path holds what the last successful fetch stored there, or what it held
    before when no fetch stored anything there. *)
Lemma run_tasks_files (l : list string) (dir : string) (w : world) (p : string) :
  (files (run_tasks respond l dir w) !! p = files w !! p
   /\ forall u c, u ∈ l -> target respond dir u <> Some (p, c))
  \/ (exists u c, u ∈ l /\ target respond dir u = Some (p, c)
                  /\ files (run_tasks respond l dir w) !! p = Some c).
Proof.
  revert w. induction l as [|u l IH]; intros w; simpl.
  - left. split; [done|]. by intros u c ?%elem_of_nil.
  - destruct (IH (download_mp3 respond u dir w).1) as [[Heq Hno]|(u' & c & Hu' & Ht & Hf)].
    + destruct (download_mp3_effect u dir w) as (_ & _ & Hfiles).
      rewrite Heq, Hfiles. clear Heq Hfiles.
      destruct (target respond dir u) as [[p0 c0]|] eqn:Ht.
      * destruct (decide (p0 = p)) as [->|Hne].
        -- right. exists u, c0. rewrite lookup_insert_eq. split_and!; [by left|done|done].
        -- left. rewrite lookup_insert_ne by done. split; [done|].
           intros u' c [->|Hin]%elem_of_cons; [congruence|by apply Hno].
      * left. split; [done|].
        intros u' c [->|Hin]%elem_of_cons; [congruence|by apply Hno].
    + right. exists u', c. split_and!; [by right|done|done].
Qed.

End PoolFacts.




End FetchPoolFacts.


(** ** More on the fusion loop *)
Module FusionMore.
Import Text Fusion TextFacts FusionFacts.

Lemma overlap_duration_pos (t : TranscriptionSegment) (d : DiarizationSegment) :
  (0 < overlap_duration t d)%Q <->
  (t_start t < t_end t /\ t_start t < d_end d /\ d_start d < t_end t
   /\ d_start d < d_end d)%Q.
Proof.
  unfold overlap_duration.
  set (lo := Qmax (t_start t) (d_start d)). set (hi := Qmin (t_end t) (d_end d)).
  assert (Hlo : forall x, (lo < x <-> t_start t < x /\ d_start d < x)%Q)
    by (intros x; apply Q.max_lub_lt_iff).
  assert (Hhi : forall x, (x < hi <-> x < t_end t /\ x < d_end d)%Q)
    by (intros x; apply Q.min_glb_lt_iff).
  assert (Hpos : (0 < Qmax 0 (hi - lo) <-> lo < hi)%Q).
  { rewrite Q.max_lt_iff. split.
    - intros [H|H]; [by apply Qlt_irrefl in H|]. by apply (Qlt_minus_iff lo hi).
    - intros H. right. by apply (Qlt_minus_iff lo hi). }
  rewrite Hpos. split.
  - intros H. pose proof (proj1 (Hhi lo) H) as [H1 H2].
    apply Hlo in H1 as [??], H2 as [??]. done.
  - intros (H1 & H2 & H3 & H4). apply Hhi. split; apply Hlo; done.
Qed.

(** X2. The three conditions of lines 381-383 miss no real overlap: a
    diarization segment that shares a stretch of positive length with the
    transcription segment passes the test, whatever the two intervals are.
    For intervals that do not end before they start, a segment that passes
    the test at least touches the transcription segment.  So a segment that
    the loop leaves without overlap ([SPEAKER_UNK]) shares no stretch of
    time with any diarization segment, and a segment that shares one with
    some diarization segment gets the label of a diarization segment. *)
Theorem overlap_detection (t : TranscriptionSegment) (ds : list DiarizationSegment) :
  (forall d, (0 < overlap_duration t d)%Q -> overlaps t d = true)
  /\ (forall d, (t_start t <= t_end t)%Q -> (d_start d <= d_end d)%Q ->
        overlaps t d = true ->
        (Qmax (t_start t) (d_start d) <= Qmin (t_end t) (d_end d))%Q)
  /\ (find_overlap t ds = None -> forall d, d ∈ ds -> (overlap_duration t d == 0)%Q)
  /\ (forall d, d ∈ ds -> (0 < overlap_duration t d)%Q ->
        exists d', d' ∈ ds /\ find_overlap t ds = Some d'
                   /\ select_speaker ds t = get_label d').
Proof.
  assert (Hpos : forall d, (0 < overlap_duration t d)%Q -> overlaps t d = true).
  { intros d (H1 & H2 & H3 & H4)%overlap_duration_pos.
    apply overlaps_iff. unfold overlap_cond.
    destruct (Qlt_le_dec (t_start t) (d_start d)) as [Hs|Hs]; [|by left].
    right. destruct (Qlt_le_dec (d_end d) (t_end t)) as [He|He]; [right|by left].
    split; by apply Qlt_le_weak. }
  split_and!; [done| | |].
  - intros d Ht Hd Ho%overlaps_iff.
    apply Q.min_glb; apply Q.max_lub; try done;
      destruct Ho as [[H1 H2]|[[H1 H2]|[H1 H2]]];
      try (by apply Qlt_le_weak); by eapply Qle_trans.
  - intros Hnone d Hd.
    destruct (Qlt_le_dec 0 (overlap_duration t d)) as [Hp|Hle].
    + apply Hpos, overlaps_iff in Hp.
      rewrite find_overlap_None, Forall_forall in Hnone. by destruct (Hnone d Hd).
    + apply Qle_antisym; [done|]. unfold overlap_duration. apply Q.le_max_l.
  - intros d Hd Hp%Hpos%overlaps_iff. unfold select_speaker.
    destruct (find_overlap t ds) as [d'|] eqn:Hf.
    + exists d'. split; [|done].
      apply find_overlap_Some in Hf as (pre & post & -> & _). set_solver.
    + rewrite find_overlap_None, Forall_forall in Hf. by destruct (Hf d Hd).
Qed.

(** X2 on a transcription segment from 0 to 2 and a diarization segment
    from 1 to 3: they share one second, and the test finds it. *)
Lemma overlap_detection_witness :
  overlaps {| t_start := 0; t_end := 2; t_text := "a"; t_seek := 0 |}
           {| d_start := 1; d_end := 3; get_label := "X" |} = true.
Proof.
  exact (proj1 (overlap_detection {| t_start := 0; t_end := 2; t_text := "a"; t_seek := 0 |} [])
           {| d_start := 1; d_end := 3; get_label := "X" |} eq_refl).
Defined.

(** X3. The [text] field of the JSON transcript is made of the texts of the
    entries of its [segments] field, in order, each followed by one space
    (the last one too); these are the texts of the transcription segments. *)
Theorem json_text_of_entries (ts : list TranscriptionSegment)
    (ds : list DiarizationSegment) :
  json_text (run ts ds) = concat_str ((fun e => e_text e +:+ " ") <$> fuse ts ds)
  /\ json_text (run ts ds) = concat_str ((fun t => t_text t +:+ " ") <$> ts).
Proof.
  assert (H : json_text (run ts ds) = concat_str ((fun t => t_text t +:+ " ") <$> ts)).
  { induction ts as [|t ts IH] using rev_ind; [done|].
    rewrite run_snoc, fmap_app, concat_str_app. unfold step at 1.
    destruct (assign _ _ _). cbn [json_text]. rewrite IH.
    unfold concat_str at 3. simpl. by rewrite string_app_nil_r. }
  split; [|done]. rewrite H. f_equal.
  pose proof (fuse_fields ts ds) as Hf.
  apply list_eq. intros i. rewrite !list_lookup_fmap.
  apply (f_equal (fun l => l !! i)) in Hf. rewrite !list_lookup_fmap in Hf.
  destruct (fuse ts ds !! i) as [e|], (ts !! i) as [t|]; simplify_eq/=; [|done].
  unfold entry_fields, segment_fields in Hf. injection Hf as -> _ _ _. done.
Qed.

End FusionMore.

(** ** Splitting and filtering text *)
Module WordsFacts.
Import Text Words TextFacts.

Lemma split_on_not_nil (sep : ascii) (s : string) : split_on sep s <> [].
Proof. induction s as [|c s IH]; simpl; [done|]. repeat case_match; done. Qed.

Lemma split_on_length (sep : ascii) (s : string) :
  length (split_on sep s) = S (count_char sep s).
Proof.
  induction s as [|c s IH]; simpl; [done|].
  destruct (Ascii.eqb c sep); simpl; [by rewrite IH|].
  destruct (split_on sep s) eqn:E; simpl in *; [done|lia].
Qed.

Lemma split_on_none (sep : ascii) (s : string) :
  count_char sep s = 0 -> split_on sep s = [s].
Proof.
  induction s as [|c s IH]; simpl; [done|].
  destruct (Ascii.eqb c sep); simpl; [done|]. intros H. by rewrite IH.
Qed.

Lemma split_on_app (sep : ascii) (a b : string) :
  count_char sep a = 0 ->
  split_on sep (a +:+ String sep b) = a :: split_on sep b.
Proof.
  induction a as [|c a IH].
  - intros _. rewrite string_app_nil_l. cbn [split_on]. by rewrite Ascii.eqb_refl.
  - rewrite string_app_cons. cbn [split_on count_char].
    destruct (Ascii.eqb c sep); [done|]. intros H. by rewrite IH.
Qed.

Lemma count_char_app (c : ascii) (a b : string) :
  count_char c (a +:+ b) = count_char c a + count_char c b.
Proof.
  induction a as [|x a IH]; [by rewrite string_app_nil_l|].
  rewrite string_app_cons. simpl. rewrite IH. lia.
Qed.

(** A split into two pieces: the string has the separator once, between
    the two. *)
Lemma split_on_two (sep : ascii) (s a b : string) :
  split_on sep s = [a; b] <->
  s = a +:+ String sep b /\ count_char sep a = 0 /\ count_char sep b = 0.
Proof.
  split.
  - revert a. induction s as [|c s IH]; intros a; cbn [split_on]; [done|].
    destruct (Ascii.eqb_spec c sep) as [->|Hne].
    + intros [= <- Hb].
      assert (count_char sep s = 0) as Hc.
      { pose proof (split_on_length sep s) as Hl. rewrite Hb in Hl. simpl in Hl. lia. }
      rewrite split_on_none in Hb by done. injection Hb as <-.
      by rewrite string_app_nil_l.
    + destruct (split_on sep s) as [|p rest] eqn:E; [done|].
      intros [= <- ->]. destruct (IH p eq_refl) as (-> & Hp & Hb).
      rewrite string_app_cons. split_and!; [done| |done].
      cbn [count_char]. by destruct (Ascii.eqb_spec c sep).
  - intros (-> & Ha & Hb). by rewrite split_on_app, split_on_none.
Qed.

(** Dropping a character that does not occur changes nothing. *)
Lemma remove_char_id (c : ascii) (s : string) :
  count_char c s = 0 -> remove_char c s = s.
Proof.
  induction s as [|a s IH]; [done|]. cbn [count_char remove_char].
  destruct (Ascii.eqb a c); [done|]. intros H. by rewrite IH.
Qed.

Lemma remove_char_app (c : ascii) (a b : string) :
  remove_char c (a +:+ b) = remove_char c a +:+ remove_char c b.
Proof.
  induction a as [|x a IH]; [by rewrite !string_app_nil_l|].
  rewrite string_app_cons. cbn [remove_char].
  destruct (Ascii.eqb x c); [done|]. by rewrite string_app_cons, IH.
Qed.

Lemma remove_char_length (c : ascii) (s : string) :
  String.length (remove_char c s) + count_char c s = String.length s.
Proof.
  induction s as [|a s IH]; [done|]. cbn [count_char remove_char].
  destruct (Ascii.eqb a c); simpl; lia.
Qed.

End WordsFacts.

(** ** More on the range driver *)
Module DriverMore.
Import Text Calendar Driver TextFacts CalendarFacts DriverFacts ConcatFacts.

Lemma strptime_midnight (s : string) (d : datetime) :
  strptime s = Some d -> time_of_day d = 0%Z.
Proof.
  unfold strptime. intros H. repeat case_match; simplify_eq/=; done.
Qed.

Lemma toordinal_le_max (d : datetime) :
  valid d = true -> (toordinal d <= toordinal max_date)%Z.
Proof.
  intros Hv. pose proof Hv as (Hy & Hm & Hd)%valid_bounds.
  pose proof (days_in_month_bounds (year d) (month d)) as Hb.
  pose proof (date_compare_ordinal d max_date Hv eq_refl) as Hc.
  destruct (Z.compare_spec (toordinal d) (toordinal max_date)) as [E|L|G]; [lia|lia|].
  exfalso. unfold date_compare, max_date, MAXYEAR in Hc. cbn [year month day] in Hc.
  destruct (Z.compare_spec (year d) 9999); cbn [lex] in Hc; [|done|lia].
  destruct (Z.compare_spec (month d) 12); cbn [lex] in Hc; [|done|lia].
  destruct (Z.compare_spec (day d) 31); cbn [lex] in Hc; [done|done|lia].
Qed.

(** X24. A range whose two dates pass the two text checks and are accepted
    by [strptime], zero-padded or not: the days downloaded are the calendar
    days from the parsed start to the parsed end, in ascending order, each
    printed zero-padded; there is none when the parsed start is after the
    parsed end. *)
Theorem range_follows_parsed_dates (fuel : nat) (now : datetime) (s e : string)
    (ds de : datetime) :
  str_gt s (strftime now) = false -> str_gt e (strftime now) = false ->
  str_gt s e = false ->
  strptime s = Some ds -> strptime e = Some de ->
  (toordinal de < toordinal max_date)%Z ->
  let n := Z.to_nat (toordinal de + 1 - toordinal ds) in
  n < fuel ->
  download_archives_by_range fuel now s e =
    Some {| fetched := strftime <$> days_from ds n; ending := Returned |}
  /\ length (days_from ds n) = n
  /\ toordinal <$> days_from ds n = seqZ (toordinal ds) (Z.of_nat n).
Proof.
  intros Hs He Hse Hds Hde Hmax n Hf.
  pose proof (strptime_valid _ _ Hds) as Hvs. pose proof (strptime_valid _ _ Hde) as Hve.
  pose proof (strptime_midnight _ _ Hds) as Hts.
  pose proof (strptime_midnight _ _ Hde) as Hte.
  pose proof (toordinal_le_max ds Hvs) as Hds_max.
  destruct (days_from_spec n ds Hvs) as [Hord _]; [unfold n; lia|].
  split_and!; [| |done].
  - unfold download_archives_by_range. rewrite Hs, He, Hse, Hds, Hde. cbn [orb].
    destruct (Z.le_gt_cases (toordinal ds) (toordinal de + 1)) as [Hle|Hgt].
    + rewrite (range_loop_spec n); [done|done|done|congruence|done|unfold n; lia|done].
    + destruct fuel as [|fuel]; [lia|]. cbn [range_loop].
      rewrite dt_leb_ordinal by (done || congruence).
      rewrite (proj2 (Z.leb_gt (toordinal ds) (toordinal de))) by lia.
      by replace n with 0 by (unfold n; lia).
  - apply (f_equal length) in Hord. rewrite length_fmap, length_seqZ in Hord. lia.
Qed.

(** X24 on 12 March 2024 for a range from [2024/03/ 1] to [2024/03/1]. *)
Lemma range_follows_parsed_dates_witness :
  download_archives_by_range 10 {| year := 2024; month := 3; day := 12; time_of_day := 0 |}
    "2024/03/ 1" "2024/03/1" =
    Some {| fetched := ["2024/03/01"]; ending := Returned |}.
Proof.
  refine (proj1 (range_follows_parsed_dates 10
                   {| year := 2024; month := 3; day := 12; time_of_day := 0 |}
                   "2024/03/ 1" "2024/03/1"
                   {| year := 2024; month := 3; day := 1; time_of_day := 0 |}
                   {| year := 2024; month := 3; day := 1; time_of_day := 0 |}
                   eq_refl eq_refl eq_refl eq_refl eq_refl _ _)).
  - by vm_compute.
  - vm_compute. lia.
Defined.
End DriverMore.

(** ** The command and its drivers *)
Module CommandFacts.
Import Text Calendar Words Command TextFacts CalendarFacts DriverFacts WordsFacts
  ConcatFacts.

Lemma for_dates_ok (returns : list event -> bool) (dates : list string)
    (log : list event) :
  (forall l, returns l = true) ->
  for_dates returns dates log = {| trace := log ++ (Archive <$> dates); result := Returns |}.
Proof.
  intros Hall. revert log. induction dates as [|d dates IH]; intros log; simpl.
  - by rewrite app_nil_r.
  - rewrite Hall, IH, <-app_assoc. done.
Qed.

Lemma all_loop_spec (n fuel : nat) (cur start : datetime) (acc : list string) :
  valid cur = true -> valid start = true -> time_of_day cur = time_of_day start ->
  (1 < toordinal start)%Z ->
  Z.of_nat n = (toordinal cur + 1 - toordinal start)%Z -> n < fuel ->
  all_loop fuel cur start acc = Some (Some (acc ++ (strftime <$> Driver.days_back cur n))).
Proof.
  revert fuel cur acc. induction n as [|n IH]; intros fuel cur acc Hc Hs Ht Hmin Hn Hf;
    (destruct fuel as [|fuel]; [lia|]); simpl.
  - rewrite dt_leb_ordinal by done.
    destruct (Z.leb_spec (toordinal start) (toordinal cur)); [lia|].
    by rewrite app_nil_r.
  - rewrite dt_leb_ordinal by done.
    destruct (Z.leb_spec (toordinal start) (toordinal cur)); [|lia].
    destruct (prev_day_is_Some cur) as [c' Hc']; [done|lia|].
    rewrite Hc'. destruct (prev_day_spec cur c' Hc Hc') as (Hv' & Ho' & Ht').
    rewrite (IH fuel c') by (done || lia || congruence).
    by rewrite <-app_assoc.
Qed.

(** The trailing-days loop when every call returns. *)
Lemma past_loop_all_return (returns : list event -> bool) (n fuel : nat) (o : options)
    (cur start : datetime) (dirs : list string) (log : list event) :
  (forall l, returns l = true) ->
  valid cur = true -> valid start = true -> time_of_day cur = time_of_day start ->
  (1 < toordinal start)%Z ->
  Z.of_nat n = (toordinal cur + 1 - toordinal start)%Z -> n < fuel ->
  let dates := Driver.days_back cur n in
  past_loop returns fuel o cur start dirs log =
    Some (dirs ++ (if transcribe o then date_directory o <$> dates else []),
          {| trace := log ++ concat (download_events <$> dates); result := Returns |}).
Proof.
  intros Hall. revert fuel cur dirs log.
  induction n as [|n IH]; intros fuel cur dirs log Hc Hs Ht Hmin Hn Hf;
    (destruct fuel as [|fuel]; [lia|]); cbn [past_loop].
  - rewrite dt_leb_ordinal by done.
    destruct (Z.leb_spec (toordinal start) (toordinal cur)); [lia|].
    simpl. rewrite !app_nil_r. by destruct (transcribe o); rewrite ?app_nil_r.
  - rewrite dt_leb_ordinal by done.
    destruct (Z.leb_spec (toordinal start) (toordinal cur)); [|lia].
    destruct (prev_day_is_Some cur) as [c' Hc']; [done|lia|].
    rewrite Hall, Hc'.
    destruct (prev_day_spec cur c' Hc Hc') as (Hv' & Ho' & Ht').
    rewrite (IH fuel c') by (done || lia || congruence).
    rewrite (days_back_S _ _ _ Hc'). cbn zeta.
    rewrite !fmap_cons, concat_cons. unfold download_events at 2, date_directory at 2.
    f_equal. f_equal.
    + destruct (transcribe o); [|done]. by rewrite <-app_assoc.
    + f_equal. by rewrite <-!app_assoc.
Qed.

Lemma transcribe_all_spec (returns : list event -> bool) (o : options)
    (dates : list datetime) (log : list event) :
  (forall l, returns l = true) ->
  transcribe_all returns (date_directory o <$> dates) log =
    {| trace := log ++ concat (transcribe_events o <$> dates); result := Returns |}.
Proof.
  intros Hall. revert log. induction dates as [|d dates IH]; intros log; simpl.
  - by rewrite app_nil_r.
  - rewrite Hall, IH. by rewrite <-!app_assoc.
Qed.

Lemma iter_next_day_spec (n : nat) (d : datetime) :
  valid d = true -> (toordinal d + Z.of_nat n <= toordinal Driver.max_date)%Z ->
  exists d', iter_days next_day n d = Some d' /\ valid d' = true
             /\ toordinal d' = (toordinal d + Z.of_nat n)%Z
             /\ time_of_day d' = time_of_day d.
Proof.
  revert d. induction n as [|n IH]; intros d Hv Hn; simpl.
  - exists d. split_and!; [done|done|lia|done].
  - destruct (next_day_before_max d) as [c Hc]; [done|lia|].
    rewrite Hc. destruct (next_day_spec d c Hv Hc) as (Hv' & Ho' & Ht').
    destruct (IH c Hv') as (d' & Hi & Hvd & Hod & Htd); [lia|].
    exists d'. split_and!; [done|done|lia|congruence].
Qed.

(** Stepping back from the first day of the calendar overflows. *)
Lemma prev_day_first (d : datetime) :
  valid d = true -> toordinal d = 1%Z -> prev_day d = None.
Proof.
  intros Hv Ho. destruct (prev_day d) as [d'|] eqn:Hp; [|done].
  destruct (prev_day_spec d d' Hv Hp) as (Hv' & Ho' & _).
  pose proof (toordinal_pos d' Hv'). lia.
Qed.

Lemma iter_prev_day_overflow (n : nat) (d : datetime) :
  valid d = true -> (toordinal d <= Z.of_nat n)%Z -> iter_days prev_day n d = None.
Proof.
  revert d. induction n as [|n IH]; intros d Hv Hn.
  { pose proof (toordinal_pos d Hv). lia. }
  simpl. destruct (prev_day d) as [d'|] eqn:Hp; [|done].
  destruct (prev_day_spec d d' Hv Hp) as (Hv' & Ho' & _).
  apply IH; [done|lia].
Qed.

Lemma days_back_facts (now : datetime) (n : nat) :
  valid now = true -> (Z.of_nat n + 1 < toordinal now)%Z ->
  let dates := Driver.days_back now (n + 1) in
  length dates = n + 1 /\ head dates = Some now
  /\ toordinal <$> dates = (fun i => toordinal now - i)%Z <$> seqZ 0 (Z.of_nat (n + 1)).
Proof.
  intros Hn Hmin dates.
  destruct (days_back_spec (n + 1) now Hn) as [Hord _]; [lia|]. fold dates in Hord.
  split_and!; [|by unfold dates; replace (n + 1) with (S n) by lia|done].
  apply (f_equal length) in Hord. rewrite !length_fmap, length_seqZ in Hord. lia.
Qed.

(** X4. A trailing request for [N >= 0] days, when every call returns: the
    [N+1] days from today backwards are downloaded one after the other, each
    announced by its line; only after the last download, and only with
    [--transcribe], the per-date directories of the same days are
    transcribed, in the same order, today first; the run ends with
    [All operations completed.].  (The window must stay after the first day
    of year 1.) *)
Theorem past_days_trace (returns : list event -> bool) (fuel : nat) (now : datetime)
    (o : options) (N : nat) (log : list event) :
  (forall l, returns l = true) ->
  valid now = true -> (Z.of_nat N + 1 < toordinal now)%Z -> N + 1 < fuel ->
  let dates := Driver.days_back now (N + 1) in
  download_past_n_days returns fuel now o (Z.of_nat N) log =
    Some {| trace :=
              log ++ concat (download_events <$> dates)
              ++ [Say ("Download complete for the past " +:+ pretty (Z.of_nat N)
                       +:+ " days: " +:+ output_dir o +:+ "/" +:+ feed_id o)]
              ++ (if transcribe o then concat (transcribe_events o <$> dates) else [])
              ++ [Say "All operations completed."];
            result := Returns |}
  /\ length dates = N + 1 /\ head dates = Some now
  /\ toordinal <$> dates = (fun i => toordinal now - i)%Z <$> seqZ 0 (Z.of_nat (N + 1)).
Proof.
  intros Hall Hn Hmin Hf dates. split; [|by apply days_back_facts].
  destruct (iter_prev_day_spec N now Hn) as (start & Hst & Hvs & Hos & Hts); [lia|].
  unfold download_past_n_days, sub_days.
  rewrite (proj2 (Z.leb_le 0 (Z.of_nat N))) by lia.
  rewrite Nat2Z.id, Hst.
  rewrite (past_loop_all_return returns (N + 1)); [|done|done|done|congruence|lia|lia|lia].
  fold dates. cbn [result trace app].
  destruct (transcribe o).
  - rewrite transcribe_all_spec by done. cbn [result trace].
    by rewrite <-!app_assoc.
  - cbn [result trace]. by rewrite <-!app_assoc.
Qed.

(** X5. The two ends of the trailing window.  A negative number of days
    downloads nothing and transcribes nothing, [--transcribe] or not: the
    run prints its two closing lines and returns.  A number of days that
    reaches back to before the first day of year 1 raises [OverflowError]
    when the start of the window is computed, before anything is printed or
    downloaded. *)
Theorem past_days_out_of_window (returns : list event -> bool) (fuel : nat)
    (now : datetime) (o : options) (log : list event) :
  valid now = true ->
  (forall k : Z, (0 < k)%Z -> (toordinal now + k <= toordinal Driver.max_date)%Z ->
     0 < fuel ->
     download_past_n_days returns fuel now o (- k) log =
       Some {| trace := log ++
                 [Say ("Download complete for the past " +:+ pretty (- k)%Z
                       +:+ " days: " +:+ output_dir o +:+ "/" +:+ feed_id o);
                  Say "All operations completed."];
               result := Returns |})
  /\ (forall n : Z, (toordinal now <= n)%Z ->
        download_past_n_days returns fuel now o n log =
          Some {| trace := log; result := Raises OverflowError |}).
Proof.
  intros Hn. split.
  - intros k Hk Hmax Hf. unfold download_past_n_days, sub_days.
    rewrite (proj2 (Z.leb_gt 0 (- k))) by lia. rewrite Z.opp_involutive.
    destruct (iter_next_day_spec (Z.to_nat k) now Hn) as (start & -> & Hvs & Hos & Hts);
      [lia|].
    destruct fuel as [|fuel]; [lia|]. cbn [past_loop].
    rewrite dt_leb_ordinal by done.
    rewrite (proj2 (Z.leb_gt (toordinal start) (toordinal now))) by lia.
    cbn [result trace]. destruct (transcribe o); cbn [transcribe_all result trace];
      by rewrite <-app_assoc.
  - intros n Hle. unfold download_past_n_days, sub_days.
    pose proof (toordinal_pos now Hn).
    rewrite (proj2 (Z.leb_le 0 n)) by lia.
    by rewrite iter_prev_day_overflow by (done || lia).
Qed.

(** The dates [download_all_archives] collects and then downloads. *)
Lemma all_archives_run (returns : list event -> bool) (fuel : nat) (now : datetime)
    (days : nat) (log : list event) :
  valid now = true -> (Z.of_nat days + 1 < toordinal now)%Z -> days + 1 < fuel ->
  download_all_archives returns fuel now (Z.of_nat days) log =
    Some (for_dates returns (strftime <$> Driver.days_back now (days + 1)) log).
Proof.
  intros Hn Hmin Hf.
  destruct (iter_prev_day_spec days now Hn) as (start & Hst & Hvs & Hos & Hts); [lia|].
  unfold download_all_archives, sub_days.
  rewrite (proj2 (Z.leb_le 0 (Z.of_nat days))) by lia.
  rewrite Nat2Z.id, Hst.
  by rewrite (all_loop_spec (days + 1)) by (done || lia || congruence).
Qed.

(** X6. [download_all_archives] asks for [days + 1] dates, 366 with the
    default: today first, then each time the day before.  The dates are all
    computed before the first download; when every call returns, each is
    downloaded, in that order, and the function prints nothing itself. *)
Theorem all_archives_dates (returns : list event -> bool) (fuel : nat) (now : datetime)
    (days : nat) (log : list event) :
  (forall l, returns l = true) ->
  valid now = true -> (Z.of_nat days + 1 < toordinal now)%Z -> days + 1 < fuel ->
  let dates := Driver.days_back now (days + 1) in
  download_all_archives returns fuel now (Z.of_nat days) log =
    Some {| trace := log ++ (Archive <$> (strftime <$> dates)); result := Returns |}
  /\ length dates = days + 1 /\ head dates = Some now
  /\ toordinal <$> dates = (fun i => toordinal now - i)%Z <$> seqZ 0 (Z.of_nat (days + 1)).
Proof.
  intros Hall Hn Hmin Hf dates. split; [|by apply days_back_facts].
  rewrite all_archives_run by done. by rewrite for_dates_ok.
Qed.

Lemma digit_char_not_dash (a : N) : Ascii.eqb (pretty_N_char a) "-" = false.
Proof. unfold pretty_N_char. by repeat case_match. Qed.

Lemma count_dash_digits2 (n : N) : count_char "-" (digits2 n) = 0.
Proof. unfold digits2. cbn [count_char]. by rewrite !digit_char_not_dash. Qed.

Lemma count_dash_strftime (d : datetime) :
  valid d = true -> count_char "-" (strftime d) = 0.
Proof.
  intros Hv. rewrite strftime_digits by done. unfold digits4.
  repeat (rewrite ?count_char_app, ?count_dash_digits2; cbn [count_char]).
  done.
Qed.

(** X7. The [--range] option is cut at its dashes and must give two pieces:
    a range with no dash, or with more than one (dates written with dashes,
    for instance), ends the command with [ValueError] before anything is
    printed or downloaded.  A range with one dash hands the text before it
    and the text after it to the range driver; that is the case of two
    dates in the documented form [YYYY/MM/DD-YYYY/MM/DD]. *)
Theorem range_option_split (returns : list event -> bool) (fuel : nat) (now : datetime)
    (cookie : string) (o : options) (r : string) :
  given_str (date o) = None -> range o = Some r -> r <> "" ->
  let complete := "Download complete: " +:+ output_dir o +:+ "/" +:+ feed_id o in
  let by_range a b :=
    and_then
      (download_archives_by_range returns fuel now a b
         [Say ("Downloading archives for feed id: " +:+ feed_id o +:+ " from "
               +:+ a +:+ " to " +:+ b)])
      [complete; complete] in
  (count_char "-" r <> 1 ->
     download returns fuel now (Some cookie) o =
       Some {| trace := []; result := Raises ValueError |})
  /\ (forall a b, r = a +:+ String "-" b -> count_char "-" a = 0 -> count_char "-" b = 0 ->
        download returns fuel now (Some cookie) o = by_range a b)
  /\ (forall s e, valid s = true -> valid e = true ->
        r = strftime s +:+ String "-" (strftime e) ->
        download returns fuel now (Some cookie) o = by_range (strftime s) (strftime e)).
Proof.
  intros Hd Hr Hne complete by_range.
  assert (Hg : given_str (range o) = Some r).
  { rewrite Hr. unfold given_str. by rewrite decide_False. }
  assert (Htwo : forall a b, r = a +:+ String "-" b -> count_char "-" a = 0 ->
            count_char "-" b = 0 ->
            download returns fuel now (Some cookie) o = by_range a b).
  { intros a b Hab Ha Hb. unfold download. rewrite Hd, Hg.
    by rewrite (proj2 (split_on_two "-" r a b)). }
  split_and!; [|done|].
  - intros Hc. unfold download. rewrite Hd, Hg.
    pose proof (split_on_length "-" r) as Hl.
    destruct (split_on "-" r) as [|a [|b [|c rest]]]; try done.
    simpl in Hl. lia.
  - intros s e Hs He ->. apply Htwo; by rewrite ?count_dash_strftime.
Qed.

(** X8. With neither [--date] nor [--range], a [--past-days] of 0 is taken
    as no [--past-days] at all: the command downloads the whole trailing
    year, 366 days from today backwards, not today alone.  (When every call
    returns and today is after the first year of the calendar.) *)
Theorem zero_past_days_is_full_year (returns : list event -> bool) (fuel : nat)
    (now : datetime) (cookie : string) (o : options) :
  (forall l, returns l = true) ->
  valid now = true -> (366 < toordinal now)%Z -> 366 < fuel ->
  given_str (date o) = None -> given_str (range o) = None ->
  past_days o = None \/ past_days o = Some 0%Z ->
  let dates := Driver.days_back now 366 in
  download returns fuel now (Some cookie) o =
    Some {| trace :=
              [Say ("Downloading all archives for feed id: " +:+ feed_id o)]
              ++ (Archive <$> (strftime <$> dates))
              ++ [Say ("Download complete: " +:+ output_dir o +:+ "/" +:+ feed_id o)];
            result := Returns |}
  /\ length dates = 366 /\ head dates = Some now.
Proof.
  intros Hall Hn Hmin Hf Hd Hr Hp dates.
  destruct (days_back_facts now 365 Hn) as (Hlen & Hhead & _); [lia|].
  split_and!; [|done|done].
  assert (Hg : given_int (past_days o) = None) by (by destruct Hp as [-> | ->]).
  unfold download. rewrite Hd, Hr, Hg.
  rewrite (all_archives_run returns fuel now 365) by (done || lia).
  rewrite for_dates_ok by done. unfold and_then. cbn [result trace fmap list_fmap].
  by rewrite <-app_assoc.
Qed.

Lemma transcribed_app (a b : list event) :
  transcribed (a ++ b) = transcribed a ++ transcribed b.
Proof. apply omap_app. Qed.

Lemma transcribed_says (lines : list string) : transcribed (Say <$> lines) = [].
Proof. by induction lines. Qed.

Lemma transcribed_for_dates (returns : list event -> bool) (dates : list string)
    (log : list event) :
  transcribed (trace (for_dates returns dates log)) = transcribed log.
Proof.
  revert log. induction dates as [|d dates IH]; intros log; simpl; [done|].
  destruct (returns _); [rewrite IH|cbn [trace]];
    by rewrite transcribed_app, app_nil_r.
Qed.

Lemma transcribed_and_then (r : option run) (lines : list string) (r' : run) :
  and_then r lines = Some r' ->
  exists r0, r = Some r0 /\ transcribed (trace r') = transcribed (trace r0).
Proof.
  unfold and_then. destruct r as [r0|]; [|done]. intros H. exists r0. split; [done|].
  destruct (result r0); simplify_eq/=; [|done..].
  by rewrite transcribed_app, transcribed_says, app_nil_r.
Qed.

Lemma transcribed_by_range (returns : list event -> bool) (fuel : nat) (now : datetime)
    (a b : string) (log : list event) (r : run) :
  download_archives_by_range returns fuel now a b log = Some r ->
  transcribed (trace r) = transcribed log.
Proof.
  unfold download_archives_by_range. intros H.
  repeat case_match; simplify_eq/=;
    rewrite ?transcribed_app, ?transcribed_for_dates, ?app_nil_r; done.
Qed.

Lemma transcribed_all_archives (returns : list event -> bool) (fuel : nat)
    (now : datetime) (days : Z) (log : list event) (r : run) :
  download_all_archives returns fuel now days log = Some r ->
  transcribed (trace r) = transcribed log.
Proof.
  unfold download_all_archives. intros H.
  repeat case_match; simplify_eq/=; rewrite ?transcribed_for_dates; done.
Qed.

(** X9. Outside the trailing-days mode the [--transcribe] flag does nothing:
    with [--date], with [--range], and with neither of the three mode
    options, the command never calls [transcribe_audio], and its run is the
    same with the flag and without it. *)
Theorem transcribe_flag_only_in_past_days (returns : list event -> bool) (fuel : nat)
    (now : datetime) (login_cookie : option string) (o : options) (b : bool) (r : run) :
  given_str (date o) <> None \/ given_str (range o) <> None
    \/ given_int (past_days o) = None ->
  download returns fuel now login_cookie o = Some r ->
  transcribed (trace r) = []
  /\ download returns fuel now login_cookie (with_transcribe b o) = Some r.
Proof.
  intros Hmode Hrun. split.
  - unfold download in Hrun. destruct login_cookie as [c|]; [|by simplify_eq/=].
    destruct (given_str (date o)) as [d|] eqn:Hd.
    { by destruct (returns _); simplify_eq/=. }
    destruct (given_str (range o)) as [rg|] eqn:Hr.
    { destruct (split_on "-" rg) as [|a [|b' [|c' rest]]]; simplify_eq/=; try done.
      apply transcribed_and_then in Hrun as (r0 & Hr0 & ->).
      by rewrite (transcribed_by_range _ _ _ _ _ _ _ Hr0). }
    destruct Hmode as [?|[?|Hp]]; [done|done|]. rewrite Hp in Hrun.
    apply transcribed_and_then in Hrun as (r0 & Hr0 & ->).
    by rewrite (transcribed_all_archives _ _ _ _ _ _ Hr0).
  - rewrite <-Hrun. unfold download. destruct login_cookie as [c|]; [|done].
    cbn [with_transcribe date range past_days feed_id output_dir].
    destruct (given_str (date o)) as [d|] eqn:Hd; [done|].
    destruct (given_str (range o)) as [rg|] eqn:Hr; [done|].
    destruct Hmode as [?|[?|Hp]]; [done|done|]. by rewrite Hp.
Qed.

Lemma digit_of_not_slash (c : ascii) (v : Z) : digit_of c = Some v -> Ascii.eqb c "/" = false.
Proof.
  destruct c as [[] [] [] [] [] [] [] []]; by vm_compute.
Qed.

Lemma digit_in_not_slash (lo hi : Z) (c : ascii) (v : Z) :
  digit_in lo hi c = Some v -> Ascii.eqb c "/" = false.
Proof.
  unfold digit_in. destruct (digit_of c) as [x|] eqn:E; [|done].
  intros _. by eapply digit_of_not_slash.
Qed.

(** The shape of a date that [strptime] accepts: four characters, a slash,
    one or two characters, a slash, one or two characters, none of them a
    slash. *)
Lemma strptime_shape (s : string) (d : datetime) :
  strptime s = Some d ->
  exists a b c e ms ds,
    s = String a (String b (String c (String e (String "/" (ms +:+ String "/" ds)))))
    /\ count_char "/" (String a (String b (String c (String e "")))) = 0
    /\ count_char "/" ms = 0 /\ count_char "/" ds = 0
    /\ (String.length ms = 1 \/ String.length ms = 2)
    /\ (String.length ds = 1 \/ String.length ds = 2).
Proof.
  unfold strptime.
  destruct s as [|a [|b [|c [|e [|sep rest]]]]]; try done.
  destruct (Ascii.eqb_spec sep "/") as [->|]; [|done].
  destruct (parse_year a b c e) as [yy|] eqn:Hy; [|done].
  destruct (parse_month rest) as [[m rest']|] eqn:Hm; [|done].
  destruct (parse_day rest') as [dd|] eqn:Hd; [|done].
  intros _. 
  unfold parse_year in Hy.
  destruct (digit_of a) as [va|] eqn:Ea; [|done].
  destruct (digit_of b) as [vb|] eqn:Eb; [|done].
  destruct (digit_of c) as [vc|] eqn:Ec; [|done].
  destruct (digit_of e) as [ve|] eqn:Ee; [|done].
  apply digit_of_not_slash in Ea, Eb, Ec, Ee.
  assert (Hds : count_char "/" rest' = 0
                /\ (String.length rest' = 1 \/ String.length rest' = 2)).
  { unfold parse_day in Hd. destruct rest' as [|z [|w [|w' rest'']]]; try done.
    - apply digit_in_not_slash in Hd. cbn [count_char]. rewrite Hd. split; [done|by left].
    - unfold parse_day2 in Hd. cbn [count_char].
      assert (Ascii.eqb z "/" = false) as ->.
      { destruct (Ascii.eqb_spec z "/") as [->|]; [by vm_compute in Hd|done]. }
      assert (Ascii.eqb w "/" = false) as ->.
      { repeat case_match; try done;
          try apply fmap_Some in Hd as (v & Hd & _);
          eauto using digit_of_not_slash, digit_in_not_slash. }
      split; [done|by right]. }
  destruct Hds as [Hds1 Hds2].
  unfold parse_month in Hm. destruct rest as [|x [|y rest2]]; try done.
  destruct (Ascii.eqb_spec y "/") as [->|Hy'].
  - apply fmap_Some in Hm as (v & Hv & [= -> ->]).
    apply digit_in_not_slash in Hv.
    exists a, b, c, e, (String x ""), rest2. cbn [count_char].
    rewrite Ea, Eb, Ec, Ee, Hv. split_and!; try done. by left.
  - destruct rest2 as [|z rest3]; [done|].
    destruct (Ascii.eqb_spec z "/") as [->|]; [|done].
    apply fmap_Some in Hm as (v & Hv & [= -> ->]).
    exists a, b, c, e, (String x (String y "")), rest3. cbn [count_char].
    rewrite Ea, Eb, Ec, Ee.
    assert (Ascii.eqb x "/" = false) as ->.
    { destruct (Ascii.eqb_spec x "/") as [->|]; [by vm_compute in Hv|done]. }
    assert (Ascii.eqb y "/" = false) as -> by (by apply Ascii.eqb_neq).
    split_and!; try done. by right.
Qed.

Lemma count_slash_digits2 (n : N) : count_char "/" (digits2 n) = 0.
Proof. unfold digits2. cbn [count_char]. by rewrite !digit_char_not_slash. Qed.

Lemma strftime_compact_digits (d : datetime) :
  valid d = true ->
  Concat.strftime_compact d =
    digits4 (Z.to_N (year d)) +:+ digits2 (Z.to_N (month d)) +:+ digits2 (Z.to_N (day d)).
Proof.
  intros (Hy & Hm & Hd)%valid_bounds.
  pose proof (days_in_month_bounds (year d) (month d)).
  unfold Concat.strftime_compact. by rewrite fmt_04d_digits, !fmt_02d_digits by lia.
Qed.

Lemma remove_slash_strftime (d : datetime) :
  valid d = true -> remove_char "/" (strftime d) = Concat.strftime_compact d.
Proof.
  intros Hv. rewrite strftime_digits, strftime_compact_digits by done.
  unfold digits4.
  repeat (rewrite ?remove_char_app, ?(remove_char_id "/" (digits2 _))
            by apply count_slash_digits2; cbn [remove_char Ascii.eqb Bool.eqb]).
  by rewrite string_app_nil_r.
Qed.

Lemma remove_slash_canonical (s : string) (d : datetime) :
  strptime s = Some d -> remove_char "/" s = Concat.strftime_compact d <-> s = strftime d.
Proof.
  intros Hs. pose proof (strptime_valid _ _ Hs) as Hv. split.
  - intros Hrm.
    destruct (strptime_shape s d Hs) as (a & b & c & e & ms & ds & -> & Hy & Hms & Hds & Lm & Ld).
    rewrite strftime_compact_digits in Hrm by done.
    rewrite strftime_digits by done.
    change (String a (String b (String c (String e (String "/" (ms +:+ String "/" ds))))))
      with (String a (String b (String c (String e ""))) +:+ String "/" (ms +:+ String "/" ds))
      in Hrm |- *.
    rewrite remove_char_app in Hrm. rewrite (remove_char_id _ _ Hy) in Hrm.
    cbn [remove_char Ascii.eqb Bool.eqb] in Hrm.
    rewrite remove_char_app in Hrm. rewrite (remove_char_id _ _ Hms) in Hrm.
    cbn [remove_char Ascii.eqb Bool.eqb] in Hrm.
    rewrite (remove_char_id _ _ Hds) in Hrm.
    assert (String.length ms = 2 /\ String.length ds = 2) as [Lm2 Ld2].
    { apply (f_equal String.length) in Hrm.
      rewrite !string_length_app in Hrm. unfold digits4, digits2 in Hrm.
      rewrite !string_length_app in Hrm. simpl in Hrm. lia. }
    destruct ms as [|x [|y [|]]]; try done. destruct ds as [|z [|w [|]]]; try done.
    unfold digits4, digits2 in *. rewrite !string_app_cons, !string_app_nil_l in Hrm.
    rewrite !string_app_cons, !string_app_nil_l. by simplify_eq.
  - intros ->. by apply remove_slash_strftime.
Qed.

(** X10. In [--date] mode, when the call returns, the command announces the
    download, calls the downloader once and prints [Download complete] twice,
    the first time with a directory.  That directory is the date with its
    slashes dropped, while the downloader writes into the directory named by
    the parsed date printed as [%Y%m%d]: for a date that [strptime] accepts,
    the announced directory is the one written to exactly when the date was
    given zero-padded, as [strftime] prints it. *)
Theorem announced_directory (returns : list event -> bool) (fuel : nat) (now : datetime)
    (cookie : string) (o : options) (dt : string) (d : datetime) :
  given_str (date o) = Some dt -> strptime dt = Some d ->
  let start := Say ("Downloading archives for feed id: " +:+ feed_id o +:+ " on " +:+ dt) in
  let announced := output_dir o +:+ "/" +:+ feed_id o +:+ "/" +:+ remove_char "/" dt in
  returns [start; Archive dt] = true ->
  download returns fuel now (Some cookie) o =
    Some {| trace := [start; Archive dt;
                      Say ("Download complete: " +:+ announced);
                      Say ("Download complete: " +:+ output_dir o +:+ "/" +:+ feed_id o)];
            result := Returns |}
  /\ (announced = date_directory o d <-> dt = strftime d).
Proof.
  intros Hd Hs start announced Hret. split.
  - unfold download. rewrite Hd. fold start. rewrite Hret. unfold announced.
    by rewrite !string_app_assoc.
  - rewrite <-(remove_slash_canonical dt d Hs). unfold announced, date_directory.
    split; [|by intros ->].
    by intros ?%(inj (String.append _))%(inj (String.append _))%(inj (String.append _))%(inj (String.append _)).
Qed.

Lemma for_dates_stops (returns : list event -> bool) (dates : list string)
    (log : list event) (k : nat) :
  k < length dates ->
  (forall j, j < k -> returns (log ++ (Archive <$> take (S j) dates)) = true) ->
  returns (log ++ (Archive <$> take (S k) dates)) = false ->
  for_dates returns dates log =
    {| trace := log ++ (Archive <$> take (S k) dates); result := Raises CallFailed |}.
Proof.
  revert log k. induction dates as [|d dates IH]; intros log k Hk Hok Hfail.
  { simpl in Hk. lia. }
  cbn [for_dates]. destruct k as [|k].
  - simpl in Hfail. by rewrite Hfail.
  - pose proof (Hok 0 ltac:(lia)) as H0. simpl in H0. cbn zeta. rewrite H0.
    rewrite (IH _ k).
    + by rewrite <-app_assoc.
    + simpl in Hk. lia.
    + intros j Hj. specialize (Hok (S j) ltac:(lia)).
      by rewrite <-app_assoc.
    + by rewrite <-app_assoc.
Qed.

(** A request whose dates pass the two checks calls the downloader for the
    days from [s] to [e], in order. *)
Lemma range_calls (returns : list event -> bool) (fuel : nat) (now s e : datetime)
    (log : list event) :
  valid now = true -> Driver.well_formed_date s -> Driver.well_formed_date e ->
  (toordinal s <= toordinal e)%Z -> (toordinal e <= toordinal now)%Z ->
  (toordinal now < toordinal Driver.max_date)%Z ->
  Driver.days_between s e < fuel ->
  download_archives_by_range returns fuel now (strftime s) (strftime e) log =
    Some (for_dates returns (strftime <$> Driver.days_from s (Driver.days_between s e)) log).
Proof.
  intros Hn [Hs Hts] [He Hte] Hse Hen Hmax Hf.
  unfold download_archives_by_range.
  rewrite !str_gt_strftime by done.
  rewrite !bool_decide_eq_false_2; cycle 1.
  { rewrite date_lt_ordinal by done. lia. }
  { rewrite date_lt_ordinal by done. lia. }
  { rewrite date_lt_ordinal by done. lia. }
  simpl. rewrite !strptime_well_formed by done.
  rewrite (range_loop_spec (Driver.days_between s e)); [done|done|done|congruence|lia| |done].
  unfold Driver.days_between. lia.
Qed.

(** X11. In a valid range, a date whose download raises ends the run: the
    days before it have been downloaded, in order, the failing day has been
    tried, and no later day of the range is. *)
Theorem range_stops_at_first_failure (returns : list event -> bool) (fuel : nat)
    (now s e : datetime) (log : list event) (k : nat) :
  valid now = true -> Driver.well_formed_date s -> Driver.well_formed_date e ->
  date_le s e -> date_le e now -> date_lt now Driver.max_date ->
  Driver.days_between s e < fuel ->
  let dates := strftime <$> Driver.days_from s (Driver.days_between s e) in
  k < length dates ->
  (forall j, j < k -> returns (log ++ (Archive <$> take (S j) dates)) = true) ->
  returns (log ++ (Archive <$> take (S k) dates)) = false ->
  download_archives_by_range returns fuel now (strftime s) (strftime e) log =
    Some {| trace := log ++ (Archive <$> take (S k) dates); result := Raises CallFailed |}
  /\ length dates = Driver.days_between s e.
Proof.
  intros Hn Hs He Hse Hen Hmax Hf dates Hk Hok Hfail.
  pose proof Hs as [Hvs _]. pose proof He as [Hve _].
  apply date_le_ordinal in Hse, Hen; try done.
  apply date_lt_ordinal in Hmax; try done.
  split.
  - rewrite range_calls by done. fold dates. by rewrite (for_dates_stops _ _ _ k).
  - unfold dates. rewrite length_fmap, days_from_length; [done|done|].
    unfold Driver.days_between. lia.
Qed.

Lemma strftime_ordinal (a b : datetime) :
  valid a = true -> valid b = true -> toordinal a = toordinal b ->
  strftime a = strftime b.
Proof.
  intros Ha Hb Ho.
  assert (midnight a = midnight b) as Heq.
  { apply toordinal_inj; done. }
  change (strftime (midnight a) = strftime (midnight b)). by rewrite Heq.
Qed.

Lemma archived_app (a b : list event) : archived (a ++ b) = archived a ++ archived b.
Proof. apply omap_app. Qed.

Lemma archived_calls (dates : list string) : archived (Archive <$> dates) = dates.
Proof.
  unfold archived. induction dates as [|d dates IH]; [done|].
  simpl. first [exact IH | f_equal; exact IH].
Qed.

Lemma archived_download_events (dates : list datetime) :
  archived (concat (download_events <$> dates)) = strftime <$> dates.
Proof.
  unfold archived. induction dates as [|d dates IH]; [done|].
  simpl. first [exact IH | f_equal; exact IH].
Qed.

Lemma archived_transcribe_events (o : options) (dates : list datetime) :
  archived (concat (transcribe_events o <$> dates)) = [].
Proof.
  unfold archived. induction dates as [|d dates IH]; [done|].
  simpl. first [exact IH | f_equal; exact IH].
Qed.

(** The days back from [b] are the days forward from [a], read backwards,
    as far as [strftime] shows. *)
Lemma days_back_reverse (a b : datetime) (n : nat) :
  valid a = true -> valid b = true ->
  (toordinal b < toordinal Driver.max_date)%Z ->
  (toordinal a + Z.of_nat n - 1 = toordinal b)%Z ->
  strftime <$> Driver.days_back b n = reverse (strftime <$> Driver.days_from a n).
Proof.
  intros Ha Hb Hmax Hn.
  pose proof (toordinal_pos a Ha) as Hpa.
  destruct (days_back_spec n b Hb) as [Hbo Hbv]; [lia|].
  destruct (days_from_spec n a Ha) as [Hfo Hfv]; [lia|].
  assert (Lb : length (Driver.days_back b n) = n).
  { apply (f_equal length) in Hbo. rewrite !length_fmap, length_seqZ in Hbo. lia. }
  assert (Lf : length (Driver.days_from a n) = n).
  { apply (f_equal length) in Hfo. rewrite !length_fmap, length_seqZ in Hfo. lia. }
  apply list_eq_same_length with n;
    [by rewrite length_reverse, length_fmap|by rewrite length_fmap|].
  intros i x y Hi Hx Hy.
  assert (Ls : length (strftime <$> Driver.days_from a n) = n) by (by rewrite length_fmap).
  rewrite reverse_lookup, Ls in Hy by lia.
  apply list_lookup_fmap_Some in Hx as (dx & -> & Hdx).
  apply list_lookup_fmap_Some in Hy as (dy & -> & Hdy).
  rewrite Forall_lookup in Hbv, Hfv.
  destruct (Hbv _ _ Hdx) as [Hvx _]. destruct (Hfv _ _ Hdy) as [Hvy _].
  apply strftime_ordinal; [done|done|].
  apply (f_equal (fun l => l !! i)) in Hbo.
  rewrite !list_lookup_fmap, Hdx in Hbo. rewrite lookup_seqZ_lt in Hbo by lia.
  apply (f_equal (fun l => l !! (n - S i))) in Hfo.
  rewrite !list_lookup_fmap, Hdy in Hfo. rewrite lookup_seqZ_lt in Hfo by lia.
  simpl in Hbo, Hfo. simplify_eq. lia.
Qed.


(** A trailing run in which every call returns, seen through the dates it
    downloads. *)
Lemma past_days_returns (returns : list event -> bool) (fuel : nat) (now : datetime)
    (o : options) (N : nat) (start : datetime) :
  (forall l, returns l = true) ->
  valid now = true -> valid start = true -> time_of_day start = time_of_day now ->
  toordinal start = (toordinal now - Z.of_nat N)%Z ->
  (Z.of_nat N + 1 < toordinal now)%Z -> N + 1 < fuel ->
  sub_days now (Z.of_nat N) = Some start ->
  exists tr,
    download_past_n_days returns fuel now o (Z.of_nat N) [] =
      Some {| trace := tr; result := Returns |}
    /\ archived tr = strftime <$> Driver.days_back now (N + 1).
Proof.
  intros Hall Hn Hvs Hts Hos Hmin Hf Hstart.
  unfold download_past_n_days. rewrite Hstart.
  rewrite (past_loop_all_return returns (N + 1)); [|done|done|done|congruence|lia|lia|lia].
  cbn [result trace app].
  destruct (transcribe o).
  - rewrite transcribe_all_spec by done. cbn [result trace]. eexists. split; [reflexivity|].
    rewrite !archived_app, archived_download_events, archived_transcribe_events.
    change (archived []) with (@nil string).
    change (archived [Say ?x]) with (@nil string).
    by rewrite !app_nil_r.
  - cbn [result trace]. eexists. split; [reflexivity|].
    rewrite !archived_app, archived_download_events.
    change (archived []) with (@nil string).
    change (archived [Say ?x]) with (@nil string).
    by rewrite !app_nil_r.
Qed.

(** X12. A trailing request for [N] days downloads the days of the range
    that starts [N] days ago and ends today, in the opposite order: the
    trailing mode goes from today backwards, the range mode from the start
    forwards. *)
Theorem past_days_is_reversed_range (returns : list event -> bool) (fuel : nat)
    (now : datetime) (o : options) (N : nat) (start : datetime) :
  (forall l, returns l = true) ->
  valid now = true -> (Z.of_nat N + 1 < toordinal now)%Z ->
  date_lt now Driver.max_date -> N + 1 < fuel ->
  sub_days now (Z.of_nat N) = Some start ->
  exists r1 r2,
    download_past_n_days returns fuel now o (Z.of_nat N) [] = Some r1
    /\ download_archives_by_range returns fuel now (strftime start) (strftime now) []
         = Some r2
    /\ result r1 = Returns /\ result r2 = Returns
    /\ archived (trace r1) = reverse (archived (trace r2))
    /\ length (archived (trace r1)) = N + 1.
Proof.
  intros Hall Hn Hmin Hmax Hf Hstart.
  apply date_lt_ordinal in Hmax; [|done..].
  destruct (iter_prev_day_spec N now Hn) as (start' & Hst & Hvs & Hos & Hts); [lia|].
  assert (start' = start) as ->.
  { unfold sub_days in Hstart. rewrite (proj2 (Z.leb_le 0 (Z.of_nat N))) in Hstart by lia.
    rewrite Nat2Z.id in Hstart. congruence. }
  assert (Hdb : Driver.days_between (midnight start) (midnight now) = N + 1).
  { unfold Driver.days_between. change (toordinal (midnight now)) with (toordinal now).
    change (toordinal (midnight start)) with (toordinal start). lia. }
  destruct (past_days_returns returns fuel now o N start Hall Hn Hvs Hts Hos Hmin Hf Hstart)
    as (tr & Hrun & Htr).
  eexists _, _. split_and!.
  - exact Hrun.
  - change (strftime start) with (strftime (midnight start)).
    change (strftime now) with (strftime (midnight now)).
    rewrite range_calls; [|done|by split|by split| | |done|].
    + rewrite Hdb, for_dates_ok by done. done.
    + change (toordinal start <= toordinal now)%Z. lia.
    + change (toordinal now <= toordinal now)%Z. lia.
    + rewrite Hdb. lia.
  - done.
  - done.
  - cbn [trace]. rewrite Htr, app_nil_l, archived_calls.
    apply (days_back_reverse (midnight start) now); [done|done|done|].
    change (toordinal (midnight start)) with (toordinal start). lia.
  - cbn [trace]. rewrite Htr, length_fmap.
    by destruct (days_back_facts now N Hn Hmin) as [-> _].
Qed.

(** X4 on 2 March 2024, for one day back, with [--transcribe]. *)
Lemma past_days_trace_witness :
  download_past_n_days all_return 10 example_now example_options 1 [] =
    Some {| trace :=
              [Say "Downloading archives for 2024/03/02"; Archive "2024/03/02";
               Say "Downloading archives for 2024/03/01"; Archive "2024/03/01";
               Say "Download complete for the past 1 days: out/7";
               Say "Transcribing audio in out/7/20240302"; Transcribe "out/7/20240302";
               Say "Transcribing audio in out/7/20240301"; Transcribe "out/7/20240301";
               Say "All operations completed."];
            result := Returns |}.
Proof.
  refine (proj1 (past_days_trace all_return 10 example_now example_options 1 []
                   (fun _ => eq_refl) eq_refl _ _)); [by vm_compute|lia].
Defined.

(** X5 for [--past-days -3]. *)
Lemma past_days_out_of_window_witness :
  download_past_n_days all_return 5 example_now example_options (-3) [] =
    Some {| trace := [Say "Download complete for the past -3 days: out/7";
                      Say "All operations completed."];
            result := Returns |}.
Proof.
  refine (proj1 (past_days_out_of_window all_return 5 example_now example_options []
                   eq_refl) 3%Z _ _ _); [lia|by vm_compute|lia].
Defined.

(** X6 for two days back: the leap day is among them. *)
Lemma all_archives_dates_witness :
  download_all_archives all_return 10 example_now 2 [] =
    Some {| trace := [Archive "2024/03/02"; Archive "2024/03/01"; Archive "2024/02/29"];
            result := Returns |}.
Proof.
  refine (proj1 (all_archives_dates all_return 10 example_now 2 []
                   (fun _ => eq_refl) eq_refl _ _)); [by vm_compute|lia].
Defined.

(** X7 on a range written with dashes. *)
Lemma range_option_split_witness :
  download all_return 10 example_now (Some "bcfyuser1=c")
    (with_range "2024-02-27-2024-03-01" example_options)
  = Some {| trace := []; result := Raises ValueError |}.
Proof.
  refine (proj1 (range_option_split all_return 10 example_now "bcfyuser1=c"
                   (with_range "2024-02-27-2024-03-01" example_options)
                   "2024-02-27-2024-03-01" eq_refl eq_refl _) _); [done|by vm_compute].
Defined.

(** X8 for [--past-days 0]. *)
Lemma zero_past_days_is_full_year_witness :
  length (Driver.days_back example_now 366) = 366
  /\ head (Driver.days_back example_now 366) = Some example_now.
Proof.
  refine (proj2 (zero_past_days_is_full_year all_return 400 example_now "bcfyuser1=c"
                   (with_past_days 0 example_options)
                   (fun _ => eq_refl) eq_refl _ _ eq_refl eq_refl (or_intror eq_refl)));
    [by vm_compute|lia].
Defined.

(** X9 in [--date] mode. *)
Lemma transcribe_flag_only_in_past_days_witness :
  download all_return 10 example_now (Some "bcfyuser1=c")
    (with_transcribe false (with_date "2024/03/02" example_options))
  = Some {| trace := [Say "Downloading archives for feed id: 7 on 2024/03/02";
                      Archive "2024/03/02";
                      Say "Download complete: out/7/20240302";
                      Say "Download complete: out/7"];
            result := Returns |}.
Proof.
  refine (proj2 (transcribe_flag_only_in_past_days all_return 10 example_now
                   (Some "bcfyuser1=c") (with_date "2024/03/02" example_options) false _
                   (or_introl _) eq_refl)); done.
Defined.

(** X10 on a date given without padding: the announced directory is not the
    one written to. *)
Lemma announced_directory_witness :
  "out" +:+ "/" +:+ "7" +:+ "/" +:+ remove_char "/" "2024/3/2"
    = date_directory (with_date "2024/3/2" example_options) (midnight example_now)
  <-> "2024/3/2" = strftime (midnight example_now).
Proof.
  refine (proj2 (announced_directory all_return 10 example_now "bcfyuser1=c"
                   (with_date "2024/3/2" example_options) "2024/3/2" (midnight example_now)
                   eq_refl _ eq_refl)); by vm_compute.
Defined.

(** X11 on the range from 27 February to 1 March 2024 when the download of
    28 February raises. *)
Lemma range_stops_at_first_failure_witness :
  download_archives_by_range (fails_on "2024/02/28") 10 example_now
    "2024/02/27" "2024/03/01" []
  = Some {| trace := [Archive "2024/02/27"; Archive "2024/02/28"];
            result := Raises CallFailed |}.
Proof.
  pose (s := {| year := 2024; month := 2; day := 27; time_of_day := 0 |}).
  pose (e := {| year := 2024; month := 3; day := 1; time_of_day := 0 |}).
  refine (proj1 (range_stops_at_first_failure (fails_on "2024/02/28") 10 example_now s e
                   [] 1 eq_refl (conj eq_refl eq_refl) (conj eq_refl eq_refl)
                   _ _ _ _ _ _ _)); try done.
  - vm_compute. lia.
  - vm_compute. lia.
  - intros j Hj. by replace j with 0 by lia.
Defined.

(** X12 for two days back from 2 March 2024. *)
Lemma past_days_is_reversed_range_witness :
  exists r1 r2,
    download_past_n_days all_return 10 example_now example_options 2 [] = Some r1
    /\ download_archives_by_range all_return 10 example_now "2024/02/29" "2024/03/02" []
         = Some r2
    /\ result r1 = Returns /\ result r2 = Returns
    /\ archived (trace r1) = reverse (archived (trace r2))
    /\ length (archived (trace r1)) = 3.
Proof.
  refine (past_days_is_reversed_range all_return 10 example_now example_options 2
            {| year := 2024; month := 2; day := 29; time_of_day := 52200000000 |}
            (fun _ => eq_refl) eq_refl _ eq_refl _ eq_refl); [by vm_compute|lia].
Defined.

Lemma past_loop_stops (returns : list event -> bool) (n fuel : nat) (o : options)
    (cur start : datetime) (dirs : list string) (log : list event) (k : nat) :
  valid cur = true -> valid start = true -> time_of_day cur = time_of_day start ->
  (1 < toordinal start)%Z ->
  Z.of_nat n = (toordinal cur + 1 - toordinal start)%Z -> n < fuel ->
  let dates := Driver.days_back cur n in
  k < n ->
  (forall j, j < k -> returns (log ++ concat (download_events <$> take (S j) dates)) = true) ->
  returns (log ++ concat (download_events <$> take (S k) dates)) = false ->
  exists dirs',
    past_loop returns fuel o cur start dirs log =
      Some (dirs', {| trace := log ++ concat (download_events <$> take (S k) dates);
                      result := Raises CallFailed |}).
Proof.
  revert fuel cur dirs log k.
  induction n as [|n IH]; intros fuel cur dirs log k Hc Hs Ht Hmin Hn Hf dates Hk Hok Hfail;
    [lia|].
  destruct fuel as [|fuel]; [lia|]. cbn [past_loop].
  rewrite dt_leb_ordinal by done.
  destruct (Z.leb_spec (toordinal start) (toordinal cur)); [|lia].
  destruct (prev_day_is_Some cur) as [c' Hc']; [done|lia|].
  destruct (prev_day_spec cur c' Hc Hc') as (Hv' & Ho' & Ht').
  subst dates. rewrite (days_back_S _ _ _ Hc') in Hok, Hfail |- *.
  cbn zeta.
  assert (Hlog : forall X, ((log ++ [Say ("Downloading archives for " +:+ strftime cur)])
                            ++ [Archive (strftime cur)]) ++ X
                           = log ++ download_events cur ++ X).
  { intros X. unfold download_events. by rewrite <-!app_assoc. }
  assert (Hcons : forall j, log ++ concat (download_events <$> take (S j)
                                             (cur :: Driver.days_back c' n))
                            = ((log ++ [Say ("Downloading archives for " +:+ strftime cur)])
                               ++ [Archive (strftime cur)])
                              ++ concat (download_events <$> take j (Driver.days_back c' n))).
  { intros j. by rewrite firstn_cons, fmap_cons, concat_cons, Hlog. }
  destruct k as [|k].
  - rewrite Hcons, take_0 in Hfail. cbn [fmap list_fmap concat] in Hfail.
    rewrite app_nil_r in Hfail. rewrite Hfail.
    eexists. f_equal. f_equal. f_equal. rewrite Hcons, take_0. cbn [fmap list_fmap concat].
    by rewrite app_nil_r.
  - pose proof (Hok 0 ltac:(lia)) as H0.
    rewrite Hcons, take_0 in H0. cbn [fmap list_fmap concat] in H0.
    rewrite app_nil_r in H0. rewrite H0, Hc'.
    edestruct (IH fuel c' (if transcribe o
                           then dirs ++ [output_dir o +:+ "/" +:+ feed_id o +:+ "/"
                                         +:+ Concat.strftime_compact cur]
                           else dirs)
                 ((log ++ [Say ("Downloading archives for " +:+ strftime cur)])
                  ++ [Archive (strftime cur)]) k) as [dirs' Hres];
      [done|done|congruence|done|lia|lia|simpl in Hk; lia| | |].
    + intros j Hj. specialize (Hok (S j) ltac:(lia)). by rewrite Hcons in Hok.
    + by rewrite Hcons in Hfail.
    + rewrite Hres. eexists. f_equal. f_equal. f_equal. by rewrite Hcons.
Qed.

Lemma transcribed_download_events (dates : list datetime) :
  transcribed (concat (download_events <$> dates)) = [].
Proof.
  unfold transcribed. induction dates as [|d dates IH]; [done|]. simpl. exact IH.
Qed.

(** X23. In the trailing-days mode a download that raises ends the run at
    once: the days before it have been downloaded, nothing is printed after
    the failing call, and nothing is transcribed, not even the days that were
    downloaded, since transcription only starts after the last download. *)
Theorem past_days_stops_at_first_failure (returns : list event -> bool) (fuel : nat)
    (now : datetime) (o : options) (N : nat) (log : list event) (k : nat) :
  valid now = true -> (Z.of_nat N + 1 < toordinal now)%Z -> N + 1 < fuel ->
  let dates := Driver.days_back now (N + 1) in
  k <= N ->
  (forall j, j < k -> returns (log ++ concat (download_events <$> take (S j) dates)) = true) ->
  returns (log ++ concat (download_events <$> take (S k) dates)) = false ->
  download_past_n_days returns fuel now o (Z.of_nat N) log =
    Some {| trace := log ++ concat (download_events <$> take (S k) dates);
            result := Raises CallFailed |}
  /\ transcribed (log ++ concat (download_events <$> take (S k) dates)) = transcribed log.
Proof.
  intros Hn Hmin Hf dates Hk Hok Hfail. split.
  - destruct (iter_prev_day_spec N now Hn) as (start & Hst & Hvs & Hos & Hts); [lia|].
    unfold download_past_n_days, sub_days.
    rewrite (proj2 (Z.leb_le 0 (Z.of_nat N))) by lia.
    rewrite Nat2Z.id, Hst.
    destruct (past_loop_stops returns (N + 1) fuel o now start [] log k) as [dirs' ->];
      try done; try lia; congruence.
  - by rewrite transcribed_app, transcribed_download_events, app_nil_r.
Qed.

(** X23 when the download of the day before today raises. *)
Lemma past_days_stops_at_first_failure_witness :
  download_past_n_days (fails_on "2024/03/01") 10 example_now example_options 2 [] =
    Some {| trace := [Say "Downloading archives for 2024/03/02"; Archive "2024/03/02";
                      Say "Downloading archives for 2024/03/01"; Archive "2024/03/01"];
            result := Raises CallFailed |}.
Proof.
  refine (proj1 (past_days_stops_at_first_failure (fails_on "2024/03/01") 10 example_now
                   example_options 2 [] 1 eq_refl _ _ _ _ _)).
  - by vm_compute.
  - lia.
  - lia.
  - intros j Hj. replace j with 0 by lia. by vm_compute.
  - by vm_compute.
Defined.

End CommandFacts.

(** ** Logging in *)
Module LoginFacts.
Import Text Concat Login TextFacts ConcatFacts.

Lemma value_run_spec (s : string) :
  has_semicolon (value_run s) = false
  /\ exists post, s = value_run s +:+ post /\ (post = "" \/ exists post', post = String ";" post').
Proof.
  induction s as [|c s (IH1 & post & IH2 & IH3)]; simpl.
  - split; [done|]. exists "". split; [done|by left].
  - destruct (Ascii.eqb_spec c ";") as [->|Hne]; simpl.
    + split; [done|]. exists (String ";" s). split; [done|]. right. by exists s.
    + split.
      * rewrite IH1. by destruct (Ascii.eqb_spec c ";").
      * exists post. by rewrite string_app_cons, <-IH2.
Qed.

Lemma value_run_app (v post : string) :
  has_semicolon v = false -> (post = "" \/ exists post', post = String ";" post') ->
  value_run (v +:+ post) = v.
Proof.
  intros Hv Hpost. induction v as [|c v IH].
  - rewrite string_app_nil_l. destruct Hpost as [->|[post' ->]]; [done|].
    simpl. done.
  - rewrite string_app_cons. simpl in *. apply orb_false_iff in Hv as [-> Hv].
    by rewrite IH.
Qed.

Lemma match_here_Some (s v : string) :
  match_here s = Some v <->
  v <> "" /\ has_semicolon v = false
  /\ exists post, s = "bcfyuser1=" +:+ v +:+ post
                  /\ (post = "" \/ exists post', post = String ";" post').
Proof.
  unfold match_here. split.
  - destruct (strip_prefix "bcfyuser1=" s) as [rest|] eqn:E; [|done].
    apply strip_prefix_spec in E as ->.
    destruct (decide (value_run rest = "")) as [|Hne]; [done|]. intros [= <-].
    destruct (value_run_spec rest) as (H1 & post & H2 & H3).
    split_and!; [done|done|]. exists post. by rewrite <-H2.
  - intros (Hne & Hsemi & post & -> & Hpost).
    rewrite (proj2 (strip_prefix_spec "bcfyuser1=" _ (v +:+ post))) by done.
    rewrite value_run_app by done. by rewrite decide_False.
Qed.

Lemma match_here_None (s : string) :
  match_here s = None <->
  forall c rest, s = "bcfyuser1=" +:+ String c rest -> c = ";"%char.
Proof.
  unfold match_here. split.
  - intros H c rest ->.
    rewrite (proj2 (strip_prefix_spec "bcfyuser1=" _ (String c rest))) in H by done.
    simpl in H. by destruct (Ascii.eqb_spec c ";").
  - intros H. destruct (strip_prefix "bcfyuser1=" s) as [rest|] eqn:E; [|done].
    apply strip_prefix_spec in E as ->.
    destruct rest as [|c rest]; [done|].
    rewrite (H c rest eq_refl). done.
Qed.

Lemma search_cookie_here (s v : string) :
  match_here s = Some v -> search_cookie s = Some v.
Proof. intros H. destruct s; cbn [search_cookie]; by rewrite H. Qed.

(** X13. The value taken from the [Set-Cookie] header by the pattern
    [bcfyuser1=([^;]+)]: it is not empty and holds no semicolon; in the
    header it follows [bcfyuser1=] and runs up to the next semicolon or the
    end; it comes from the first place of the header where [bcfyuser1=] is
    followed by something else than a semicolon.  Nothing is found exactly
    when every [bcfyuser1=] of the header is followed by a semicolon or by
    nothing.  A header that starts with the cookie gives back its value. *)
Theorem search_cookie_spec (s : string) :
  (forall v, search_cookie s = Some v ->
     v <> "" /\ has_semicolon v = false
     /\ exists pre post,
          s = pre +:+ "bcfyuser1=" +:+ v +:+ post
          /\ (post = "" \/ exists post', post = String ";" post')
          /\ forall pre1 pre2, pre = pre1 +:+ pre2 -> pre2 <> "" ->
               match_here (pre2 +:+ "bcfyuser1=" +:+ v +:+ post) = None)
  /\ (search_cookie s = None <->
      forall pre c rest, s = pre +:+ "bcfyuser1=" +:+ String c rest -> c = ";"%char)
  /\ (forall v post, v <> "" -> has_semicolon v = false ->
        (post = "" \/ exists post', post = String ";" post') ->
        search_cookie ("bcfyuser1=" +:+ v +:+ post) = Some v).
Proof.
  split_and!.
  - induction s as [|c s IH]; intros v; cbn [search_cookie].
    + destruct (match_here "") eqn:E; [|done]. by vm_compute in E.
    + destruct (match_here (String c s)) as [v'|] eqn:E.
      * intros [= ->]. apply match_here_Some in E as (Hne & Hsemi & post & Hs & Hpost).
        split_and!; [done|done|]. exists "", post. rewrite string_app_nil_l.
        split_and!; [done|done|]. intros pre1 pre2 Hpre Hpre2.
        destruct pre1, pre2; done.
      * intros (Hne & Hsemi & pre & post & -> & Hpost & Hleft)%IH.
        split_and!; [done|done|]. exists (String c pre), post.
        split_and!; [by rewrite string_app_cons|done|].
        intros pre1 pre2 Hpre Hpre2. destruct pre1 as [|c1 pre1].
        -- rewrite string_app_nil_l in Hpre. subst pre2. by rewrite string_app_cons.
        -- rewrite string_app_cons in Hpre. injection Hpre as _ Hp.
           by apply (Hleft pre1 pre2).
  - induction s as [|c s IH]; cbn [search_cookie].
    + destruct (match_here "") eqn:E; [by vm_compute in E|]. split; [|done].
      intros _ pre ch rest H. apply (f_equal String.length) in H.
      rewrite !string_length_app in H. simpl in H. lia.
    + destruct (match_here (String c s)) as [v'|] eqn:E.
      * split; [done|]. intros H. exfalso.
        apply match_here_Some in E as (Hne & Hsemi & post & Hs & _).
        destruct v' as [|c' v']; [done|].
        specialize (H "" c' (v' +:+ post)). rewrite string_app_nil_l in H.
        rewrite Hs, string_app_cons in H. specialize (H eq_refl). by subst c'.
      * rewrite IH. split.
        -- intros H pre ch rest Heq. destruct pre as [|c0 pre].
           ++ rewrite string_app_nil_l in Heq.
              by apply (proj1 (match_here_None (String c s)) E ch rest).
           ++ rewrite string_app_cons in Heq. injection Heq as _ Heq.
              by apply (H pre ch rest).
        -- intros H pre ch rest ->. apply (H (String c pre) ch rest).
           by rewrite string_app_cons.
  - intros v post Hne Hsemi Hpost.
    apply search_cookie_here, match_here_Some. split_and!; [done|done|]. by exists post.
Qed.

(** X13 on a header that starts with the cookie. *)
Lemma search_cookie_spec_witness :
  search_cookie ("bcfyuser1=" +:+ "ab%3D12" +:+ "; path=/") = Some "ab%3D12".
Proof.
  refine (proj2 (proj2 (search_cookie_spec "")) "ab%3D12" "; path=/" _ eq_refl _);
    [done|right; by eexists].
Defined.

(** X14. A first login and the runs after it.  With no [cookies.json], a
    login answered by a redirect (status 302) that sets the cookie sends one
    request, stores the value in [cookies.json] and returns the bare value.
    A call after that sends no request and returns the stored value behind
    [bcfyuser1=]: not the text the first call returned.  It leaves
    everything as it is, so every later call does the same. *)
Theorem login_then_cached (username password : option string)
    (post_login : option string -> option string -> post_result)
    (w : world) (response : Response) (header v : string) :
  cookies_json w = None ->
  post_login username password = Answered response ->
  status_code response = 302%Z -> set_cookie response = Some header ->
  search_cookie header = Some v ->
  let r1 := get_login_cookie username password post_login w in
  let r2 := get_login_cookie username password post_login r1.1 in
  r1.2 = Returns (Some v)
  /\ posts r1.1 = posts w ++ [(username, password)]
  /\ cookies_json r1.1 = Some (Object {[ "bcfyuser1" := v ]})
  /\ r2 = (r1.1, Returns (Some ("bcfyuser1=" +:+ v)))
  /\ r2.2 <> r1.2.
Proof.
  intros Hnone Hpost Hstatus Hset Hsearch r1 r2.
  assert (Hheader : Command.given_str (Some header) = Some header).
  { unfold Command.given_str. rewrite decide_False; [done|]. intros ->.
    by vm_compute in Hsearch. }
  assert (Hr1 : r1 = ({| cookies_json := Some (Object {[ "bcfyuser1" := v ]});
                         console := console w;
                         posts := posts w ++ [(username, password)] |},
                      Returns (Some v))).
  { subst r1. unfold get_login_cookie.
    by rewrite Hnone, Hpost, Hstatus, Hset, Hheader, Hsearch. }
  assert (Hr2 : r2 = (r1.1, Returns (Some ("bcfyuser1=" +:+ v)))).
  { subst r2. rewrite Hr1. unfold get_login_cookie. cbn [fst cookies_json].
    by rewrite lookup_singleton_eq. }
  rewrite Hr2, Hr1. cbn [fst snd cookies_json posts]. split_and!; try done.
  intros [= H]. apply (f_equal String.length) in H.
  rewrite string_length_app in H. simpl in H. lia.
Qed.

(** X14 with the example server, whose header sets another cookie first. *)
Lemma login_then_cached_witness :
  let r1 := get_login_cookie (Some "u") (Some "p") example_login no_login in
  let r2 := get_login_cookie (Some "u") (Some "p") example_login r1.1 in
  r1.2 = Returns (Some "ab%3D12")
  /\ posts r1.1 = [(Some "u", Some "p")]
  /\ cookies_json r1.1 = Some (Object {[ "bcfyuser1" := "ab%3D12" ]})
  /\ r2 = (r1.1, Returns (Some "bcfyuser1=ab%3D12"))
  /\ r2.2 <> r1.2.
Proof.
  exact (login_then_cached (Some "u") (Some "p") example_login no_login _ _ "ab%3D12"
           eq_refl eq_refl eq_refl eq_refl eq_refl).
Defined.

End LoginFacts.

(** ** More on the fetch pool *)
Module FetchPoolMore.
Import Text Calendar Concat FetchPool TextFacts CalendarFacts ConcatFacts FetchPoolFacts
  CommandFacts.

Lemma has_slash_basename (p : string) : has_slash (basename p) = false.
Proof.
  induction p as [|c p IH]; [done|]. cbn [basename].
  destruct (has_slash p) eqn:Hp; [done|].
  destruct (Ascii.eqb_spec c "/") as [->|Hne]; [done|].
  cbn [has_slash]. rewrite Hp. by destruct (Ascii.eqb_spec c "/").
Qed.

Lemma endswith_last (a : string) (c : ascii) (p : ascii) :
  endswith (a +:+ String c "") (String p "") = Ascii.eqb p c.
Proof.
  unfold endswith. rewrite rev_app_distr.
  change (String.rev (String c "")) with (String c "").
  change (String.rev (String p "")) with (String p "").
  rewrite string_app_cons, string_app_nil_l. cbn [String.prefix].
  destruct (ascii_dec p c) as [->|Hne].
  - rewrite Ascii.eqb_refl. by destruct (String.rev a).
  - symmetry. by apply Ascii.eqb_neq.
Qed.

Lemma date_directory_no_trailing_slash (x : string) (d : datetime) :
  valid d = true -> endswith (x +:+ strftime_compact d) "/" = false.
Proof.
  intros Hv. rewrite strftime_compact_digits by done.
  unfold digits2 at 2.
  set (c2 := pretty_N_char (Z.to_N (day d) `mod` 10)).
  set (c1 := pretty_N_char (Z.to_N (day d) `div` 10)).
  replace (x +:+ digits4 (Z.to_N (year d)) +:+ digits2 (Z.to_N (month d))
             +:+ String c1 (String c2 ""))
    with ((x +:+ digits4 (Z.to_N (year d)) +:+ digits2 (Z.to_N (month d))
             +:+ String c1 "") +:+ String c2 "").
  - rewrite endswith_last. subst c2. rewrite Ascii.eqb_sym. apply digit_char_not_slash.
  - by rewrite !string_app_assoc.
Qed.

Lemma path_join_inside (a name : string) :
  a <> "" -> endswith a "/" = false -> has_slash name = false ->
  path_join a name = a +:+ "/" +:+ name.
Proof.
  intros Ha He Hn. unfold path_join.
  assert (startswith name "/" = false) as ->.
  { destruct (startswith name "/") eqn:E; [|done].
    apply startswith_spec in E as [b ->]. by rewrite has_slash_app in Hn. }
  by rewrite decide_False, He.
Qed.

(** A path whose content the pool changes holds what a successful fetch
    stored there. *)
Lemma fetch_pool_stores (respond : string -> fetch_result)
    (completion_order : list string -> list string)
    (jobs : Z) (feed_id : string) (date_obj : datetime) (output_dir : string)
    (archive_ids : list string) (w : world) (p : string) :
  let dir := output_dir +:+ "/" +:+ feed_id +:+ "/" +:+ strftime_compact date_obj in
  let r := fetch_pool respond completion_order jobs feed_id date_obj output_dir
             archive_ids w in
  files r.1 !! p = files w !! p
  \/ exists u c, target respond dir u = Some (p, c) /\ files r.1 !! p = Some c.
Proof.
  intros dir r. subst r. unfold fetch_pool. destruct (jobs <=? 0)%Z; [by left|].
  cbn [fst]. fold dir.
  set (urls := archive_url feed_id (strftime_compact date_obj) <$> archive_ids).
  destruct (run_tasks_files respond (completion_order urls) dir w p)
    as [[Heq _]|(u & c & _ & Ht & Hf)]; [by left|right; eauto].
Qed.

(** Where a successful fetch is stored. *)
Lemma target_inside (respond : string -> fetch_result) (output_dir feed_id : string)
    (date_obj : datetime) (u p c : string) :
  valid date_obj = true ->
  let dir := output_dir +:+ "/" +:+ feed_id +:+ "/" +:+ strftime_compact date_obj in
  target respond dir u = Some (p, c) -> Archive.inside dir p.
Proof.
  intros Hv dir Ht.
  unfold target in Ht. destruct (respond u) as [resp|]; [|done].
  destruct (status_code resp =? 200)%Z; [|done]. injection Ht as <- _.
  exists (basename (url resp)). split; [|apply has_slash_basename].
  apply path_join_inside; [| |apply has_slash_basename].
  2:{ subst dir.
      replace (output_dir +:+ "/" +:+ feed_id +:+ "/" +:+ strftime_compact date_obj)
        with ((output_dir +:+ "/" +:+ feed_id +:+ "/") +:+ strftime_compact date_obj)
        by (by rewrite !string_app_assoc).
      by apply date_directory_no_trailing_slash. }
  subst dir. intros H. apply (f_equal String.length) in H.
  rewrite !string_length_app in H. simpl in H. lia.
Qed.

(** X15. Whatever the server answers and in whatever order the fetches
    complete, the fetch pool of a date deletes nothing, and the only paths
    whose content it changes are directly inside the per-date directory
    [output_dir/feed_id/YYYYMMDD]: the name of a stored file is the part of
    the final URL after its last slash. *)
Theorem fetch_pool_confined (respond : string -> fetch_result)
    (completion_order : list string -> list string)
    (jobs : Z) (feed_id : string) (date_obj : datetime) (output_dir : string)
    (archive_ids : list string) (w : world) :
  valid date_obj = true ->
  let dir := output_dir +:+ "/" +:+ feed_id +:+ "/" +:+ strftime_compact date_obj in
  let r := fetch_pool respond completion_order jobs feed_id date_obj output_dir
             archive_ids w in
  (forall p, is_Some (files w !! p) -> is_Some (files r.1 !! p))
  /\ (forall p, files r.1 !! p <> files w !! p -> Archive.inside dir p).
Proof.
  intros Hv dir r.
  pose proof (fetch_pool_stores respond completion_order jobs feed_id date_obj output_dir
                archive_ids w) as Hcase. fold dir r in Hcase.
  split.
  - intros p Hp. destruct (Hcase p) as [->|(u & c & _ & ->)]; done.
  - intros p Hne. destruct (Hcase p) as [?|(u & c & Ht & _)]; [done|].
    by apply (target_inside respond output_dir feed_id date_obj u p c).
Qed.

(** X15 with the example server: the first of the three fetches of 2 March
    2024 is stored inside the directory of that day. *)
Lemma fetch_pool_confined_witness :
  Archive.inside "out/7/20240302" "out/7/20240302/1.mp3".
Proof.
  refine (proj2 (fetch_pool_confined example_server reverse 4 "7" example_date "out"
                   ["1"; "2bad"; "3"] empty_world eq_refl) "out/7/20240302/1.mp3" _).
  by vm_compute.
Defined.

End FetchPoolMore.

(** ** More on the concatenator *)
Module ConcatMore.
Import Text Calendar Concat TextFacts CalendarFacts ConcatFacts.






End ConcatMore.

(** ** One date *)
Module ArchiveFacts.
Import Text Calendar Concat FetchPool Archive TextFacts CalendarFacts ConcatFacts
  FetchPoolFacts CommandFacts FetchPoolMore ConcatMore.

(** X17. The requests of one date.  A date that [strptime] refuses ends the
    call with [ValueError] before any request.  Otherwise the listing of the
    date is asked for first, at the URL that carries the feed and the date
    as [MM/DD/YYYY]; when the listing fails, or when the number of workers
    is below one, that is the only request and no file changes; otherwise
    one download request follows for every identifier of the listing, none
    twice, and nothing else is requested, combined or not. *)
Theorem requests_of_a_date (list_archives : string -> option (list string))
    (respond : string -> fetch_result) (completion_order : list string -> list string)
    (ffmpeg_path : option string)
    (ffmpeg_concat : gmap string string -> string -> string + string)
    (temp_file_name feed_id date output_dir : string) (combine : bool) (jobs : Z)
    (w : world) :
  (forall l, completion_order l ≡ₚ l) ->
  let r := download_archive_by_date list_archives respond completion_order ffmpeg_path
             ffmpeg_concat temp_file_name feed_id date output_dir combine jobs w in
  match strptime date with
  | None => r = (w, Some ValueError)
  | Some d =>
      let listing := listing_url feed_id d in
      match list_archives listing with
      | None =>
          r.2 = Some ListingFailed /\ requests r.1 = requests w ++ [listing]
          /\ files r.1 = files w
      | Some ids =>
          if (jobs <=? 0)%Z then
            r.2 = Some ValueError /\ requests r.1 = requests w ++ [listing]
            /\ files r.1 = files w
          else
            exists attempts,
              requests r.1 = requests w ++ listing :: attempts
              /\ attempts ≡ₚ archive_url feed_id (strftime_compact d) <$> ids
              /\ length attempts = length ids
      end
  end.
Proof.
  intros Hperm r. subst r. unfold download_archive_by_date, get_archive_ids.
  destruct (strptime date) as [d|] eqn:Hd; [|done]. cbn zeta.
  destruct (list_archives (listing_url feed_id d)) as [ids|]; [|done].
  unfold fetch_pool. destruct (jobs <=? 0)%Z; [done|]. cbn zeta.
  set (urls := archive_url feed_id (strftime_compact d) <$> ids).
  set (dir := output_dir +:+ "/" +:+ feed_id +:+ "/" +:+ strftime_compact d).
  set (w1 := {| files := files w; console := console w;
                requests := requests w ++ [listing_url feed_id d] |}).
  destruct (run_tasks_log respond (completion_order urls) dir w1) as [Hreq _].
  exists (completion_order urls). split_and!; [|apply Hperm|].
  - destruct combine.
    + unfold run_combine. destruct (combine_mp3_files _ _ _ _ _ _ _) as [cw res].
      cbn [fst requests]. rewrite Hreq. cbn [requests w1]. by rewrite <-app_assoc.
    + cbn [fst]. rewrite Hreq. cbn [requests w1]. by rewrite <-app_assoc.
  - rewrite Hperm. unfold urls. by rewrite length_fmap.
Qed.

(** X17 on 2 March 2024 with the example listing of three segments. *)
Lemma requests_of_a_date_witness :
  let r := download_archive_by_date example_listing example_server reverse None
             example_encoder "/tmp/list.txt" "7" "2024/3/2" "out" false 4 empty_world in
  exists attempts,
    requests r.1 =
      [] ++ "https://www.broadcastify.com/archives/ajax.php?feedId=7&date=03/02/2024"
            :: attempts
    /\ attempts ≡ₚ archive_url "7" "20240302" <$> ["1"; "2bad"; "3"]
    /\ length attempts = 3.
Proof.
  exact (requests_of_a_date example_listing example_server reverse None
           example_encoder "/tmp/list.txt" "7" "2024/3/2" "out" false 4 empty_world
           reverse_Permutation).
Defined.

(** The files after the downloads of a date, before the concatenator. *)
Lemma after_fetch (list_archives : string -> option (list string))
    (respond : string -> fetch_result) (completion_order : list string -> list string)
    (ffmpeg_path : option string)
    (ffmpeg_concat : gmap string string -> string -> string + string)
    (temp_file_name feed_id date output_dir : string) (combine : bool) (jobs : Z)
    (w : world) (d : datetime) (ids : list string) :
  strptime date = Some d -> list_archives (listing_url feed_id d) = Some ids ->
  (1 <= jobs)%Z ->
  let dir := output_dir +:+ "/" +:+ feed_id +:+ "/" +:+ strftime_compact d in
  exists w2,
    download_archive_by_date list_archives respond completion_order ffmpeg_path
      ffmpeg_concat temp_file_name feed_id date output_dir combine jobs w =
      (if combine then
         run_combine (combine_mp3_files ffmpeg_path ffmpeg_concat temp_file_name
                        dir feed_id date) w2
       else (w2, None))
    /\ (forall p, is_Some (files w !! p) -> is_Some (files w2 !! p))
    /\ (forall p, files w2 !! p <> files w !! p -> inside dir p).
Proof.
  intros Hd Hl Hjobs dir.
  pose proof (strptime_valid _ _ Hd) as Hv.
  set (w1 := {| files := files w; console := console w;
                requests := requests w ++ [listing_url feed_id d] |}).
  pose proof (fetch_pool_stores respond completion_order jobs feed_id d output_dir ids w1)
    as Hcase. fold dir in Hcase. cbn zeta in Hcase.
  exists (fetch_pool respond completion_order jobs feed_id d output_dir ids w1).1.
  split_and!; cycle 1.
  { intros p Hp. destruct (Hcase p) as [->|(u & c & _ & ->)]; done. }
  { intros p Hne. destruct (Hcase p) as [?|(u & c & Ht & _)]; [done|].
    by apply (target_inside respond output_dir feed_id d u p c). }
  unfold download_archive_by_date, get_archive_ids. rewrite Hd, Hl. cbn zeta. fold w1.
  unfold fetch_pool. by rewrite (proj2 (Z.leb_gt jobs 0)) by lia.
Qed.



(** X19. The dates the drivers hand over are dates the downloader takes: a
    date printed by [strftime("%Y/%m/%d")] is parsed back to the same day, so
    the call sends its listing request for that day and does not fail on the
    date.  What it stores goes directly into [output_dir/feed_id/YYYYMMDD]
    of that day, which is the directory the trailing-days driver queues for
    transcription, and no other file changes. *)
Theorem driver_dates_are_accepted (list_archives : string -> option (list string))
    (respond : string -> fetch_result) (completion_order : list string -> list string)
    (ffmpeg_path : option string)
    (ffmpeg_concat : gmap string string -> string -> string + string)
    (temp_file_name : string) (o : Command.options) (d : datetime) (w : world) :
  valid d = true ->
  let r := download_archive_by_date list_archives respond completion_order ffmpeg_path
             ffmpeg_concat temp_file_name (Command.feed_id o) (strftime d)
             (Command.output_dir o) false (Command.jobs o) w in
  strptime (strftime d) = Some (Command.midnight d)
  /\ (exists rest,
        requests r.1 = requests w ++ listing_url (Command.feed_id o) d :: rest)
  /\ ((1 <= Command.jobs o)%Z -> r.2 = None \/ r.2 = Some ListingFailed)
  /\ (forall p, is_Some (files w !! p) -> is_Some (files r.1 !! p))
  /\ (forall p, files r.1 !! p <> files w !! p -> inside (Command.date_directory o d) p).
Proof.
  intros Hv r.
  assert (Hd : strptime (strftime d) = Some (Command.midnight d))
    by (by apply strptime_strftime).
  split; [done|].
  destruct (list_archives (listing_url (Command.feed_id o) d)) as [ids|] eqn:Hl; cycle 1.
  { subst r. unfold download_archive_by_date, get_archive_ids. rewrite Hd. cbn zeta.
    change (listing_url (Command.feed_id o) (Command.midnight d))
      with (listing_url (Command.feed_id o) d). rewrite Hl. cbn [fst snd files requests].
    split_and!; [by exists []|by right|done|done]. }
  destruct (Z.leb_spec (Command.jobs o) 0) as [Hj|Hj].
  { subst r. unfold download_archive_by_date, get_archive_ids. rewrite Hd. cbn zeta.
    change (listing_url (Command.feed_id o) (Command.midnight d))
      with (listing_url (Command.feed_id o) d). rewrite Hl.
    unfold fetch_pool. rewrite (proj2 (Z.leb_le (Command.jobs o) 0)) by done.
    cbn [fst snd files requests].
    split_and!; [by exists []|lia|done|done]. }
  destruct (after_fetch list_archives respond completion_order ffmpeg_path ffmpeg_concat
              temp_file_name (Command.feed_id o) (strftime d) (Command.output_dir o) false
              (Command.jobs o) w (Command.midnight d) ids Hd Hl ltac:(lia))
    as (w2 & Hrun & Hkeep & Hin).
  fold r in Hrun. rewrite Hrun. cbn [fst snd].
  split_and!; [|by left|done|done].
  subst r. unfold download_archive_by_date, get_archive_ids in Hrun.
  rewrite Hd in Hrun. cbn zeta in Hrun.
  change (listing_url (Command.feed_id o) (Command.midnight d))
    with (listing_url (Command.feed_id o) d) in Hrun. rewrite Hl in Hrun.
  unfold fetch_pool in Hrun. rewrite (proj2 (Z.leb_gt (Command.jobs o) 0)) in Hrun by lia.
  injection Hrun as <-.
  match goal with
  | |- context [run_tasks respond ?l ?dir ?w1] =>
      destruct (run_tasks_log respond l dir w1) as [-> _]
  end.
  cbn [requests]. rewrite <-app_assoc. by eexists.
Qed.

(** X19 for 2 March 2024, whatever the time of the day. *)
Lemma driver_dates_are_accepted_witness :
  strptime (strftime Command.example_now) = Some (Command.midnight Command.example_now).
Proof.
  exact (proj1 (driver_dates_are_accepted example_listing example_server reverse None
                  example_encoder "/tmp/list.txt" Command.example_options
                  Command.example_now empty_world eq_refl)).
Defined.

End ArchiveFacts.

(** ** The whole transcription *)
Module TranscriptionFacts.
Import Text Calendar Fusion Concat Transcription TextFacts CalendarFacts ConcatFacts
  ConcatMore.

Lemma rfind_dot_None (s : string) : rfind_dot s = None <-> has_dot s = false.
Proof.
  induction s as [|c s IH]; [done|]. cbn [rfind_dot has_dot].
  destruct (rfind_dot s) as [i|].
  - split; [done|]. intros [_ H]%orb_false_iff. apply IH in H. done.
  - rewrite (proj1 IH eq_refl), orb_false_r. by destruct (Ascii.eqb c ".").
Qed.

Lemma rfind_dot_app (a b : string) :
  has_dot b = false -> rfind_dot (a +:+ String "." b) = Some (String.length a).
Proof.
  intros Hb. induction a as [|c a IH].
  - rewrite string_app_nil_l. cbn [rfind_dot].
    by rewrite (proj2 (rfind_dot_None b) Hb).
  - rewrite string_app_cons. cbn [rfind_dot]. by rewrite IH.
Qed.

Lemma substring_prefix (a b : string) :
  String.substring 0 (String.length a) (a +:+ b) = a.
Proof.
  induction a as [|c a IH]; [by destruct b|].
  rewrite string_app_cons. simpl. by rewrite IH.
Qed.

(** The stem of a name with an extension and something before it. *)
Lemma stem_ext (base ext : string) :
  base <> "" -> ext <> "" -> has_dot ext = false ->
  stem (base +:+ String "." ext) = base.
Proof.
  intros Hb He Hd. unfold stem. rewrite rfind_dot_app by done.
  rewrite string_length_app. cbn [String.length].
  assert (0 < String.length base) by (destruct base; [done|simpl; lia]).
  assert (0 < String.length ext) by (destruct ext; [done|simpl; lia]).
  rewrite (proj2 (Nat.ltb_lt 0 _)) by lia.
  rewrite (proj2 (Nat.ltb_lt (String.length base) _)) by lia.
  apply substring_prefix.
Qed.

(** A name that [*.mp3] matches is a stem followed by [.mp3]. *)
Lemma mp3_name (name : string) :
  matches_star_mp3 name = true ->
  exists base, name = base +:+ ".mp3" /\ base <> "" /\ stem name = base.
Proof.
  unfold matches_star_mp3. intros [He Hs]%andb_true_iff.
  apply endswith_spec in He as [base ->]. exists base.
  assert (base <> "").
  { intros ->. by vm_compute in Hs. }
  split_and!; [done|done|]. by apply (stem_ext base "mp3").
Qed.

Lemma glob_match_stem (directory p : string) :
  glob_match directory p = true ->
  exists base, p = directory +:+ "/" +:+ base +:+ ".mp3" /\ base <> ""
               /\ has_slash base = false /\ stem (basename p) = base.
Proof.
  intros (name & -> & Hs & Hne & Hm)%glob_match_spec.
  destruct (mp3_name name Hm) as (base & -> & Hb & Hst).
  exists base. rewrite has_slash_app in Hs. apply orb_false_iff in Hs as [Hs _].
  split_and!; [done|done|done|]. by rewrite basename_child by (by rewrite has_slash_app, Hs).
Qed.

Lemma json_is_not_txt (a b : string) : a +:+ ".json" <> b +:+ ".txt".
Proof.
  intros H. apply (f_equal String.rev) in H. rewrite !rev_app_distr in H.
  by vm_compute in H.
Qed.

Lemma mp3_is_not_transcript (a b ext : string) :
  has_slash a = false -> a <> "transcripts/" +:+ b +:+ ext.
Proof. intros Ha ->. by rewrite has_slash_app in Ha. Qed.

Lemma transcript_paths (directory p p' : string) :
  glob_match directory p = true -> glob_match directory p' = true ->
  p <> json_path directory p' /\ p <> txt_path directory p'
  /\ json_path directory p <> txt_path directory p'
  /\ (json_path directory p = json_path directory p' -> p = p')
  /\ (txt_path directory p = txt_path directory p' -> p = p').
Proof.
  intros (base & Hp & Hb & Hs & Hst)%glob_match_stem
         (base' & Hp' & Hb' & Hs' & Hst')%glob_match_stem.
  unfold json_path, txt_path. rewrite Hst, Hst', !string_app_assoc. split_and!.
  - rewrite Hp. intros H%(inj (String.append _)).
    change ("/" +:+ base +:+ ".mp3" = "/" +:+ "transcripts/" +:+ base' +:+ ".json") in H.
    apply (inj (String.append _)) in H.
    apply (mp3_is_not_transcript (base +:+ ".mp3") base' ".json"); [|done].
    by rewrite has_slash_app, Hs.
  - rewrite Hp. intros H%(inj (String.append _)).
    change ("/" +:+ base +:+ ".mp3" = "/" +:+ "transcripts/" +:+ base' +:+ ".txt") in H.
    apply (inj (String.append _)) in H.
    apply (mp3_is_not_transcript (base +:+ ".mp3") base' ".txt"); [|done].
    by rewrite has_slash_app, Hs.
  - intros H. do 3 apply (inj (String.append _)) in H. by apply json_is_not_txt in H.
  - intros H. do 3 apply (inj (String.append _)) in H.
    apply (f_equal String.rev) in H. rewrite !rev_app_distr in H.
    apply (inj (String.append _)), (f_equal String.rev) in H.
    rewrite !rev_involutive in H. by rewrite Hp, Hp', H.
  - intros H. do 3 apply (inj (String.append _)) in H.
    apply (f_equal String.rev) in H. rewrite !rev_app_distr in H.
    apply (inj (String.append _)), (f_equal String.rev) in H.
    rewrite !rev_involutive in H. by rewrite Hp, Hp', H.
Qed.

Lemma elem_of_listing (directory : string) (fs : gmap string string) (p : string) :
  p ∈ listing directory fs <-> is_Some (fs !! p) /\ glob_match directory p = true.
Proof.
  unfold listing. rewrite list_elem_of_filter, list_elem_of_fmap. split.
  - intros (Hg & [q v] & -> & Hin%elem_of_map_to_list). split; [by exists v|done].
  - intros ([v Hv] & Hg). split; [done|]. exists (p, v). split; [done|].
    by apply elem_of_map_to_list.
Qed.

Lemma listing_NoDup (directory : string) (fs : gmap string string) :
  NoDup (listing directory fs).
Proof. unfold listing. apply NoDup_filter, NoDup_fst_map_to_list. Qed.

Section Loop.

Variable diarization_pipeline : string -> list DiarizationSegment.
Variable whisper_transcribe : string -> string -> string -> string -> list TranscriptionSegment.
Variable json_dump : string -> list Entry -> string.

Lemma transcribe_file_effect (directory : string) (use_gpu : bool) (model_size : string)
    (p audio : string) (w : world) :
  files w !! p = Some audio ->
  transcribe_file diarization_pipeline whisper_transcribe json_dump
    (directory +:+ "/transcripts") model_size (if use_gpu then "cuda" else "cpu")
    (if use_gpu then "float16" else "int8") p w =
  ({| files := <[txt_path directory p :=
                   txt_of diarization_pipeline whisper_transcribe use_gpu model_size audio]>
                 (<[json_path directory p :=
                      json_of diarization_pipeline whisper_transcribe json_dump use_gpu
                        model_size audio]> (files w));
      console := console w |}, inr tt).
Proof. intros H. unfold transcribe_file. by rewrite H. Qed.

Lemma transcribe_loop (directory : string) (use_gpu : bool) (model_size : string)
    (l : list string) (w : world) :
  NoDup l ->
  (forall p, p ∈ l -> is_Some (files w !! p) /\ glob_match directory p = true) ->
  let r := for_each l
             (transcribe_file diarization_pipeline whisper_transcribe json_dump
                (directory +:+ "/transcripts") model_size
                (if use_gpu then "cuda" else "cpu")
                (if use_gpu then "float16" else "int8")) w in
  r.2 = inr tt /\ console r.1 = console w
  /\ (forall p audio, p ∈ l -> files w !! p = Some audio ->
        files r.1 !! json_path directory p =
          Some (json_of diarization_pipeline whisper_transcribe json_dump use_gpu
                  model_size audio)
        /\ files r.1 !! txt_path directory p =
             Some (txt_of diarization_pipeline whisper_transcribe use_gpu model_size audio))
  /\ (forall q, (forall p, p ∈ l -> q <> json_path directory p /\ q <> txt_path directory p) ->
        files r.1 !! q = files w !! q).
Proof.
  revert w. induction l as [|p0 l IH]; intros w Hnd Hl r.
  { subst r. simpl. split_and!; try done. intros p audio Hp. by apply elem_of_nil in Hp. }
  apply NoDup_cons in Hnd as [Hp0 Hnd].
  destruct (Hl p0) as [[audio0 Ha0] Hg0]; [by left|].
  pose (w1 := {| files := <[txt_path directory p0 :=
                   txt_of diarization_pipeline whisper_transcribe use_gpu model_size audio0]>
                 (<[json_path directory p0 :=
                      json_of diarization_pipeline whisper_transcribe json_dump use_gpu
                        model_size audio0]> (files w));
                 console := console w |}).
  assert (Hstep : r = for_each l
             (transcribe_file diarization_pipeline whisper_transcribe json_dump
                (directory +:+ "/transcripts") model_size
                (if use_gpu then "cuda" else "cpu")
                (if use_gpu then "float16" else "int8")) w1).
  { subst r. cbn [for_each]. unfold bind.
    by rewrite (transcribe_file_effect directory use_gpu model_size p0 audio0 w Ha0). }
  rewrite Hstep. clear Hstep r.
  assert (Hw1 : forall q, q <> json_path directory p0 -> q <> txt_path directory p0 ->
            files w1 !! q = files w !! q).
  { intros q H1 H2. subst w1. cbn [files]. by rewrite !lookup_insert_ne. }
  assert (Haudio : forall p, p ∈ p0 :: l -> files w1 !! p = files w !! p).
  { intros p Hp. destruct (Hl p Hp) as [_ Hg].
    destruct (transcript_paths directory p p0 Hg Hg0) as (H1 & H2 & _).
    by apply Hw1. }
  destruct (IH w1 Hnd) as (Hr2 & Hcon & Hout & Hrest).
  { intros p Hp. rewrite Haudio by (by right). apply Hl. by right. }
  split_and!; [done|by rewrite Hcon| |].
  - intros p audio Hp Ha. apply elem_of_cons in Hp as [->|Hp].
    + assert (Hnot : forall p, p ∈ l -> json_path directory p0 <> json_path directory p
                       /\ json_path directory p0 <> txt_path directory p
                       /\ txt_path directory p0 <> json_path directory p
                       /\ txt_path directory p0 <> txt_path directory p).
      { intros p Hp. destruct (Hl p) as [_ Hg]; [by right|].
        destruct (transcript_paths directory p0 p Hg0 Hg) as (_ & _ & H3 & H4 & H5).
        destruct (transcript_paths directory p p0 Hg Hg0) as (_ & _ & H3' & _ & _).
        split_and!; [|done| |].
        - intros H. apply H4 in H. by subst.
        - intros H. by symmetry in H.
        - intros H. apply H5 in H. by subst. }
      assert (audio = audio0) as -> by congruence.
      rewrite !Hrest by (intros p Hp; destruct (Hnot p Hp) as (?&?&?&?); done).
      subst w1. cbn [files].
      destruct (transcript_paths directory p0 p0 Hg0 Hg0) as (_ & _ & H3 & _ & _).
      rewrite lookup_insert_ne, lookup_insert_eq, lookup_insert_eq by done. done.
    + apply Hout; [done|]. rewrite Haudio by (by right). done.
  - intros q Hq. rewrite Hrest by (intros p Hp; apply Hq; by right).
    destruct (Hq p0) as [H1 H2]; [by left|]. by apply Hw1.
Qed.

Lemma transcribe_effect (directory : string) (use_gpu : bool) (model_size : string)
    (w : world) :
  let r := transcribe_audio diarization_pipeline whisper_transcribe json_dump
             directory use_gpu model_size w in
  r.2 = inr tt /\ console r.1 = console w
  /\ (forall p audio, files w !! p = Some audio -> glob_match directory p = true ->
        files r.1 !! json_path directory p =
          Some (json_of diarization_pipeline whisper_transcribe json_dump use_gpu
                  model_size audio)
        /\ files r.1 !! txt_path directory p =
             Some (txt_of diarization_pipeline whisper_transcribe use_gpu model_size audio))
  /\ (forall q, ~ is_transcript directory (files w) q -> files r.1 !! q = files w !! q).
Proof.
  intros r. subst r. unfold transcribe_audio, bind, glob_mp3.
  set (l := merge_sort String.le (listing directory (files w))).
  assert (Hl : forall p, p ∈ l <-> is_Some (files w !! p) /\ glob_match directory p = true).
  { intros p. unfold l. rewrite merge_sort_Permutation. apply elem_of_listing. }
  assert (Hnd : NoDup l).
  { unfold l. rewrite merge_sort_Permutation. apply listing_NoDup. }
  destruct (transcribe_loop directory use_gpu model_size l w Hnd) as (H1 & H2 & H3 & H4).
  { intros p Hp. by apply Hl. }
  split_and!; [done|done| |].
  - intros p audio Ha Hg. apply H3; [|done]. apply Hl. split; [by exists audio|done].
  - intros q Hq. apply H4. intros p [Hp Hg]%Hl.
    split; intros ->; apply Hq; exists p; eauto.
Qed.

Lemma is_transcript_dec (directory : string) (fs : gmap string string) (q : string) :
  is_transcript directory fs q \/ ~ is_transcript directory fs q.
Proof.
  set (l := listing directory fs).
  destruct (decide (q ∈ (json_path directory <$> l) ++ (txt_path directory <$> l)))
    as [Hin|Hout].
  - left. apply elem_of_app in Hin as [Hin|Hin];
      apply list_elem_of_fmap in Hin as (p & -> & [Hp Hg]%elem_of_listing);
      exists p; eauto.
  - right. intros (p & Hp & Hg & Hq). apply Hout, elem_of_app.
    assert (p ∈ l) by (by apply elem_of_listing).
    destruct Hq as [->| ->]; [left|right]; by apply list_elem_of_fmap_2.
Qed.

Lemma transcribe_again (directory : string) (use_gpu : bool) (model_size : string)
    (w : world) :
  let r1 := transcribe_audio diarization_pipeline whisper_transcribe json_dump
              directory use_gpu model_size w in
  let r2 := transcribe_audio diarization_pipeline whisper_transcribe json_dump
              directory use_gpu model_size r1.1 in
  files r2.1 = files r1.1 /\ r2.2 = inr tt.
Proof.
  intros r1 r2.
  destruct (transcribe_effect directory use_gpu model_size w) as (_ & _ & H3 & H4).
  destruct (transcribe_effect directory use_gpu model_size r1.1) as (G1 & _ & G3 & G4).
  fold r1 in H3, H4. fold r1 r2 in G1, G3, G4. split; [|done].
  assert (Haudio : forall p, glob_match directory p = true -> files r1.1 !! p = files w !! p).
  { intros p Hg. apply H4. intros (p' & _ & Hg' & [->| ->]);
      by destruct (transcript_paths directory _ p' Hg Hg') as (? & ? & _). }
  apply map_eq. intros q.
  destruct (is_transcript_dec directory (files w) q) as [(p & [audio Hp] & Hg & Hq)|Hno].
  - destruct (H3 p audio Hp Hg) as [Hj Ht].
    destruct (G3 p audio) as [Gj Gt]; [by rewrite Haudio|done|].
    destruct Hq as [->| ->]; congruence.
  - apply G4. intros (p & Hp & Hg & Hq). apply Hno. exists p.
    rewrite Haudio in Hp by done. eauto.
Qed.

End Loop.



(** X21. Transcribing a directory a second time changes nothing: the
    transcripts are not audio files of the directory, so the second run sees
    the same audio files and writes the same transcripts over the first
    ones. *)
Theorem transcribe_twice
    (diarization_pipeline : string -> list DiarizationSegment)
    (whisper_transcribe : string -> string -> string -> string -> list TranscriptionSegment)
    (json_dump : string -> list Entry -> string)
    (directory : string) (use_gpu : bool) (model_size : string) (w : world) :
  let r1 := transcribe_audio diarization_pipeline whisper_transcribe json_dump
              directory use_gpu model_size w in
  let r2 := transcribe_audio diarization_pipeline whisper_transcribe json_dump
              directory use_gpu model_size r1.1 in
  files r2.1 = files r1.1 /\ r2.2 = inr tt
  /\ listing directory (files r1.1) ≡ₚ listing directory (files w).
Proof.
  intros r1 r2. split_and!; [apply transcribe_again..|].
  apply NoDup_Permutation; [apply listing_NoDup..|]. intros p.
  rewrite !elem_of_listing.
  destruct (transcribe_effect diarization_pipeline whisper_transcribe json_dump directory
              use_gpu model_size w) as (_ & _ & _ & H4). fold r1 in H4.
  assert (Haudio : glob_match directory p = true -> files r1.1 !! p = files w !! p).
  { intros Hg. apply H4. intros (p' & _ & Hg' & [->| ->]);
      by destruct (transcript_paths directory _ p' Hg Hg') as (? & ? & _). }
  split; intros [Hp Hg]; (split; [|done]); [by rewrite <-Haudio|by rewrite Haudio].
Qed.



End TranscriptionFacts.
